(** * tab-stash key-value store layer: KVSCache, Client retry loop, genericList

    A shallow embedding of [src/datastore/kvs/index.ts] (the [KVSCache] class
    and [genericList]) and of [src/datastore/kvs/client.ts]
    ([Client._request_with_retry]), with the properties of the
    specification stated and proved over it; then of the rest of the
    client (its methods and its connection) and of the containers model
    ([Model]), with further properties read off the code.

    Modelling conventions
    - A JS [Map<K, Entry>] is a [gmap K ref]: the map stores a reference to
      an [Entry] object, and the objects themselves live in [heap], so that
      the three maps of the cache alias the same objects as in the source.
      (A [gmap] does not record insertion order; no property below depends
      on the order in which a [Map] is iterated.)
    - [Entry<K, V | null>] is [Entry (option V)], with [None] for [null].
    - The background I/O task of [_io] is an explicit continuation
      ([io_state]) stored in [_pending_io]; every [await] of the source is a
      point where the task is suspended and other events may run.
    - Calls made to the wrapped store are recorded in [kvs_calls].
    - Keys are compared by value, as a [Map] compares strings and numbers. *)

From stdpp Require Import gmap list fin_maps strings sorting.

(** ** Entries ([proto.ts]: [Entry<K, V> = {key: K, value: V}]) *)

Record Entry (K T : Type) := mkEntry { key : K; value : T }.
Arguments mkEntry {K T} _ _.
Arguments key {K T} _.
Arguments value {K T} _.

(** A reference to an [Entry] object: its index in the heap. *)
Abbreviation ref := nat.

(** Modelled from the spec: [batchesOf] of [src/util] is not part of the
    sources at hand; the specification says the queues are drained "in
    batches of <= 100": consecutive chunks of [size] items, the last one
    possibly shorter, no empty chunk. [cur] holds the chunk being filled,
    most recent item first. *)
Fixpoint batches_fill {A} (size : nat) (cur : list A) (items : list A)
  : list (list A) :=
  match items with
  | [] => match cur with [] => [] | _ => [rev cur] end
  | x :: items' =>
      if decide (size ≤ S (length cur))
      then rev (x :: cur) :: batches_fill size [] items'
      else batches_fill size (x :: cur) items'
  end.

Definition batchesOf {A} (size : nat) (items : list A) : list (list A) :=
  batches_fill size [] items.

Module Cache.
Section KVSCache.
Context {K V : Type} `{Countable K}.

(** Requests issued to the wrapped [KeyValueStore]: [kvs.get(batch)] in
    [_fetch] and [kvs.set(dirty)] in [_flush]. *)
Inductive kvs_call :=
  | KvsGet (keys : list K)
  | KvsSet (entries : list (Entry K (option V))).

(** Where the asynchronous body started by [_io] is suspended.
    - [IoScheduled]: [later(...)] has been armed, the body has not started
      ([later] of [src/util] defers its argument to a later turn of the
      event loop);
    - [IoFetching rest]: inside [_fetch], awaiting [kvs.get(batch)]; [rest]
      are the batches of the local [map] still to request;
    - [IoFetchDone]: [_fetch] has returned, [await this._fetch()] has not
      resumed yet;
    - [IoFlushing rest]: inside [_flush], awaiting [kvs.set(dirty)]; [rest]
      are the batches of entry objects of the local [map] still to write;
    - [IoFlushDone]: [_flush] has returned, the loop test has not run yet. *)
Inductive io_state :=
  | IoScheduled
  | IoFetching (rest : list (list K))
  | IoFetchDone
  | IoFlushing (rest : list (list ref))
  | IoFlushDone.

Record KVSCache := mkCache {
  heap : list (Entry K (option V));
  _entries : gmap K ref;
  _needs_flush : gmap K ref;
  _needs_fetch : gmap K ref;
  _pending_io : option io_state;
  _crash_count : nat;
  kvs_calls : list kvs_call;
}.

Definition new_cache : KVSCache :=
  mkCache [] ∅ ∅ ∅ None 0 [].

(** Field updates. *)
Definition set_heap h c :=
  mkCache h (_entries c) (_needs_flush c) (_needs_fetch c)
    (_pending_io c) (_crash_count c) (kvs_calls c).
Definition set_entries m c :=
  mkCache (heap c) m (_needs_flush c) (_needs_fetch c)
    (_pending_io c) (_crash_count c) (kvs_calls c).
Definition set_needs_flush m c :=
  mkCache (heap c) (_entries c) m (_needs_fetch c)
    (_pending_io c) (_crash_count c) (kvs_calls c).
Definition set_needs_fetch m c :=
  mkCache (heap c) (_entries c) (_needs_flush c) m
    (_pending_io c) (_crash_count c) (kvs_calls c).
Definition set_pending_io p c :=
  mkCache (heap c) (_entries c) (_needs_flush c) (_needs_fetch c)
    p (_crash_count c) (kvs_calls c).
Definition set_crash_count n c :=
  mkCache (heap c) (_entries c) (_needs_flush c) (_needs_fetch c)
    (_pending_io c) n (kvs_calls c).
Definition record_call q c :=
  mkCache (heap c) (_entries c) (_needs_flush c) (_needs_fetch c)
    (_pending_io c) (_crash_count c) (kvs_calls c ++ [q]).

(** [ent.value = v] on the object behind reference [e]. *)
Definition assign_value (e : ref) (v : option V) (c : KVSCache) : KVSCache :=
  set_heap (alter (λ ent, mkEntry (key ent) v) e (heap c)) c.

(** [_io()]: the synchronous part, lines 174-199. Nothing is started when a
    cycle is pending or after three crashes. *)
Definition _io (c : KVSCache) : KVSCache :=
  match _pending_io c with
  | Some _ => c
  | None =>
      if decide (3 ≤ _crash_count c) then c
      else set_pending_io (Some IoScheduled) c
  end.

(** [get(key)], lines 100-109. *)
Definition get (k : K) (c : KVSCache) : ref * KVSCache :=
  match _entries c !! k with
  | Some e => (e, c)
  | None =>
      let e := length (heap c) in
      let c := set_heap (heap c ++ [mkEntry k None]) c in
      let c := set_entries (<[k := e]> (_entries c)) c in
      let c := set_needs_fetch (<[k := e]> (_needs_fetch c)) c in
      (e, _io c)
  end.

(** [getIfExists(key)], lines 113-115. *)
Definition getIfExists (k : K) (c : KVSCache) : option ref :=
  _entries c !! k.

(** [set(key, value)], lines 119-126. *)
Definition set (k : K) (v : V) (c : KVSCache) : ref * KVSCache :=
  let '(ent, c) := get k c in
  let c := assign_value ent (Some v) c in
  let c := set_needs_flush (<[k := ent]> (_needs_flush c)) c in
  let c := set_needs_fetch (delete k (_needs_fetch c)) c in
  (ent, _io c).

(** The value currently held by the object behind [e] ([ent.value]). *)
Definition deref_value (e : ref) (c : KVSCache) : option V :=
  ent ← heap c !! e; value ent.

(** [maybeInsert(key, value)], lines 137-151. *)
Definition maybeInsert (k : K) (v : V) (c : KVSCache) : ref * KVSCache :=
  let '(ent, c) := get k c in
  match deref_value ent c with
  | Some _ => (ent, c)
  | None =>
      let c := assign_value ent (Some v) c in
      let c := set_needs_fetch (<[k := ent]> (_needs_fetch c)) c in
      let c := set_needs_flush (<[k := ent]> (_needs_flush c)) c in
      (ent, _io c)
  end.

(** [sync()], lines 155-158: whether there is a pending cycle to wait for. *)
Definition sync (c : KVSCache) : option io_state := _pending_io c.

(** [_update(key, value)], lines 162-172. *)
Definition _update (k : K) (v : option V) (c : KVSCache) : KVSCache :=
  match _entries c !! k with
  | None => c
  | Some ent =>
      let c := assign_value ent v c in
      let c := set_needs_fetch (delete k (_needs_fetch c)) c in
      set_needs_flush (delete k (_needs_flush c)) c
  end.

(** The [onSet] listener, lines 78-80. *)
Definition onSet (entries : list (Entry K V)) (c : KVSCache) : KVSCache :=
  foldl (λ c e, _update (key e) (Some (value e)) c) c entries.

(** The [onDelete] listener, lines 81-83. *)
Definition onDelete (keys : list K) (c : KVSCache) : KVSCache :=
  foldl (λ c k, _update k None c) c keys.

(** The [onSyncLost] listener, lines 84-93: [sync_lost_entry] is the body
    of its loop over [this._entries], which is not changed while it is
    iterated. *)
Definition sync_lost_entry (k : K) (v : ref) (c : KVSCache) : KVSCache :=
  let c := assign_value v None c in
  set_needs_fetch (<[k := v]> (_needs_fetch c)) c.

Definition onSyncLost (c : KVSCache) : KVSCache :=
  _io (map_fold sync_lost_entry c (_entries c)).

(** *** The background I/O task, lines 182-221.

    Each definition below is one synchronous segment of the task, from the
    point where it is resumed to the next [await]. *)

(** The [for ... of batchesOf(100, map.keys())] loop of [_fetch]: request
    the next batch, or return from [_fetch] when none is left. *)
Definition fetch_next (batches : list (list K)) (c : KVSCache) : KVSCache :=
  match batches with
  | [] => set_pending_io (Some IoFetchDone) c
  | batch :: rest =>
      set_pending_io (Some (IoFetching rest)) (record_call (KvsGet batch) c)
  end.

(** [_fetch()], lines 201-208, up to its first [await]. *)
Definition _fetch (c : KVSCache) : KVSCache :=
  let map := _needs_fetch c in
  let c := set_needs_fetch ∅ c in
  fetch_next (batchesOf 100 (map_to_list map).*1) c.

(** [kvs.get(batch)] has resolved with [entries]:
    [for (const e of entries) this._update(e.key, e.value)], then the next
    batch. *)
Definition fetch_resolved (entries : list (Entry K V)) (rest : list (list K))
    (c : KVSCache) : KVSCache :=
  fetch_next rest
    (foldl (λ c e, _update (key e) (Some (value e)) c) c entries).

(** The [for ... of batchesOf(100, map.values())] loop of [_flush]: the
    entry objects of the batch are read (through [JSON.stringify]) when the
    batch is sent, not when the queue was taken. *)
Definition flush_next (batches : list (list ref)) (c : KVSCache) : KVSCache :=
  match batches with
  | [] => set_pending_io (Some IoFlushDone) c
  | batch :: rest =>
      let dirty := omap (λ e, heap c !! e) batch in
      set_pending_io (Some (IoFlushing rest)) (record_call (KvsSet dirty) c)
  end.

(** [_flush()], lines 210-221, up to its first [await]. *)
Definition _flush (c : KVSCache) : KVSCache :=
  let map := _needs_flush c in
  let c := set_needs_flush ∅ c in
  flush_next (batchesOf 100 (map_to_list map).*2) c.

(** The test of the [while] loop, line 184; when it fails the body
    completes and [finally] clears [_pending_io]. *)
Definition io_loop (c : KVSCache) : KVSCache :=
  if decide (0 < size (_needs_fetch c) ∨ 0 < size (_needs_flush c))
  then _fetch c
  else set_pending_io None c.

(** Modelled from the spec: [logErrorsFrom] of [src/util/oops] is not in
    the sources at hand; as the specification has it ("if the loop body
    raises three times cumulatively ..."), what the loop body raises is
    raised again by [logErrorsFrom] and so reaches the handlers of [_io].
    A call of the wrapped store was rejected: the [catch] handler counts
    the crash and [finally] clears [_pending_io], lines 188-197. *)
Definition io_crashed (c : KVSCache) : KVSCache :=
  set_pending_io None (set_crash_count (S (_crash_count c)) c).

(** *** Events

    Everything that can happen to a cache: calls of its public methods,
    notifications of the wrapped store, and the resumptions of the
    background task. An event that is not enabled in the current state
    (a resolution when nothing is awaited) leaves the state unchanged. *)
Inductive event :=
  | CallGet (k : K)
  | CallSet (k : K) (v : V)
  | CallMaybeInsert (k : K) (v : V)
  | NotifySet (entries : list (Entry K V))
  | NotifyDelete (keys : list K)
  | NotifySyncLost
  | IoResume
  | KvsGetResolved (entries : list (Entry K V))
  | KvsSetResolved
  | KvsRejected.

Definition step (c : KVSCache) (ev : event) : KVSCache :=
  match ev with
  | CallGet k => (get k c).2
  | CallSet k v => (set k v c).2
  | CallMaybeInsert k v => (maybeInsert k v c).2
  | NotifySet entries => onSet entries c
  | NotifyDelete keys => onDelete keys c
  | NotifySyncLost => onSyncLost c
  | IoResume =>
      match _pending_io c with
      | Some IoScheduled => io_loop c
      | Some IoFetchDone => _flush c
      | Some IoFlushDone => io_loop c
      | _ => c
      end
  | KvsGetResolved entries =>
      match _pending_io c with
      | Some (IoFetching rest) => fetch_resolved entries rest c
      | _ => c
      end
  | KvsSetResolved =>
      match _pending_io c with
      | Some (IoFlushing rest) => flush_next rest c
      | _ => c
      end
  | KvsRejected =>
      match _pending_io c with
      | Some (IoFetching _) | Some (IoFlushing _) => io_crashed c
      | _ => c
      end
  end.

(** The state of a cache after a history of events. *)
Definition run (c : KVSCache) (evs : list event) : KVSCache :=
  foldl step c evs.

(** The value a consumer reads through [cache.get(k).value] without
    creating anything: [None] when [k] is not tracked or holds [null]. *)
Definition value_of (k : K) (c : KVSCache) : option V :=
  e ← _entries c !! k; deref_value e c.

(** *** What the class maintains about its private fields

    [queues_tracked]: a key of the fetch queue or of the flush queue is a
    key of [_entries], and the queue holds the very object that [_entries]
    holds for it. [heap_ok]: every tracked key maps to a live entry object
    carrying that key. *)
Definition queues_tracked (c : KVSCache) : Prop :=
  map_Forall (λ k e, _entries c !! k = Some e) (_needs_fetch c) ∧
  map_Forall (λ k e, _entries c !! k = Some e) (_needs_flush c).

Definition heap_ok (c : KVSCache) : Prop :=
  map_Forall (λ k e, key <$> heap c !! e = Some k) (_entries c).

Record wf (c : KVSCache) : Prop := mk_wf {
  wf_heap : heap_ok c;
  wf_queues : queues_tracked c;
}.

(** The loop of [onSyncLost], after it has visited the part [m] of
    [_entries]: [r] is the state reached from [c]. *)
Definition sync_lost_visited (c : KVSCache) (m : gmap K ref) (r : KVSCache)
  : Prop :=
  _entries r = _entries c ∧ _needs_flush r = _needs_flush c ∧
  _pending_io r = _pending_io c ∧ _crash_count r = _crash_count c ∧
  kvs_calls r = kvs_calls c ∧
  (∀ k, _needs_fetch r !! k =
        match m !! k with Some e => Some e | None => _needs_fetch c !! k end) ∧
  (∀ e, key <$> heap r !! e = key <$> heap c !! e) ∧
  (∀ k e, m !! k = Some e → value <$> heap r !! e = (λ _, None) <$> heap c !! e) ∧
  (∀ e, (∀ k, m !! k ≠ Some e) → heap r !! e = heap c !! e).

(** The value that a response of [kvs.get] carries for [k]: the entries
    are applied in order, so it is that of the last entry for [k]. *)
Definition delivered (k : K) (entries : list (Entry K V)) : option V :=
  value <$> last (filter (λ e, key e = k) entries).

(** The event is a call of [get], [set] or [maybeInsert] on [k]. *)
Definition touches (k : K) (ev : event) : bool :=
  match ev with
  | CallGet k' | CallSet k' _ | CallMaybeInsert k' _ => bool_decide (k' = k)
  | _ => false
  end.

(** The event makes the loop body raise: a call of the wrapped store is
    rejected while the task awaits it. *)
Definition raises (c : KVSCache) (ev : event) : bool :=
  match ev, _pending_io c with
  | KvsRejected, Some (IoFetching _) | KvsRejected, Some (IoFlushing _) => true
  | _, _ => false
  end.

(** How many times the loop body raises along a history starting in [c]. *)
Fixpoint crashes (c : KVSCache) (evs : list event) : nat :=
  match evs with
  | [] => 0
  | ev :: evs' => (if raises c ev then 1 else 0) + crashes (step c ev) evs'
  end.

(** What a synchronous operation may do to the bookkeeping of the
    background task when it takes [c] to [c']: count no crash, call
    nothing, and either leave [_pending_io] alone or, through [_io], arm a
    new cycle when none is pending and fewer than three crashes were
    counted. *)
Definition only_schedules (c c' : KVSCache) : Prop :=
  _crash_count c' = _crash_count c ∧ kvs_calls c' = kvs_calls c ∧
  (_pending_io c' = _pending_io c ∨
   (_pending_io c = None ∧ _crash_count c < 3 ∧
    _pending_io c' = Some IoScheduled)).

(** Background I/O is off: no cycle is pending and none can be armed. *)
Definition io_disabled (c : KVSCache) : Prop :=
  _pending_io c = None ∧ 3 ≤ _crash_count c.

(** The call writes an entry for [k] to the wrapped store. *)
Definition writes_key (k : K) (q : kvs_call) : Prop :=
  match q with
  | KvsGet _ => False
  | KvsSet entries => k ∈ key <$> entries
  end.

(** The event is a local write to [k]: a call of [set] or [maybeInsert]. *)
Definition local_write (k : K) (ev : event) : bool :=
  match ev with
  | CallSet k' _ | CallMaybeInsert k' _ => bool_decide (k' = k)
  | _ => false
  end.

(** Nothing is queued or under way that would write [k]: [k] is not in
    the flush queue, and the batches that a running [_flush] still has to
    send hold objects of other keys only. *)
Definition no_flush_of (k : K) (c : KVSCache) : Prop :=
  wf c ∧ _needs_flush c !! k = None ∧
  ∀ rest, _pending_io c = Some (IoFlushing rest) →
          Forall (λ e, ∃ k', k' ≠ k ∧ _entries c !! k' = Some e) (concat rest).

(** What a suspended [_fetch] or [_flush] still holds in its local [map]
    are keys, and objects, of tracked keys. *)
Definition inflight_ok (c : KVSCache) : Prop :=
  match _pending_io c with
  | Some (IoFetching rest) =>
      Forall (λ k, is_Some (_entries c !! k)) (concat rest)
  | Some (IoFlushing rest) =>
      Forall (λ e, ∃ k, _entries c !! k = Some e) (concat rest)
  | _ => True
  end.

(** What the cache may send to the wrapped store in state [c]: a [get]
    of tracked keys, or a [set] of entries that each carry a tracked key
    and the value the cache shows for it. *)
Definition call_ok (c : KVSCache) (q : kvs_call) : Prop :=
  match q with
  | KvsGet keys => Forall (λ k, is_Some (_entries c !! k)) keys
  | KvsSet entries =>
      Forall (λ ent, is_Some (_entries c !! key ent) ∧
                     value_of (key ent) c = value ent) entries
  end.

(** The task has taken work off the queues and added none: from [c] to
    [c'] both queues have only lost keys, no crash was counted and the
    same keys are tracked. *)
Definition only_drains (c c' : KVSCache) : Prop :=
  _needs_fetch c' ⊆ _needs_fetch c ∧ _needs_flush c' ⊆ _needs_flush c ∧
  _crash_count c' = _crash_count c ∧ _entries c' = _entries c.

(** What the object of [k] holds after a fetch of [k] that the store
    answered with [stored] (its value for [k], if it has one), when it
    held [h] before: the store's value, or what it held when the store
    has none. *)
Definition fetched (k : K) (stored : option V)
    (h : option (Entry K (option V))) : option (Entry K (option V)) :=
  match stored with
  | Some v => Some (mkEntry k (Some v))
  | None => h
  end.

(** *** Driving the background task

    The event is a resumption of the background task, as opposed to a
    call of a public method or a notification of the wrapped store. *)
Definition task_event (ev : event) : bool :=
  match ev with
  | IoResume | KvsGetResolved _ | KvsSetResolved | KvsRejected => true
  | _ => false
  end.

(** The keys of the [kvs.get] that is awaited: those of the last call. *)
Definition requested (c : KVSCache) : list K :=
  match last (kvs_calls c) with
  | Some (KvsGet keys) => keys
  | _ => []
  end.

(** A wrapped store that answers every call: [answer keys] is what its
    [get] resolves with, its [set] resolves, and the task is resumed
    whenever it can be. [None] when no cycle is pending. *)
Definition next_task_event (answer : list K → list (Entry K V))
    (c : KVSCache) : option event :=
  match _pending_io c with
  | None => None
  | Some (IoFetching _) => Some (KvsGetResolved (answer (requested c)))
  | Some (IoFlushing _) => Some KvsSetResolved
  | Some _ => Some IoResume
  end.

(** The cycle left to itself with such a store, for at most [fuel]
    resumptions. *)
Fixpoint drain (fuel : nat) (answer : list K → list (Entry K V))
    (c : KVSCache) : KVSCache :=
  match fuel with
  | 0 => c
  | S fuel' =>
      match next_task_event answer c with
      | None => c
      | Some ev => drain fuel' answer (step c ev)
      end
  end.

End KVSCache.
End Cache.

(** * The retry loop of the client ([client.ts], lines 101-121) *)

Module Client.
Section Client.
(** [Proto.ClientMsg] and [Proto.ServiceMsg]: the loop only passes them
    along. *)
Context {Msg Resp : Type}.

(** What [_port.request(msg)] can reject with: a transport error
    ([e instanceof NanoService.NanoPortError]) or any other error, such as
    a failure reported by the service. *)
Inductive error :=
  | NanoPortError (what : string)
  | ServiceError (what : string).

Definition is_NanoPortError (e : error) : bool :=
  match e with NanoPortError _ => true | ServiceError _ => false end.

(** How a promise settles. *)
Inductive outcome :=
  | Resolved (resp : Resp)
  | Rejected (e : error).

(** What the loop does that can be observed from outside: requests on the
    port, and waits of [setTimeout] in milliseconds. *)
Inductive effect :=
  | Request (msg : Msg)
  | Sleep (ms : Z).

(** The port as the loop sees it: [port n msg] is how the [n]-th request
    made by this call (counted from 0) settles. *)
Definition port_behaviour := nat → Msg → outcome.

(** The [for (;;)] loop, entered for the request number [attempt] with
    [retries] retries left. [retries] starts at 10 and is only ever
    decremented while positive, so it is a natural number here, and the
    loop is structurally recursive on it; the wait is still computed as
    the source does, [(10 - retries) * 100]. *)
Fixpoint retry_loop (port : port_behaviour) (msg : Msg)
    (attempt : nat) (retries : nat) {struct retries} : list effect * outcome :=
  match port attempt msg with
  | Resolved resp => ([Request msg], Resolved resp)
  | Rejected e =>
      if negb (is_NanoPortError e) then ([Request msg], Rejected e)
      else
        match retries with
        | 0 => ([Request msg], Rejected e)
        | S retries' =>
            let '(effects, result) := retry_loop port msg (S attempt) retries' in
            (Request msg :: Sleep ((10 - Z.of_nat retries) * 100) :: effects,
             result)
        end
  end.

(** [_request_with_retry(msg)]: [let retries = 10]. *)
Definition _request_with_retry (port : port_behaviour) (msg : Msg)
  : list effect * outcome :=
  retry_loop port msg 0 10.

(** The number of requests made and the total time waited. *)
Definition is_request (f : effect) : bool :=
  match f with Request _ => true | Sleep _ => false end.

Definition requests (effects : list effect) : nat :=
  length (filter is_request effects).

Definition total_sleep (effects : list effect) : Z :=
  foldr (λ f acc, match f with Request _ => acc | Sleep ms => (ms + acc)%Z end)
    0%Z effects.

(** The request settles with a transport error. *)
Definition is_transport_failure (o : outcome) : bool :=
  match o with Rejected e => is_NanoPortError e | Resolved _ => false end.

(** The effects of [n] failed attempts, each followed by its wait: the
    wait after the failed attempt number [i] is [i * 100] ms. *)
Definition failed_attempts (msg : Msg) (n : nat) : list effect :=
  flat_map (λ i, [Request msg; Sleep (Z.of_nat i * 100)]) (seq 0 n).

End Client.
End Client.

(** * Listing a store page by page ([index.ts], lines 229-239) *)

Module Listing.
Section Listing.
Context {K V : Type}.

(** [genericList(getChunk)]. The generator is driven for at most [fuel]
    iterations of its [while (true)] loop; the result is what it has
    yielded, and whether it has completed ([break]) within them.
    [bound] is [K | undefined]. *)
Fixpoint genericList (fuel : nat)
    (getChunk : option K → nat → list (Entry K V)) (bound : option K)
  : list (Entry K V) * bool :=
  match fuel with
  | 0 => ([], false)
  | S fuel' =>
      let res := getChunk bound 100 in
      if decide (length res = 0) then ([], true)
      else
        let '(more, completed) :=
          genericList fuel' getChunk (key <$> last res) in
        (res ++ more, completed)
  end.

(** The keys are ordered by [key_lt]. *)
Context (key_lt : relation K) `{!RelDecision key_lt} `{EqDecision K}.

Definition entry_lt (e1 e2 : Entry K V) : Prop := key_lt (key e1) (key e2).

(** A finite backing store, as the ordered table of its entries: strictly
    ascending keys, hence no key twice. *)
Definition store_ok (store : list (Entry K V)) : Prop :=
  StronglySorted entry_lt store.

Global Instance store_ok_dec store : Decision (store_ok store).
Proof. unfold store_ok, entry_lt. apply _. Defined.

(** Modelled from the spec: the service that answers [getStartingFrom] and
    [getEndingAt] is not part of the sources at hand. In the words of the
    specification, [getStartingFrom(bound, limit)] "returns up to [limit]
    entries with key >= bound (or from the start if unset), in ascending
    key order", and [getEndingAt] is "symmetric, descending order,
    key <= bound (or from the end)". *)
Definition at_or_after (bound : option K) (e : Entry K V) : Prop :=
  match bound with None => True | Some b => b = key e ∨ key_lt b (key e) end.

Definition at_or_before (bound : option K) (e : Entry K V) : Prop :=
  match bound with None => True | Some b => b = key e ∨ key_lt (key e) b end.

Global Instance at_or_after_dec bound e : Decision (at_or_after bound e).
Proof. destruct bound; simpl; apply _. Defined.

Global Instance at_or_before_dec bound e : Decision (at_or_before bound e).
Proof. destruct bound; simpl; apply _. Defined.

Definition getStartingFrom (store : list (Entry K V))
    (bound : option K) (limit : nat) : list (Entry K V) :=
  take limit (filter (at_or_after bound) store).

Definition getEndingAt (store : list (Entry K V))
    (bound : option K) (limit : nat) : list (Entry K V) :=
  take limit (filter (at_or_before bound) (reverse store)).

(** Modelled from the spec: the same two range operations of the absent
    service, with the bound excluded (key > bound, key < bound), which is
    what a caller that passes the last key it has received, as
    [genericList] does, relies on. *)
Definition after (bound : option K) (e : Entry K V) : Prop :=
  match bound with None => True | Some b => key_lt b (key e) end.

Definition before (bound : option K) (e : Entry K V) : Prop :=
  match bound with None => True | Some b => key_lt (key e) b end.

Global Instance after_dec bound e : Decision (after bound e).
Proof. destruct bound; simpl; apply _. Defined.

Global Instance before_dec bound e : Decision (before bound e).
Proof. destruct bound; simpl; apply _. Defined.

Definition getStartingAfter (store : list (Entry K V))
    (bound : option K) (limit : nat) : list (Entry K V) :=
  take limit (filter (after bound) store).

Definition getEndingBefore (store : list (Entry K V))
    (bound : option K) (limit : nat) : list (Entry K V) :=
  take limit (filter (before bound) (reverse store)).

(** [list()] and [listReverse()] of a store handle ([client.ts], lines
    62-68), over a given pair of range operations. ([list] is called
    [list_entries] here, [list] being the type of lists.) *)
Definition list_entries (getStartingFrom : option K → nat → list (Entry K V))
    (fuel : nat) : list (Entry K V) * bool :=
  genericList fuel (λ bound limit, getStartingFrom bound limit) None.

Definition listReverse (getEndingAt : option K → nat → list (Entry K V))
    (fuel : nat) : list (Entry K V) * bool :=
  genericList fuel (λ bound limit, getEndingAt bound limit) None.

End Listing.
End Listing.

(** * The methods of the client and its connection ([client.ts]) *)

Module ClientApi.
Section ClientApi.
Context {K V : Type}.

(** Modelled from the spec: [proto.ts] is not in the sources at hand.
    Section 6 of the specification lists the messages, and [client.ts]
    builds and reads them by their [$type] and fields: the six requests,
    and the messages of the service, which the client reads as a [set]
    with entries, a [delete] with keys, or nothing ([resp?.$type],
    [if (! msg) return]). *)
Inductive ClientMsg :=
  | MsgGet (keys : list K)
  | MsgGetStartingFrom (bound : option K) (limit : nat)
  | MsgGetEndingAt (bound : option K) (limit : nat)
  | MsgSet (entries : list (Entry K V))
  | MsgDelete (keys : list K)
  | MsgDeleteAll.

Inductive ServiceMsg :=
  | SvcSet (entries : list (Entry K V))
  | SvcDelete (keys : list K)
  | SvcNone.

Definition port_of : Type := Client.port_behaviour (Msg:=ClientMsg) (Resp:=ServiceMsg).

(** [if (resp?.$type !== 'set') return []; return resp.entries;] *)
Definition entries_of (resp : ServiceMsg) : list (Entry K V) :=
  match resp with
  | SvcSet entries => entries
  | _ => []
  end.

(** The three reading methods, lines 35-60: one request through
    [_request_with_retry], then the entries of the response. *)
Definition read_with_retry (port : port_of) (msg : ClientMsg)
  : list (Client.effect (Msg:=ClientMsg))
    * Client.outcome (Resp:=list (Entry K V)) :=
  let '(effects, result) := Client._request_with_retry port msg in
  (effects,
   match result with
   | Client.Resolved resp => Client.Resolved (entries_of resp)
   | Client.Rejected e => Client.Rejected e
   end).

Definition get (port : port_of) (keys : list K) :=
  read_with_retry port (MsgGet keys).

Definition getStartingFrom (port : port_of) (bound : option K) (limit : nat) :=
  read_with_retry port (MsgGetStartingFrom bound limit).

Definition getEndingAt (port : port_of) (bound : option K) (limit : nat) :=
  read_with_retry port (MsgGetEndingAt bound limit).

(** The three writing methods, lines 70-80: one request through
    [_request_with_retry], the response is not looked at. *)
Definition write_with_retry (port : port_of) (msg : ClientMsg)
  : list (Client.effect (Msg:=ClientMsg)) * Client.outcome (Resp:=unit) :=
  let '(effects, result) := Client._request_with_retry port msg in
  (effects,
   match result with
   | Client.Resolved _ => Client.Resolved tt
   | Client.Rejected e => Client.Rejected e
   end).

Definition set (port : port_of) (entries : list (Entry K V)) :=
  write_with_retry port (MsgSet entries).

Definition delete (port : port_of) (keys : list K) :=
  write_with_retry port (MsgDelete keys).

Definition deleteAll (port : port_of) :=
  write_with_retry port MsgDeleteAll.

(** *** The connection, lines 18-33 and 82-99

    What the client sends on its three events. *)
Inductive sent :=
  | SentSet (entries : list (Entry K V))
  | SentDelete (keys : list K)
  | SentSyncLost.

(** The state of a client as far as its connection goes: [connected] is
    how many times [this.connect(this.name)] has been called, the current
    [_port] being the last one obtained; [sends] are the calls of
    [onSet.send], [onDelete.send] and [onSyncLost.send] so far, oldest
    first. *)
Record Conn := mkConn { connected : nat; sends : list sent }.

(** [_reconnect()]: a new port, with its two handlers. *)
Definition _reconnect (st : Conn) : Conn :=
  mkConn (S (connected st)) (sends st).

(** The constructor, as far as the connection goes. *)
Definition new_client : Conn := _reconnect (mkConn 0 []).

(** The [onNotify] handler of a port, lines 84-94. *)
Definition onNotify (msg : ServiceMsg) (st : Conn) : Conn :=
  match msg with
  | SvcNone => st
  | SvcDelete keys => mkConn (connected st) (sends st ++ [SentDelete keys])
  | SvcSet entries => mkConn (connected st) (sends st ++ [SentSet entries])
  end.

(** The [onDisconnect] handler of a port, lines 95-98. *)
Definition onDisconnect (st : Conn) : Conn :=
  let st := _reconnect st in
  mkConn (connected st) (sends st ++ [SentSyncLost]).

(** What a port does to the client: the handlers are closures over the
    client, the same for every port it has ever obtained. *)
Inductive port_event :=
  | Notify (msg : ServiceMsg)
  | Disconnect.

Definition port_step (st : Conn) (ev : port_event) : Conn :=
  match ev with
  | Notify msg => onNotify msg st
  | Disconnect => onDisconnect st
  end.

Definition port_run (st : Conn) (evs : list port_event) : Conn :=
  foldl port_step st evs.

(** What the client sends for one event of a port. *)
Definition forwarded (ev : port_event) : list sent :=
  match ev with
  | Notify (SvcSet entries) => [SentSet entries]
  | Notify (SvcDelete keys) => [SentDelete keys]
  | Notify SvcNone => []
  | Disconnect => [SentSyncLost]
  end.

Definition is_disconnect (ev : port_event) : bool :=
  match ev with Disconnect => true | Notify _ => false end.

End ClientApi.
End ClientApi.

(** * The containers model ([unnamed/part_001]: class [Model])

    The model keeps one reactive object for each container (contextual
    identity) of the browser, under its [cookieStoreId]. As for the
    cache, the [Map<string, Container>] is a [gmap string ref] and the
    objects live in [objects], so that an object handed out by
    [container(key)] is the one later events update. *)

Module Containers.

(** A [ContextualIdentity], as far as the model reads it: the six fields
    that [makeContainerReactive] and [whenChanged] copy. *)
Record Container := mkContainer {
  name : string;
  icon : string;
  iconUrl : string;
  color : string;
  colorCode : string;
  cookieStoreId : string;
}.

(** [listening]: whether the constructor has registered the three
    listeners (it returns before doing so on a browser without container
    support). *)
Record Model := mkModel {
  objects : list Container;
  containers : gmap string ref;
  enabled : bool;
  _event_since_load : bool;
  listening : bool;
}.

(** Field updates. *)
Definition set_objects h m :=
  mkModel h (containers m) (enabled m) (_event_since_load m) (listening m).
Definition set_containers cs m :=
  mkModel (objects m) cs (enabled m) (_event_since_load m) (listening m).
Definition set_enabled b m :=
  mkModel (objects m) (containers m) b (_event_since_load m) (listening m).
Definition set_event_since_load b m :=
  mkModel (objects m) (containers m) (enabled m) b (listening m).

(** The constructor; [supports_containers] is whether the four entry
    points of [contextualIdentities] are functions. *)
Definition new_model (supports_containers : bool) : Model :=
  if supports_containers then mkModel [] ∅ true false true
  else mkModel [] ∅ false false false.

(** [makeContainerReactive(c)]: a new object with the six fields of [c]. *)
Definition makeContainerReactive (c : Container) (m : Model) : ref * Model :=
  (length (objects m),
   set_objects
     (objects m ++ [mkContainer (name c) (icon c) (iconUrl c) (color c)
                      (colorCode c) (cookieStoreId c)]) m).

(** [container(key)]. *)
Definition container (key : string) (m : Model) : option ref :=
  containers m !! key.

(** The six assignments of [whenChanged] on the object [c]. *)
Definition assign_fields (container : Container) (o : Container) : Container :=
  let o := mkContainer (name container) (icon o) (iconUrl o) (color o)
             (colorCode o) (cookieStoreId o) in
  let o := mkContainer (name o) (icon container) (iconUrl o) (color o)
             (colorCode o) (cookieStoreId o) in
  let o := mkContainer (name o) (icon o) (iconUrl container) (color o)
             (colorCode o) (cookieStoreId o) in
  let o := mkContainer (name o) (icon o) (iconUrl o) (color container)
             (colorCode o) (cookieStoreId o) in
  let o := mkContainer (name o) (icon o) (iconUrl o) (color o)
             (colorCode container) (cookieStoreId o) in
  mkContainer (name o) (icon o) (iconUrl o) (color o)
    (colorCode o) (cookieStoreId container).

(** [whenChanged(evt)], with [container = evt.contextualIdentity]. *)
Definition whenChanged (container : Container) (m : Model) : Model :=
  let key := cookieStoreId container in
  match containers m !! key with
  | None =>
      let '(r, m) := makeContainerReactive container m in
      set_containers (<[key := r]> (containers m)) m
  | Some c => set_objects (alter (assign_fields container) c (objects m)) m
  end.

(** [whenRemoved(evt)]. *)
Definition whenRemoved (container : Container) (m : Model) : Model :=
  let key := cookieStoreId container in
  set_containers (delete key (containers m)) m.

(** The events of [contextualIdentities] that the constructor listens
    to, each with its [contextualIdentity]. *)
Inductive browser_event :=
  | OnCreated (c : Container)
  | OnUpdated (c : Container)
  | OnRemoved (c : Container).

Definition handler (ev : browser_event) (m : Model) : Model :=
  match ev with
  | OnCreated c | OnUpdated c => whenChanged c m
  | OnRemoved c => whenRemoved c m
  end.

(** One event of the browser reaching the model. [EventWiring] of
    [src/util/wiring] is not in the sources at hand; what the constructor
    passes to it is taken as its contract: a listener registered with
    [wiring.listen] runs [onFired], which sets [_event_since_load], and
    then its handler. A model that registered no listener hears nothing. *)
Definition fire (ev : browser_event) (m : Model) : Model :=
  if listening m then handler ev (set_event_since_load true m) else m.

(** How one [await contextualIdentities.query({})] ends. The elements of
    the array are [Container | null | undefined] to the code
    ([c?.cookieStoreId]). *)
Inductive query_outcome :=
  | QueryOk (loaded : list (option Container))
  | QueryFailed.

(** One pass of the loop of [reload]: the events that reach the model
    while the query is awaited, and how the query ends. *)
Definition attempt : Type := list browser_event * query_outcome.

(** The [while (this._event_since_load)] loop of [reload], over the
    attempts to come; [(None, m)] when they run out while the loop is
    still going. [loaded] is [loaded_containers]. *)
Fixpoint reload_loop (attempts : list attempt)
    (loaded : list (option Container)) (m : Model)
  : option (list (option Container)) * Model :=
  if _event_since_load m then
    match attempts with
    | [] => (None, m)
    | (during, outcome) :: rest =>
        let m := set_event_since_load false m in
        let m := foldl (λ m ev, fire ev m) m during in
        match outcome with
        | QueryOk loaded => reload_loop rest loaded m
        | QueryFailed => (Some [], set_enabled false m)
        end
    end
  else (Some loaded, m).

(** [c => c?.cookieStoreId]: the element is an object and its
    [cookieStoreId] is not the empty string. *)
Definition has_cookieStoreId (c : option Container) : option Container :=
  match c with
  | Some c => if decide (cookieStoreId c = EmptyString) then None else Some c
  | None => None
  end.

(** [.map(c => [c.cookieStoreId, this.makeContainerReactive(c)])]. *)
Definition reactive_pairs (cs : list Container) (m : Model)
  : list (string * ref) * Model :=
  foldl (λ acc c,
           let '(r, m) := makeContainerReactive c acc.2 in
           (acc.1 ++ [(cookieStoreId c, r)], m))
    ([], m) cs.

(** [new Map(pairs)]: the pairs are set in order, so the last pair of a
    key is the one that stays. *)
Definition new_Map (pairs : list (string * ref)) : gmap string ref :=
  foldl (λ map p, <[p.1 := p.2]> map) ∅ pairs.

(** The function that [reload] wraps in [backingOff] ([backingOff] of
    [src/util] is not in the sources at hand; this is one run of the
    function it is given), over the attempts to come. The result is the
    model, and whether the run has completed. *)
Definition reload (attempts : list attempt) (m : Model) : Model * bool :=
  if enabled m then
    match reload_loop attempts [] (set_event_since_load true m) with
    | (Some loaded_containers, m) =>
        let '(pairs, m) :=
          reactive_pairs (omap has_cookieStoreId loaded_containers) m in
        (set_containers (new_Map pairs) m, true)
    | (None, m) => (m, false)
    end
  else (m, true).

(** [from_browser()]. *)
Definition from_browser (supports_containers : bool) (attempts : list attempt)
  : Model * bool :=
  reload attempts (new_model supports_containers).

(** What happens to a model: an event of the browser, or a run of
    [reload]. *)
Inductive op :=
  | Fire (ev : browser_event)
  | Reload (attempts : list attempt).

Definition op_step (m : Model) (o : op) : Model :=
  match o with
  | Fire ev => fire ev m
  | Reload attempts => (reload attempts m).1
  end.

Definition run_model (m : Model) (ops : list op) : Model :=
  foldl op_step m ops.

(** The object that [container(key)] returns, as it reads now. *)
Definition container_now (key : string) (m : Model) : option Container :=
  container key m ≫= λ r, objects m !! r.

(** Every key of the map leads to an object, whose [cookieStoreId] is
    the key. *)
Definition keyed (m : Model) : Prop :=
  map_Forall (λ k r, cookieStoreId <$> objects m !! r = Some k) (containers m).

End Containers.

(** * Concrete inputs

    The histories, ports and stores on which the properties below are
    also evaluated. *)

Import Cache.
Import Client.
Import Listing.

Section Inputs.
Open Scope string_scope.

(** Events of a cache with numbers for keys and strings for values. *)
Definition cache_event := event (K:=nat) (V:=string).

(** Three cycles, each started by a [get] of a new key and ended by a
    rejected [kvs.get]. *)
Definition three_crashes : list cache_event :=
  [CallGet 1; IoResume; KvsRejected;
   CallGet 2; IoResume; KvsRejected;
   CallGet 3; IoResume; KvsRejected].

Definition after_three_crashes : list cache_event :=
  [CallSet 4 "d"; IoResume; NotifySyncLost; CallMaybeInsert 5 "e"; IoResume].

(** A port on which every request fails in transport, one on which the
    first ten do and the eleventh succeeds, and one whose service refuses
    the request. *)
Definition dead_port : port_behaviour (Msg:=string) (Resp:=string) :=
  λ n _, Rejected (NanoPortError (if decide (n = 0) then "first" else "later")).

Definition flaky_port : port_behaviour (Msg:=string) (Resp:=string) :=
  λ n _, if decide (n < 10) then Rejected (NanoPortError "down")
         else Resolved "ok".

Definition refusing_port : port_behaviour (Msg:=string) (Resp:=string) :=
  λ _ _, Rejected (ServiceError "refused").

(** The store of the specification's example: keys 1 to 250. *)
Definition store250 : list (Entry Z Z) := (λ i, mkEntry i (i * i)%Z) <$> seqZ 1 250.

Definition store1 : list (Entry Z Z) := [mkEntry 1%Z 1%Z].

(** A store that holds ["theirs"] under key 1 and nothing else, and one
    that holds nothing, as the answers of their [get]. *)
Definition store_with_1 (keys : list nat) : list (Entry nat string) :=
  if decide (1 ∈ keys) then [mkEntry 1 "theirs"] else [].

Definition empty_store (keys : list nat) : list (Entry nat string) := [].

(** A port whose first two requests fail in transport and whose third is
    answered, and one whose third is refused by the service. *)
Definition slow_port : ClientApi.port_of (K:=nat) (V:=string) :=
  λ n _, if decide (n < 2) then Rejected (NanoPortError "down")
         else Resolved (ClientApi.SvcSet [mkEntry 1 "a"]).

Definition slow_refusing_port : ClientApi.port_of (K:=nat) (V:=string) :=
  λ n _, if decide (n < 2) then Rejected (NanoPortError "down")
         else Rejected (ServiceError "refused").

(** Containers: two with ids, the first of them renamed, and one whose
    id is empty. *)
Definition personal : Containers.Container :=
  Containers.mkContainer "Personal" "fingerprint" "resource://fingerprint.svg"
    "blue" "#37adff" "firefox-container-1".

Definition personal_renamed : Containers.Container :=
  Containers.mkContainer "Home" "chill" "resource://chill.svg"
    "green" "#51cd00" "firefox-container-1".

Definition work : Containers.Container :=
  Containers.mkContainer "Work" "briefcase" "resource://briefcase.svg"
    "orange" "#ff9f00" "firefox-container-2".

Definition unfiled : Containers.Container :=
  Containers.mkContainer "Unfiled" "circle" "resource://circle.svg"
    "red" "#ff613d" "".

End Inputs.

(** * Properties of the cache *)

Section CacheFacts.
Context {K V : Type} `{Countable K}.
Implicit Types (c r : KVSCache (K:=K) (V:=V)) (k : K).
Implicit Types (e : ref) (m : gmap K ref).
Implicit Types (ev : event (K:=K) (V:=V)) (evs : list (event (K:=K) (V:=V))).

Lemma wf_entries c k e :
  wf c → _entries c !! k = Some e → ∃ v, heap c !! e = Some (mkEntry k v).
Proof.
  intros [Hh _] Hk. specialize (Hh k e Hk). simpl in Hh.
  destruct (heap c !! e) as [[k' v]|]; simplify_eq/=. eauto.
Qed.

Lemma wf_fetch c k e :
  wf c → _needs_fetch c !! k = Some e → _entries c !! k = Some e.
Proof. intros [_ [Hf _]]. apply Hf. Qed.

Lemma wf_flush c k e :
  wf c → _needs_flush c !! k = Some e → _entries c !! k = Some e.
Proof. intros [_ [_ Hfl]]. apply Hfl. Qed.

(** A queue obtained from a tracked one by [Map.delete], by [Map.set] of
    a tracked object, or replaced by [new Map()], is tracked. *)
Lemma tracked_delete (m entries : gmap K ref) k0 :
  map_Forall (λ k e, entries !! k = Some e) m →
  map_Forall (λ k e, entries !! k = Some e) (delete k0 m).
Proof.
  intros Hm k e. rewrite lookup_delete. case_decide; [done|]. apply Hm.
Qed.

Lemma tracked_insert (m entries : gmap K ref) k0 e0 :
  entries !! k0 = Some e0 →
  map_Forall (λ k e, entries !! k = Some e) m →
  map_Forall (λ k e, entries !! k = Some e) (<[k0 := e0]> m).
Proof.
  intros Hk0 Hm k e. rewrite lookup_insert. case_decide; [|apply Hm].
  intros [= <-]. by subst.
Qed.

Lemma tracked_empty (entries : gmap K ref) :
  map_Forall (λ k e, entries !! k = Some e) (∅ : gmap K ref).
Proof. apply map_Forall_empty. Qed.

(** [_io] only ever touches [_pending_io]. *)
Lemma io_fields c :
  heap (_io c) = heap c ∧ _entries (_io c) = _entries c ∧
  _needs_flush (_io c) = _needs_flush c ∧
  _needs_fetch (_io c) = _needs_fetch c ∧
  _crash_count (_io c) = _crash_count c ∧ kvs_calls (_io c) = kvs_calls c.
Proof.
  unfold _io. destruct (_pending_io c); [done|]. by case_decide.
Qed.

Lemma queues_tracked_io c : queues_tracked c → queues_tracked (_io c).
Proof.
  destruct (io_fields c) as (_ & He & Hfl & Hf & _).
  unfold queues_tracked. by rewrite He, Hfl, Hf.
Qed.

Lemma heap_ok_io c : heap_ok c → heap_ok (_io c).
Proof.
  destruct (io_fields c) as (Hh & He & _).
  unfold heap_ok. by rewrite He, Hh.
Qed.

(** Assigning a value keeps every object's key. *)
Lemma assign_value_lookup e v c e' :
  heap (assign_value e v c) !! e' =
  if decide (e = e') then (λ ent, mkEntry (key ent) v) <$> heap c !! e'
  else heap c !! e'.
Proof.
  simpl. rewrite list_lookup_alter. by repeat case_decide; subst.
Qed.

Lemma assign_value_key e v c e' :
  key <$> heap (assign_value e v c) !! e' = key <$> heap c !! e'.
Proof.
  rewrite assign_value_lookup. case_decide; [|done].
  by destruct (heap c !! e').
Qed.

Lemma heap_ok_assign_value e v c : heap_ok c → heap_ok (assign_value e v c).
Proof.
  intros Hh k e' Hk. simpl. rewrite <-(Hh k e' Hk). apply assign_value_key.
Qed.

Lemma assign_value_tracked k e v c :
  heap_ok c → _entries c !! k = Some e →
  heap (assign_value e v c) !! e = Some (mkEntry k v).
Proof.
  intros Hh Hk. specialize (Hh k e Hk). simpl in Hh.
  rewrite assign_value_lookup, decide_True by done.
  destruct (heap c !! e) as [[k' v']|]; by simplify_eq/=.
Qed.

(** *** [get] *)

(** [get] on a key that is not tracked yet: one new object, registered in
    [_entries] and in the fetch queue. *)
Lemma get_fresh k c :
  _entries c !! k = None →
  get k c =
  (length (heap c),
   _io (mkCache (heap c ++ [mkEntry k None])
          (<[k := length (heap c)]> (_entries c)) (_needs_flush c)
          (<[k := length (heap c)]> (_needs_fetch c))
          (_pending_io c) (_crash_count c) (kvs_calls c))).
Proof. intros Hk. unfold get. by rewrite Hk. Qed.

Lemma get_tracked k e c : _entries c !! k = Some e → get k c = (e, c).
Proof. intros Hk. unfold get. by rewrite Hk. Qed.

(** The key is tracked afterwards, by the object that [get] returns. *)
Lemma get_returns_tracked k c : _entries (get k c).2 !! k = Some (get k c).1.
Proof.
  destruct (_entries c !! k) as [e0|] eqn:Hk.
  { by rewrite (get_tracked _ _ _ Hk). }
  rewrite (get_fresh _ _ Hk). simpl.
  match goal with |- context [_io ?c0] => set (c1 := c0) end.
  destruct (io_fields c1) as (_ & -> & _). simpl. apply lookup_insert_eq.
Qed.

Lemma queues_tracked_get k c : queues_tracked c → queues_tracked (get k c).2.
Proof.
  intros [Hf Hfl]. destruct (_entries c !! k) as [e0|] eqn:Hk.
  { by rewrite (get_tracked _ _ _ Hk). }
  rewrite (get_fresh _ _ Hk). simpl. apply queues_tracked_io.
  split; simpl.
  - intros k' e'. rewrite !lookup_insert. case_decide; [done|]. apply Hf.
  - intros k' e' Hk'. simpl. rewrite lookup_insert. case_decide.
    + subst. apply Hfl in Hk'. simpl in Hk'. congruence.
    + by apply Hfl.
Qed.

Lemma heap_ok_get k c : heap_ok c → heap_ok (get k c).2.
Proof.
  intros Hh. destruct (_entries c !! k) as [e0|] eqn:Hk.
  { by rewrite (get_tracked _ _ _ Hk). }
  rewrite (get_fresh _ _ Hk). simpl. apply heap_ok_io.
  intros k' e'. simpl. rewrite lookup_insert. case_decide.
  - intros [= <-]. subst. rewrite lookup_app_r by lia.
    by rewrite Nat.sub_diag.
  - intros Hk'. specialize (Hh k' e' Hk'). simpl in Hh.
    destruct (heap c !! e') as [ent|] eqn:Hent; [|done].
    by rewrite (lookup_app_l_Some _ _ _ _ Hent).
Qed.

(** [get] changes nothing but what it creates for a new key. *)
Lemma get_frame k c :
  (∀ k', k' ≠ k → _entries (get k c).2 !! k' = _entries c !! k') ∧
  (∀ e' ent, heap c !! e' = Some ent → heap (get k c).2 !! e' = Some ent) ∧
  _needs_flush (get k c).2 = _needs_flush c ∧
  _crash_count (get k c).2 = _crash_count c ∧
  kvs_calls (get k c).2 = kvs_calls c.
Proof.
  destruct (_entries c !! k) as [e0|] eqn:Hk.
  { by rewrite (get_tracked _ _ _ Hk). }
  rewrite (get_fresh _ _ Hk). simpl.
  match goal with |- context [_io ?c0] => set (c1 := c0) end.
  destruct (io_fields c1) as (-> & -> & -> & _ & -> & ->).
  subst c1. simpl. split_and!; try done.
  - intros k' Hne. by rewrite lookup_insert_ne.
  - intros e' ent Hent. by apply lookup_app_l_Some.
Qed.

(** The object of a key that was not tracked is created unset. *)
Lemma get_fresh_unset k c :
  _entries c !! k = None →
  heap (get k c).2 !! (get k c).1 = Some (mkEntry k None) ∧
  _needs_fetch (get k c).2 !! k = Some (get k c).1.
Proof.
  intros Hk. rewrite (get_fresh _ _ Hk). simpl.
  match goal with |- context [_io ?c0] => set (c1 := c0) end.
  destruct (io_fields c1) as (-> & _ & _ & -> & _). subst c1. simpl.
  split; [|apply lookup_insert_eq].
  rewrite lookup_app_r by lia. by rewrite Nat.sub_diag.
Qed.

(** *** [set], [maybeInsert], [_update] and the listeners *)

Lemma queues_tracked_set k v c : queues_tracked c → queues_tracked (set k v c).2.
Proof.
  intros Hq. unfold set.
  pose proof (queues_tracked_get k c Hq) as [Hf1 Hfl1].
  pose proof (get_returns_tracked k c) as Hk1.
  destruct (get k c) as [ent c1]. simpl in *.
  apply queues_tracked_io. split; simpl.
  - by apply tracked_delete.
  - by apply tracked_insert.
Qed.

Lemma heap_ok_set k v c : heap_ok c → heap_ok (set k v c).2.
Proof.
  intros Hh. unfold set. pose proof (heap_ok_get k c Hh) as Hh1.
  destruct (get k c) as [ent c1]. simpl in *.
  apply heap_ok_io. by apply (heap_ok_assign_value ent (Some v)).
Qed.

Lemma queues_tracked_maybeInsert k v c :
  queues_tracked c → queues_tracked (maybeInsert k v c).2.
Proof.
  intros Hq. unfold maybeInsert.
  pose proof (queues_tracked_get k c Hq) as Hq1.
  pose proof (get_returns_tracked k c) as Hk1.
  destruct (get k c) as [ent c1]. simpl in *.
  destruct (deref_value ent c1); [done|]. simpl. destruct Hq1 as [Hf1 Hfl1].
  apply queues_tracked_io. split; simpl; by apply tracked_insert.
Qed.

Lemma heap_ok_maybeInsert k v c : heap_ok c → heap_ok (maybeInsert k v c).2.
Proof.
  intros Hh. unfold maybeInsert. pose proof (heap_ok_get k c Hh) as Hh1.
  destruct (get k c) as [ent c1]. simpl in *.
  destruct (deref_value ent c1); [done|]. simpl.
  apply heap_ok_io. by apply (heap_ok_assign_value ent (Some v)).
Qed.

Lemma queues_tracked_update k v c : queues_tracked c → queues_tracked (_update k v c).
Proof.
  intros [Hf Hfl]. unfold _update. destruct (_entries c !! k); [|done].
  split; simpl; by apply tracked_delete.
Qed.

Lemma heap_ok_update k v c : heap_ok c → heap_ok (_update k v c).
Proof.
  intros Hh. unfold _update. destruct (_entries c !! k); [|done].
  by apply (heap_ok_assign_value _ v).
Qed.

Lemma queues_tracked_onSet entries c : queues_tracked c → queues_tracked (onSet entries c).
Proof.
  unfold onSet. revert c.
  induction entries as [|e es IH]; intros c Hq; simpl; [done|].
  by apply IH, queues_tracked_update.
Qed.

Lemma heap_ok_onSet entries c : heap_ok c → heap_ok (onSet entries c).
Proof.
  unfold onSet. revert c.
  induction entries as [|e es IH]; intros c Hq; simpl; [done|].
  by apply IH, heap_ok_update.
Qed.

Lemma queues_tracked_onDelete keys c : queues_tracked c → queues_tracked (onDelete keys c).
Proof.
  unfold onDelete. revert c.
  induction keys as [|k ks IH]; intros c Hq; simpl; [done|].
  by apply IH, queues_tracked_update.
Qed.

Lemma heap_ok_onDelete keys c : heap_ok c → heap_ok (onDelete keys c).
Proof.
  unfold onDelete. revert c.
  induction keys as [|k ks IH]; intros c Hq; simpl; [done|].
  by apply IH, heap_ok_update.
Qed.

Lemma sync_lost_fold c m :
  sync_lost_visited c m (map_fold sync_lost_entry c m).
Proof.
  apply (map_fold_weak_ind (λ r m, sync_lost_visited c m r)
           sync_lost_entry c);
    unfold sync_lost_visited.
  { split_and!; try done; intros k; rewrite ?lookup_empty; done. }
  clear m. intros i x m r Hi IH.
  destruct IH as (He & Hfl & Hp & Hcc & Hcalls & Hf & Hkey & Hin & Hout).
  unfold sync_lost_entry. simpl. split_and!; try done.
  - intros k. rewrite !lookup_insert. case_decide; [done|]. apply Hf.
  - intros e. pose proof (assign_value_key x None r e) as Hl.
    simpl in Hl. by rewrite Hl.
  - intros k e Hk. pose proof (assign_value_lookup x None r e) as Hl.
    simpl in Hl. rewrite Hl. case_decide as Hxe.
    + specialize (Hkey e).
      destruct (heap r !! e), (heap c !! e); by simplify_eq/=.
    + apply (Hin k). rewrite lookup_insert in Hk. case_decide; [|done].
      congruence.
  - intros e He'. pose proof (assign_value_lookup x None r e) as Hl.
    simpl in Hl. rewrite Hl. rewrite decide_False.
    + apply Hout. intros k Hk. apply (He' k).
      rewrite lookup_insert_ne; [done|]. intros ->. congruence.
    + intros ->. apply (He' i). by rewrite lookup_insert_eq.
Qed.

Lemma queues_tracked_onSyncLost c : queues_tracked c → queues_tracked (onSyncLost c).
Proof.
  intros [Hf Hfl]. apply queues_tracked_io.
  destruct (sync_lost_fold c (_entries c))
    as (He & Hfl' & _ & _ & _ & Hf' & _).
  split; rewrite He; [|by rewrite Hfl'].
  intros k e. rewrite Hf'. destruct (_entries c !! k) eqn:Hk; [done|].
  intros Hke. apply Hf in Hke. simpl in Hke. congruence.
Qed.

Lemma heap_ok_onSyncLost c : heap_ok c → heap_ok (onSyncLost c).
Proof.
  intros Hh. apply heap_ok_io.
  destruct (sync_lost_fold c (_entries c)) as (He & _ & _ & _ & _ & _ & Hkey & _).
  unfold heap_ok. rewrite He. intros k e Hk. simpl. rewrite Hkey.
  apply (Hh k e Hk).
Qed.

(** *** The background task *)

Lemma queues_tracked_fetch_next batches c :
  queues_tracked c → queues_tracked (fetch_next batches c).
Proof. by destruct batches. Qed.

Lemma queues_tracked_flush_next batches c :
  queues_tracked c → queues_tracked (flush_next batches c).
Proof. by destruct batches. Qed.

Lemma heap_ok_fetch_next batches c : heap_ok c → heap_ok (fetch_next batches c).
Proof. by destruct batches. Qed.

Lemma heap_ok_flush_next batches c : heap_ok c → heap_ok (flush_next batches c).
Proof. by destruct batches. Qed.

Lemma queues_tracked_fetch c : queues_tracked c → queues_tracked (_fetch c).
Proof.
  intros [Hf Hfl]. apply queues_tracked_fetch_next.
  split; simpl; [apply tracked_empty|done].
Qed.

Lemma queues_tracked_flush c : queues_tracked c → queues_tracked (_flush c).
Proof.
  intros [Hf Hfl]. apply queues_tracked_flush_next.
  split; simpl; [done|apply tracked_empty].
Qed.

Lemma queues_tracked_io_loop c : queues_tracked c → queues_tracked (io_loop c).
Proof.
  intros Hq. unfold io_loop. case_decide; [|done].
  by apply queues_tracked_fetch.
Qed.

Lemma heap_ok_io_loop c : heap_ok c → heap_ok (io_loop c).
Proof.
  intros Hq. unfold io_loop. case_decide; [|done].
  by apply heap_ok_fetch_next.
Qed.

Lemma queues_tracked_step c ev : queues_tracked c → queues_tracked (step c ev).
Proof.
  intros Hq. destruct ev; simpl.
  - by apply queues_tracked_get.
  - by apply queues_tracked_set.
  - by apply queues_tracked_maybeInsert.
  - by apply queues_tracked_onSet.
  - by apply queues_tracked_onDelete.
  - by apply queues_tracked_onSyncLost.
  - destruct (_pending_io c) as [[]|];
      auto using queues_tracked_io_loop, queues_tracked_flush.
  - destruct (_pending_io c) as [[]|]; auto.
    apply queues_tracked_fetch_next. by apply (queues_tracked_onSet entries c).
  - destruct (_pending_io c) as [[]|]; auto using queues_tracked_flush_next.
  - by destruct (_pending_io c) as [[]|].
Qed.

Lemma heap_ok_step c ev : heap_ok c → heap_ok (step c ev).
Proof.
  intros Hq. destruct ev; simpl.
  - by apply heap_ok_get.
  - by apply heap_ok_set.
  - by apply heap_ok_maybeInsert.
  - by apply heap_ok_onSet.
  - by apply heap_ok_onDelete.
  - by apply heap_ok_onSyncLost.
  - destruct (_pending_io c) as [[]|]; auto using heap_ok_io_loop.
    by apply heap_ok_flush_next.
  - destruct (_pending_io c) as [[]|]; auto.
    apply heap_ok_fetch_next. by apply (heap_ok_onSet entries c).
  - destruct (_pending_io c) as [[]|]; auto using heap_ok_flush_next.
  - by destruct (_pending_io c) as [[]|].
Qed.

Lemma wf_new : wf (new_cache (K:=K) (V:=V)).
Proof. split; [|split]; apply map_Forall_empty. Qed.

Lemma wf_step c ev : wf c → wf (step c ev).
Proof.
  intros [Hh Hq]. split; [by apply heap_ok_step|by apply queues_tracked_step].
Qed.

(** Every state a cache can reach is well formed. *)
Lemma wf_run c evs : wf c → wf (run c evs).
Proof.
  unfold run. revert c.
  induction evs as [|ev evs IH]; intros c Hwf; simpl; [done|].
  by apply IH, wf_step.
Qed.

Lemma wf_reachable evs : wf (run new_cache evs).
Proof. apply wf_run, wf_new. Qed.

(** *** Effects of the operations on one key *)

(** Distinct tracked keys have distinct objects. *)
Lemma tracked_inj c k k' e :
  heap_ok c → _entries c !! k = Some e → _entries c !! k' = Some e → k = k'.
Proof.
  intros Hh Hk Hk'. pose proof (Hh k e Hk) as H1.
  pose proof (Hh k' e Hk') as H2. simpl in *. congruence.
Qed.

Lemma set_spec k v c :
  heap_ok c →
  _entries (set k v c).2 !! k = Some (set k v c).1 ∧
  heap (set k v c).2 !! (set k v c).1 = Some (mkEntry k (Some v)) ∧
  _needs_flush (set k v c).2 !! k = Some (set k v c).1 ∧
  _needs_fetch (set k v c).2 !! k = None ∧
  _crash_count (set k v c).2 = _crash_count c ∧
  kvs_calls (set k v c).2 = kvs_calls c.
Proof.
  intros Hh. unfold set.
  pose proof (heap_ok_get k c Hh) as Hh1.
  pose proof (get_returns_tracked k c) as Hk1.
  destruct (get_frame k c) as (_ & _ & _ & Hcc & Hcalls).
  destruct (get k c) as [ent c1]. simpl in *.
  match goal with |- context [_io ?c0] => set (c2 := c0) end.
  destruct (io_fields c2) as (-> & -> & -> & -> & -> & ->).
  subst c2. simpl. split_and!; try done.
  - by apply (assign_value_tracked k ent (Some v) c1).
  - apply lookup_insert_eq.
  - apply lookup_delete_eq.
Qed.

Lemma maybeInsert_spec k v c :
  heap_ok c → value_of k c = None →
  _entries (maybeInsert k v c).2 !! k = Some (maybeInsert k v c).1 ∧
  heap (maybeInsert k v c).2 !! (maybeInsert k v c).1
    = Some (mkEntry k (Some v)) ∧
  _needs_fetch (maybeInsert k v c).2 !! k = Some (maybeInsert k v c).1 ∧
  _needs_flush (maybeInsert k v c).2 !! k = Some (maybeInsert k v c).1 ∧
  kvs_calls (maybeInsert k v c).2 = kvs_calls c.
Proof.
  intros Hh Hunset. unfold maybeInsert.
  pose proof (heap_ok_get k c Hh) as Hh1.
  pose proof (get_returns_tracked k c) as Hk1.
  destruct (get_frame k c) as (_ & _ & _ & _ & Hcalls).
  assert (Hnull : deref_value (get k c).1 (get k c).2 = None).
  { destruct (_entries c !! k) as [e0|] eqn:Hk.
    - rewrite (get_tracked _ _ _ Hk). simpl.
      unfold value_of in Hunset. by rewrite Hk in Hunset.
    - unfold deref_value.
      by destruct (get_fresh_unset k c Hk) as [-> _]. }
  destruct (get k c) as [ent c1]. simpl in *. rewrite Hnull. simpl.
  match goal with |- context [_io ?c0] => set (c2 := c0) end.
  destruct (io_fields c2) as (-> & -> & -> & -> & _ & ->).
  subst c2. simpl. split_and!; try done.
  - by apply (assign_value_tracked k ent (Some v) c1).
  - apply lookup_insert_eq.
  - apply lookup_insert_eq.
Qed.

(** [_update] on a tracked key. *)
Lemma update_tracked k e v c :
  heap_ok c → _entries c !! k = Some e →
  _entries (_update k v c) = _entries c ∧
  heap (_update k v c) !! e = Some (mkEntry k v) ∧
  _needs_fetch (_update k v c) !! k = None ∧
  _needs_flush (_update k v c) !! k = None.
Proof.
  intros Hh Hk. unfold _update. rewrite Hk. simpl. split_and!; try done.
  - by apply (assign_value_tracked k e v c).
  - apply lookup_delete_eq.
  - apply lookup_delete_eq.
Qed.

(** [_update] on a key nobody asked for: nothing happens, line 167. *)
Lemma update_untracked k v c : _entries c !! k = None → _update k v c = c.
Proof. intros Hk. unfold _update. by rewrite Hk. Qed.

(** [_update] never changes which keys are tracked, nor the crash count,
    the pending cycle or the calls made. *)
Lemma update_fields k v c :
  _entries (_update k v c) = _entries c ∧
  _pending_io (_update k v c) = _pending_io c ∧
  _crash_count (_update k v c) = _crash_count c ∧
  kvs_calls (_update k v c) = kvs_calls c.
Proof. unfold _update. by destruct (_entries c !! k). Qed.

(** [_update] of one key leaves the object and the queue slots of every
    other key alone. *)
Lemma update_other k' v c k e :
  heap_ok c → k' ≠ k → _entries c !! k = Some e →
  heap (_update k' v c) !! e = heap c !! e ∧
  _needs_fetch (_update k' v c) !! k = _needs_fetch c !! k ∧
  _needs_flush (_update k' v c) !! k = _needs_flush c !! k.
Proof.
  intros Hh Hne Hk. unfold _update.
  destruct (_entries c !! k') as [e'|] eqn:Hk'; [|done]. simpl.
  split_and!.
  - apply list_lookup_alter_ne. intros ->.
    by apply Hne, (tracked_inj c k' k e).
  - by apply lookup_delete_ne.
  - by apply lookup_delete_ne.
Qed.

(** *** The claims about the synchronous operations *)

(** C8. For a well-formed cache, right after [set k v] returns, and before
    any background I/O has run (no call has been made to the wrapped
    store), [get k] returns the very entry that [set] returned, without
    changing the cache, and that entry holds [v]; the entry is in the flush
    queue and [k] is not in the fetch queue. *)
Theorem set_visible_immediately c k (v : V) :
  wf c →
  get k (set k v c).2 = ((set k v c).1, (set k v c).2) ∧
  heap (set k v c).2 !! (set k v c).1 = Some (mkEntry k (Some v)) ∧
  value_of k (set k v c).2 = Some v ∧
  _needs_flush (set k v c).2 !! k = Some (set k v c).1 ∧
  _needs_fetch (set k v c).2 !! k = None ∧
  kvs_calls (set k v c).2 = kvs_calls c.
Proof.
  intros [Hh _].
  destruct (set_spec k v c Hh) as (Hk & Hv & Hfl & Hf & _ & Hcalls).
  split_and!; try done.
  - by apply get_tracked.
  - unfold value_of, deref_value. rewrite Hk. simpl. by rewrite Hv.
Qed.

(** C5. For a key [k] tracked by a well-formed cache, the [onDelete]
    notification for [[k]] leaves [k] tracked by the same object, sets that
    object's value to null and removes [k] from the fetch queue and from
    the flush queue, whatever these queues held for [k]. *)
Theorem onDelete_clears_tracked c k e :
  wf c → _entries c !! k = Some e →
  _entries (onDelete [k] c) !! k = Some e ∧
  heap (onDelete [k] c) !! e = Some (mkEntry k None) ∧
  value_of k (onDelete [k] c) = None ∧
  _needs_fetch (onDelete [k] c) !! k = None ∧
  _needs_flush (onDelete [k] c) !! k = None.
Proof.
  intros [Hh _] Hk. unfold onDelete. simpl.
  destruct (update_tracked k e None c Hh Hk) as (He & Hv & Hf & Hfl).
  split_and!; try done.
  - by rewrite He.
  - unfold value_of, deref_value. rewrite He, Hk. simpl. by rewrite Hv.
Qed.

(** C6. On a well-formed cache, [onSyncLost] leaves [_entries] as it is,
    and for every tracked key sets the value of its object to null and
    puts that object in the fetch queue under the key. *)
Theorem onSyncLost_refetches_tracked c :
  wf c →
  _entries (onSyncLost c) = _entries c ∧
  map_Forall (λ k e, heap (onSyncLost c) !! e = Some (mkEntry k None) ∧
                     _needs_fetch (onSyncLost c) !! k = Some e)
             (_entries c).
Proof.
  intros [Hh _]. unfold onSyncLost.
  destruct (sync_lost_fold c (_entries c))
    as (He & _ & _ & _ & _ & Hf & Hkey & Hin & _).
  destruct (io_fields (map_fold sync_lost_entry c (_entries c)))
    as (-> & -> & _ & -> & _).
  split; [done|]. intros k e Hk. simpl. split.
  - specialize (Hin k e Hk). specialize (Hkey e).
    specialize (Hh k e Hk). simpl in Hh.
    destruct (heap c !! e) as [ent|]; [|done].
    destruct (heap (map_fold sync_lost_entry c (_entries c)) !! e)
      as [[k' v']|]; by simplify_eq/=.
  - by rewrite Hf, Hk.
Qed.

(** C9. [queues_tracked] (every key of the fetch queue or of the flush
    queue is a key of [_entries], and the queue holds the very object that
    [_entries] holds for it) is preserved by every operation of the cache:
    [get], [set], [maybeInsert], the [onSet], [onDelete] and [onSyncLost]
    listeners, and (through [step]) every segment of the background task.
    It holds of a new cache ([wf_new]), hence of every state a cache can
    reach ([wf_reachable]). *)
Theorem queues_tracked_preserved c :
  queues_tracked c →
  (∀ k, queues_tracked (get k c).2) ∧
  (∀ k (v : V), queues_tracked (set k v c).2) ∧
  (∀ k (v : V), queues_tracked (maybeInsert k v c).2) ∧
  (∀ entries, queues_tracked (onSet entries c)) ∧
  (∀ keys, queues_tracked (onDelete keys c)) ∧
  queues_tracked (onSyncLost c) ∧
  (∀ ev, queues_tracked (step c ev)).
Proof.
  intros Hq. split_and!; intros.
  - by apply queues_tracked_get.
  - by apply queues_tracked_set.
  - by apply queues_tracked_maybeInsert.
  - by apply queues_tracked_onSet.
  - by apply queues_tracked_onDelete.
  - by apply queues_tracked_onSyncLost.
  - by apply queues_tracked_step.
Qed.

(** The listeners never change which keys are tracked. *)
Lemma onSet_entries entries c : _entries (onSet entries c) = _entries c.
Proof.
  unfold onSet. revert c. induction entries as [|x xs IH]; intros c; [done|].
  simpl. rewrite IH. by destruct (update_fields (key x) (Some (value x)) c).
Qed.

Lemma onDelete_entries keys c : _entries (onDelete keys c) = _entries c.
Proof.
  unfold onDelete. revert c. induction keys as [|x xs IH]; intros c; [done|].
  simpl. rewrite IH. by destruct (update_fields x None c).
Qed.

Lemma set_entries_get k (v : V) c : _entries (set k v c).2 = _entries (get k c).2.
Proof.
  unfold set. destruct (get k c) as [ent c1]. simpl.
  match goal with |- context [_io ?c0] => set (c2 := c0) end.
  by destruct (io_fields c2) as (_ & -> & _).
Qed.

Lemma maybeInsert_entries_get k (v : V) c :
  _entries (maybeInsert k v c).2 = _entries (get k c).2.
Proof.
  unfold maybeInsert. destruct (get k c) as [ent c1]. simpl.
  destruct (deref_value ent c1); [done|]. simpl.
  match goal with |- context [_io ?c0] => set (c2 := c0) end.
  by destruct (io_fields c2) as (_ & -> & _).
Qed.

Lemma fetch_next_entries batches c : _entries (fetch_next batches c) = _entries c.
Proof. by destruct batches. Qed.

Lemma flush_next_entries batches c : _entries (flush_next batches c) = _entries c.
Proof. by destruct batches. Qed.

Lemma io_loop_entries c : _entries (io_loop c) = _entries c.
Proof.
  unfold io_loop. case_decide; [|done]. unfold _fetch.
  by rewrite fetch_next_entries.
Qed.

(** Only a call of [get], [set] or [maybeInsert] on [k] can make [k]
    tracked. *)
Lemma step_entries_untouched c ev k :
  touches k ev = false → _entries (step c ev) !! k = _entries c !! k.
Proof.
  intros Ht. destruct ev; simpl in *.
  - apply get_frame. intros ->. by rewrite bool_decide_true in Ht.
  - rewrite set_entries_get. apply get_frame. intros ->.
    by rewrite bool_decide_true in Ht.
  - rewrite maybeInsert_entries_get. apply get_frame. intros ->.
    by rewrite bool_decide_true in Ht.
  - by rewrite onSet_entries.
  - by rewrite onDelete_entries.
  - unfold onSyncLost.
    destruct (io_fields (map_fold sync_lost_entry c (_entries c)))
      as (_ & -> & _).
    by destruct (sync_lost_fold c (_entries c)) as (-> & _).
  - destruct (_pending_io c) as [[]|]; try done.
    + by rewrite io_loop_entries.
    + unfold _flush. by rewrite flush_next_entries.
    + by rewrite io_loop_entries.
  - destruct (_pending_io c) as [[]|]; try done.
    unfold fetch_resolved. rewrite fetch_next_entries.
    pose proof (onSet_entries entries c) as He. unfold onSet in He.
    by rewrite He.
  - destruct (_pending_io c) as [[]|]; try done.
    by rewrite flush_next_entries.
  - by destruct (_pending_io c) as [[]|].
Qed.

Lemma run_entries_untouched c evs k :
  forallb (λ ev, negb (touches k ev)) evs = true →
  _entries (run c evs) !! k = _entries c !! k.
Proof.
  unfold run. revert c. induction evs as [|ev evs IH]; intros c; [done|].
  simpl. intros [Hev Hevs]%andb_prop. rewrite IH by done.
  apply step_entries_untouched. by destruct (touches k ev).
Qed.

(** C10. In a cache whose history contains no call of [get], [set] or
    [maybeInsert] on [k], the key [k] is not tracked, and an [onDelete] or
    [onSet] notification for [k] leaves the whole cache state as it is. *)
Theorem notification_for_untracked_key evs k (v : V) :
  forallb (λ ev, negb (touches k ev)) evs = true →
  _entries (run new_cache evs) !! k = None ∧
  onDelete [k] (run new_cache evs) = run new_cache evs ∧
  onSet [mkEntry k v] (run new_cache evs) = run new_cache evs.
Proof.
  intros Hevs.
  assert (Hk : _entries (run new_cache evs) !! k = None).
  { rewrite run_entries_untouched by done. apply lookup_empty. }
  split_and!; [done|..]; simpl; by apply update_untracked.
Qed.

(** *** Crash containment *)

Lemma only_schedules_refl c : only_schedules c c.
Proof. unfold only_schedules. auto. Qed.

Lemma only_schedules_trans c1 c2 c3 :
  only_schedules c1 c2 → only_schedules c2 c3 → only_schedules c1 c3.
Proof.
  unfold only_schedules. intros (Hc1 & Hk1 & Hp1) (Hc2 & Hk2 & Hp2).
  rewrite Hc2, Hc1, Hk2, Hk1. split_and!; try done.
  destruct Hp1 as [Hp1|(? & ? & Hp1)], Hp2 as [Hp2|(Hn & ? & Hp2)].
  - left. congruence.
  - right. rewrite <-Hp1, <-Hc1. auto.
  - right. rewrite Hp2. auto.
  - congruence.
Qed.

Lemma only_schedules_io c : only_schedules c (_io c).
Proof.
  unfold only_schedules, _io. destruct (_pending_io c) eqn:Hp; [by auto|].
  case_decide; simpl; [by auto|]. split_and!; try done. right.
  split_and!; [done|lia|done].
Qed.

(** A change of the entry objects, of [_entries] or of the queues is not
    a change of the task's bookkeeping. *)
Lemma only_schedules_fields c c' :
  _crash_count c' = _crash_count c → kvs_calls c' = kvs_calls c →
  _pending_io c' = _pending_io c → only_schedules c c'.
Proof. unfold only_schedules. auto. Qed.

Lemma only_schedules_get k c : only_schedules c (get k c).2.
Proof.
  destruct (_entries c !! k) as [e0|] eqn:Hk.
  { rewrite (get_tracked _ _ _ Hk). apply only_schedules_refl. }
  rewrite (get_fresh _ _ Hk). simpl.
  eapply only_schedules_trans; [|apply only_schedules_io].
  by apply only_schedules_fields.
Qed.

Lemma only_schedules_set k (v : V) c : only_schedules c (set k v c).2.
Proof.
  unfold set. pose proof (only_schedules_get k c) as Hg.
  destruct (get k c) as [ent c1]. simpl in *.
  eapply only_schedules_trans; [done|].
  eapply only_schedules_trans; [|apply only_schedules_io].
  by apply only_schedules_fields.
Qed.

Lemma only_schedules_maybeInsert k (v : V) c :
  only_schedules c (maybeInsert k v c).2.
Proof.
  unfold maybeInsert. pose proof (only_schedules_get k c) as Hg.
  destruct (get k c) as [ent c1]. simpl in *.
  destruct (deref_value ent c1); [done|]. simpl.
  eapply only_schedules_trans; [done|].
  eapply only_schedules_trans; [|apply only_schedules_io].
  by apply only_schedules_fields.
Qed.

Lemma only_schedules_update k (v : option V) c : only_schedules c (_update k v c).
Proof.
  destruct (update_fields k v c) as (_ & Hp & Hcc & Hcalls).
  by apply only_schedules_fields.
Qed.

Lemma only_schedules_onSet entries c : only_schedules c (onSet entries c).
Proof.
  unfold onSet. revert c.
  induction entries as [|x xs IH]; intros c; [apply only_schedules_refl|].
  simpl. eapply only_schedules_trans; [|apply IH].
  apply only_schedules_update.
Qed.

Lemma only_schedules_onDelete keys c : only_schedules c (onDelete keys c).
Proof.
  unfold onDelete. revert c.
  induction keys as [|x xs IH]; intros c; [apply only_schedules_refl|].
  simpl. eapply only_schedules_trans; [|apply IH].
  apply only_schedules_update.
Qed.

Lemma only_schedules_onSyncLost c : only_schedules c (onSyncLost c).
Proof.
  unfold onSyncLost.
  eapply only_schedules_trans; [|apply only_schedules_io].
  destruct (sync_lost_fold c (_entries c)) as (_ & _ & Hp & Hcc & Hcalls & _).
  by apply only_schedules_fields.
Qed.

(** With background I/O off, no event turns it on again or reaches the
    wrapped store. *)
Lemma io_disabled_only_schedules c c' :
  io_disabled c → only_schedules c c' →
  io_disabled c' ∧ kvs_calls c' = kvs_calls c.
Proof.
  unfold io_disabled, only_schedules.
  intros [Hp Hcc] (Hcc' & Hcalls & [Hp'|(_ & Hlt & _)]); [|lia].
  rewrite Hcc', Hp', Hp. auto.
Qed.

Lemma io_disabled_step c ev :
  io_disabled c → io_disabled (step c ev) ∧ kvs_calls (step c ev) = kvs_calls c.
Proof.
  intros Hd. pose proof Hd as [Hp Hcc].
  destruct ev; simpl; try (by rewrite Hp);
    apply io_disabled_only_schedules; try done.
  - apply only_schedules_get.
  - apply only_schedules_set.
  - apply only_schedules_maybeInsert.
  - apply only_schedules_onSet.
  - apply only_schedules_onDelete.
  - apply only_schedules_onSyncLost.
Qed.

Lemma io_disabled_run c evs :
  io_disabled c → io_disabled (run c evs) ∧ kvs_calls (run c evs) = kvs_calls c.
Proof.
  unfold run. revert c. induction evs as [|ev evs IH]; intros c Hd; [done|].
  simpl. destruct (io_disabled_step c ev Hd) as [Hd' <-]. by apply IH.
Qed.

Lemma fetch_next_crash_count batches c :
  _crash_count (fetch_next batches c) = _crash_count c.
Proof. by destruct batches. Qed.

Lemma flush_next_crash_count batches c :
  _crash_count (flush_next batches c) = _crash_count c.
Proof. by destruct batches. Qed.

Lemma io_loop_crash_count c : _crash_count (io_loop c) = _crash_count c.
Proof.
  unfold io_loop. case_decide; [|done]. unfold _fetch.
  by rewrite fetch_next_crash_count.
Qed.

(** The segments of the task that do not raise leave the count alone. *)
Lemma task_step_crash_count c ev :
  match ev with
  | IoResume | KvsGetResolved _ | KvsSetResolved => True
  | _ => False
  end →
  _crash_count (step c ev) = _crash_count c.
Proof.
  destruct ev; try done; intros _; simpl.
  - destruct (_pending_io c) as [[]|]; try done.
    + apply io_loop_crash_count.
    + unfold _flush. by rewrite flush_next_crash_count.
    + apply io_loop_crash_count.
  - destruct (_pending_io c) as [[]|]; try done.
    unfold fetch_resolved. rewrite fetch_next_crash_count.
    by destruct (only_schedules_onSet entries c) as (Hcc & _).
  - destruct (_pending_io c) as [[]|]; try done.
    apply flush_next_crash_count.
Qed.

(** Without a pending cycle the task has no segment to run. *)
Lemma task_step_idle c ev :
  _pending_io c = None →
  match ev with
  | IoResume | KvsGetResolved _ | KvsSetResolved | KvsRejected => True
  | _ => False
  end →
  step c ev = c.
Proof. intros Hp. destruct ev; try done; intros _; simpl; by rewrite Hp. Qed.

(** [_crash_count] counts the times the loop body raised; and once it
    has reached three no cycle is pending. *)
Lemma step_crash_count c ev :
  _crash_count (step c ev) = _crash_count c + (if raises c ev then 1 else 0) ∧
  ((3 ≤ _crash_count c → _pending_io c = None) →
   3 ≤ _crash_count (step c ev) → _pending_io (step c ev) = None).
Proof.
  assert (Hsync : ∀ c', only_schedules c c' →
    _crash_count c' = _crash_count c + 0 ∧
    ((3 ≤ _crash_count c → _pending_io c = None) →
     3 ≤ _crash_count c' → _pending_io c' = None)).
  { intros c' (Hcc & _ & Hp). rewrite Hcc. split; [lia|].
    intros Hstop Hge. destruct Hp as [->|(_ & Hlt & _)]; [auto|lia]. }
  assert (Htask : _crash_count (step c ev) = _crash_count c →
    raises c ev = false →
    match ev with
    | IoResume | KvsGetResolved _ | KvsSetResolved | KvsRejected => True
    | _ => False
    end →
    _crash_count (step c ev) = _crash_count c + (if raises c ev then 1 else 0) ∧
    ((3 ≤ _crash_count c → _pending_io c = None) →
     3 ≤ _crash_count (step c ev) → _pending_io (step c ev) = None)).
  { intros Hcc Hr Hev. rewrite Hr, Hcc. split; [lia|]. intros Hstop Hge.
    rewrite (task_step_idle c ev); auto. }
  destruct ev.
  - apply Hsync, only_schedules_get.
  - apply Hsync, only_schedules_set.
  - apply Hsync, only_schedules_maybeInsert.
  - apply Hsync, only_schedules_onSet.
  - apply Hsync, only_schedules_onDelete.
  - apply Hsync, only_schedules_onSyncLost.
  - apply Htask; [by apply task_step_crash_count|done..].
  - apply Htask; [by apply task_step_crash_count|done..].
  - apply Htask; [by apply task_step_crash_count|done..].
  - clear Hsync Htask. unfold raises. simpl.
    destruct (_pending_io c) as [[]|] eqn:Hp; simpl; (split; [lia|]);
      intros Hstop Hge; rewrite ?Hp; try done; apply Hstop; lia.
Qed.

Lemma run_crash_count c evs :
  _crash_count (run c evs) = _crash_count c + crashes c evs ∧
  ((3 ≤ _crash_count c → _pending_io c = None) →
   3 ≤ _crash_count (run c evs) → _pending_io (run c evs) = None).
Proof.
  unfold run. revert c. induction evs as [|ev evs IH]; intros c; simpl.
  { split; [lia|auto]. }
  destruct (step_crash_count c ev) as [Hcc Hstop].
  destruct (IH (step c ev)) as [Hcc' Hstop']. split; [lia|auto].
Qed.

(** C4. Once the loop body has raised three times in the history [evs1]
    of a cache, then whatever happens next ([evs2]: calls, notifications,
    resumptions of the task) no further call reaches the wrapped store and
    no cycle is pending; and in any such later state [get] and [set], on
    any key, still return a live entry object for that key, [set] with
    the value just written. *)
Theorem io_disabled_after_three_crashes evs1 evs2 k (v : V) :
  3 ≤ crashes new_cache evs1 →
  kvs_calls (run new_cache (evs1 ++ evs2)) = kvs_calls (run new_cache evs1) ∧
  _pending_io (run new_cache (evs1 ++ evs2)) = None ∧
  (∃ val, heap (get k (run new_cache (evs1 ++ evs2))).2
            !! (get k (run new_cache (evs1 ++ evs2))).1
          = Some (mkEntry k val)) ∧
  kvs_calls (get k (run new_cache (evs1 ++ evs2))).2
    = kvs_calls (run new_cache evs1) ∧
  heap (set k v (run new_cache (evs1 ++ evs2))).2
    !! (set k v (run new_cache (evs1 ++ evs2))).1
  = Some (mkEntry k (Some v)) ∧
  kvs_calls (set k v (run new_cache (evs1 ++ evs2))).2
    = kvs_calls (run new_cache evs1).
Proof.
  intros Hcrashes.
  destruct (run_crash_count new_cache evs1) as [Hcc Hstop]. simpl in Hcc.
  assert (Hd1 : io_disabled (run new_cache evs1)).
  { split; [apply Hstop; simpl; lia|lia]. }
  assert (Happ : run new_cache (evs1 ++ evs2) = run (run new_cache evs1) evs2)
    by apply foldl_app.
  rewrite Happ. set (c1 := run new_cache evs1) in *.
  destruct (io_disabled_run c1 evs2 Hd1) as [Hd2 Hcalls2].
  set (c2 := run c1 evs2) in *.
  assert (Hwf2 : wf c2) by (apply wf_run, wf_reachable).
  destruct (io_disabled_step c2 (CallGet k) Hd2) as [_ Hcg].
  destruct (io_disabled_step c2 (CallSet k v) Hd2) as [_ Hcs]. simpl in *.
  split_and!.
  - done.
  - apply Hd2.
  - apply (wf_entries (get k c2).2 k); [|apply get_returns_tracked].
    apply (wf_step c2 (CallGet k) Hwf2).
  - congruence.
  - apply set_spec, Hwf2.
  - congruence.
Qed.

(** *** Fetch overrides flush *)

(** A tracked key stays tracked, by the same object: nothing ever removes
    or replaces an item of [_entries]. *)
Lemma step_entries_tracked c ev k e :
  _entries c !! k = Some e → _entries (step c ev) !! k = Some e.
Proof.
  intros Hk. destruct (touches k ev) eqn:Ht.
  - destruct ev; try done; simpl in Ht; apply bool_decide_eq_true in Ht;
      subst; simpl.
    + by rewrite (get_tracked _ _ _ Hk).
    + by rewrite set_entries_get, (get_tracked _ _ _ Hk).
    + by rewrite maybeInsert_entries_get, (get_tracked _ _ _ Hk).
  - by rewrite step_entries_untouched.
Qed.

Lemma run_entries_tracked c evs k e :
  _entries c !! k = Some e → _entries (run c evs) !! k = Some e.
Proof.
  unfold run. revert c. induction evs as [|ev evs IH]; intros c Hk; [done|].
  simpl. by apply IH, step_entries_tracked.
Qed.

(** Applying a response of [kvs.get] that carries [v2] for the tracked key
    [k]: the object of [k] holds [v2] and [k] has left both queues. *)
Lemma fetch_delivery c k e entries (v2 : V) :
  heap_ok c → _entries c !! k = Some e → delivered k entries = Some v2 →
  heap (onSet entries c) !! e = Some (mkEntry k (Some v2)) ∧
  _needs_fetch (onSet entries c) !! k = None ∧
  _needs_flush (onSet entries c) !! k = None.
Proof.
  intros Hh Hk. unfold delivered.
  induction entries as [|x xs IH] using rev_ind; [done|].
  unfold onSet. rewrite foldl_app, filter_app. simpl.
  change (foldl _ c xs) with (onSet xs c).
  pose proof (heap_ok_onSet xs c Hh) as Hh'.
  assert (Hk' : _entries (onSet xs c) !! k = Some e)
    by by rewrite onSet_entries.
  rewrite filter_cons, filter_nil. case_decide as Hx.
  - rewrite last_snoc. intros [= <-]. subst k.
    by destruct (update_tracked (key x) e (Some (value x)) _ Hh' Hk')
      as (_ & ? & ? & ?).
  - rewrite app_nil_r. intros Hlast.
    destruct (update_other (key x) (Some (value x)) _ k e Hh' Hx Hk')
      as (-> & -> & ->).
    by apply IH.
Qed.

(** *** After the fetch has overridden the flush, nothing writes the key *)

Lemma wf_set_pending_io p c : wf c → wf (set_pending_io p c).
Proof. by intros [Hh Hq]. Qed.

Lemma wf_record_call q c : wf c → wf (record_call q c).
Proof. by intros [Hh Hq]. Qed.

Lemma set_needs_flush_get k (v : V) c :
  _needs_flush (set k v c).2 = <[k := (set k v c).1]> (_needs_flush (get k c).2).
Proof.
  unfold set. destruct (get k c) as [ent c1]. simpl.
  match goal with |- context [_io ?c0] => set (c2 := c0) end.
  by destruct (io_fields c2) as (_ & _ & -> & _).
Qed.

Lemma maybeInsert_needs_flush_get k (v : V) c :
  _needs_flush (maybeInsert k v c).2 = _needs_flush (get k c).2 ∨
  _needs_flush (maybeInsert k v c).2
  = <[k := (maybeInsert k v c).1]> (_needs_flush (get k c).2).
Proof.
  unfold maybeInsert. destruct (get k c) as [ent c1]. simpl.
  destruct (deref_value ent c1); [by left|]. right. simpl.
  match goal with |- context [_io ?c0] => set (c2 := c0) end.
  by destruct (io_fields c2) as (_ & _ & -> & _).
Qed.

Lemma update_flush_None k' (v : option V) c k :
  _needs_flush c !! k = None → _needs_flush (_update k' v c) !! k = None.
Proof.
  intros Hk. unfold _update. destruct (_entries c !! k'); [|done]. simpl.
  rewrite lookup_delete. by case_decide.
Qed.

Lemma onSet_flush_None entries c k :
  _needs_flush c !! k = None → _needs_flush (onSet entries c) !! k = None.
Proof.
  unfold onSet. revert c. induction entries as [|x xs IH]; intros c Hk; [done|].
  simpl. by apply IH, update_flush_None.
Qed.

Lemma onDelete_flush_None keys c k :
  _needs_flush c !! k = None → _needs_flush (onDelete keys c) !! k = None.
Proof.
  unfold onDelete. revert c. induction keys as [|x xs IH]; intros c Hk; [done|].
  simpl. by apply IH, update_flush_None.
Qed.

Lemma concat_batches_fill {A} size (cur items : list A) :
  concat (batches_fill size cur items) = rev cur ++ items.
Proof.
  revert cur. induction items as [|x items IH]; intros cur; simpl.
  - destruct cur; simpl; by rewrite ?app_nil_r.
  - case_decide; simpl; rewrite IH; simpl; by rewrite <-app_assoc.
Qed.

Lemma concat_batchesOf {A} size (items : list A) :
  concat (batchesOf size items) = items.
Proof. apply concat_batches_fill. Qed.

(** What [_flush] sends for a batch of objects of keys other than [k]
    holds no entry for [k]. *)
Lemma dirty_other_keys c k (batch : list ref) :
  wf c →
  Forall (λ e, ∃ k', k' ≠ k ∧ _entries c !! k' = Some e) batch →
  k ∉ key <$> omap (λ e, heap c !! e) batch.
Proof.
  intros Hwf Hbatch [ent [-> Hent]]%list_elem_of_fmap.
  apply list_elem_of_omap in Hent as (e & He & Hlook).
  rewrite Forall_forall in Hbatch.
  destruct (Hbatch e He) as (k' & Hne & Hk').
  destruct (wf_entries c k' e Hwf Hk') as [v Hv].
  rewrite Hv in Hlook. by simplify_eq/=.
Qed.

Lemma fetch_next_calls batches c :
  _needs_flush (fetch_next batches c) = _needs_flush c ∧
  (∀ rest, _pending_io (fetch_next batches c) ≠ Some (IoFlushing rest)) ∧
  ∃ new, kvs_calls (fetch_next batches c) = kvs_calls c ++ new ∧
         ∀ k, Forall (λ q, ¬ writes_key k q) new.
Proof.
  destruct batches as [|b rest]; simpl; (split_and!; [done|done|]).
  - exists []. by rewrite app_nil_r.
  - exists [KvsGet b]. split; [done|]. intros k. repeat constructor. by intros ?.
Qed.

Lemma flush_next_calls (batches : list (list ref)) c k :
  wf c → _needs_flush c !! k = None →
  Forall (λ e, ∃ k', k' ≠ k ∧ _entries c !! k' = Some e) (concat batches) →
  no_flush_of k (flush_next batches c) ∧
  ∃ new, kvs_calls (flush_next batches c) = kvs_calls c ++ new ∧
         Forall (λ q, ¬ writes_key k q) new.
Proof.
  intros Hwf Hfl Hbatches. destruct batches as [|b rest]; simpl.
  - split.
    + split_and!; [by apply wf_set_pending_io|done|done].
    + exists []. by rewrite app_nil_r.
  - simpl in Hbatches. apply Forall_app in Hbatches as [Hb Hrest]. split.
    + split_and!; [|done|by intros ? [= <-]].
      by apply wf_set_pending_io, wf_record_call.
    + eexists [_]. split; [done|]. repeat constructor. simpl.
      by apply dirty_other_keys.
Qed.

(** An event that is not a local write to [k] keeps [no_flush_of k] and
    makes no call that writes [k]. *)
Lemma no_flush_step c ev k :
  no_flush_of k c → local_write k ev = false →
  no_flush_of k (step c ev) ∧
  ∃ new, kvs_calls (step c ev) = kvs_calls c ++ new ∧
         Forall (λ q, ¬ writes_key k q) new.
Proof.
  intros Hc Hev. pose proof Hc as (Hwf & Hfl & Hrest).
  pose proof (wf_step c ev Hwf) as Hwf'.
  assert (Hsync : only_schedules c (step c ev) →
                  _needs_flush (step c ev) !! k = None →
    no_flush_of k (step c ev) ∧
    ∃ new, kvs_calls (step c ev) = kvs_calls c ++ new ∧
           Forall (λ q, ¬ writes_key k q) new).
  { intros (_ & Hcalls & Hp) Hfl'. split.
    - split_and!; [done..|]. intros rest Hp'.
      assert (_pending_io c = Some (IoFlushing rest)) as Hpc
        by (destruct Hp as [<-|(_ & _ & Hs)]; congruence).
      eapply Forall_impl; [by apply Hrest|]. simpl.
      intros e (k' & Hne & Hk'). exists k'.
      split; [done|]. by apply step_entries_tracked.
    - exists []. by rewrite app_nil_r. }
  destruct ev; simpl in Hev.
  - apply Hsync; [apply only_schedules_get|]. simpl.
    by destruct (get_frame k0 c) as (_ & _ & -> & _).
  - apply Hsync; [apply only_schedules_set|]. simpl.
    rewrite set_needs_flush_get, lookup_insert_ne;
      [|intros ->; by rewrite bool_decide_true in Hev].
    by destruct (get_frame k0 c) as (_ & _ & -> & _).
  - apply Hsync; [apply only_schedules_maybeInsert|]. simpl.
    destruct (maybeInsert_needs_flush_get k0 v c) as [->| ->].
    + by destruct (get_frame k0 c) as (_ & _ & -> & _).
    + rewrite lookup_insert_ne;
        [|intros ->; by rewrite bool_decide_true in Hev].
      by destruct (get_frame k0 c) as (_ & _ & -> & _).
  - apply Hsync; [apply only_schedules_onSet|]. by apply onSet_flush_None.
  - apply Hsync; [apply only_schedules_onDelete|]. by apply onDelete_flush_None.
  - apply Hsync; [apply only_schedules_onSyncLost|]. simpl. unfold onSyncLost.
    destruct (io_fields (map_fold sync_lost_entry c (_entries c)))
      as (_ & _ & -> & _).
    by destruct (sync_lost_fold c (_entries c)) as (_ & -> & _).
  - simpl in *. destruct (_pending_io c) as [[]|] eqn:Hp.
    + unfold io_loop in *. case_decide.
      * unfold _fetch in *.
        destruct (fetch_next_calls
                    (batchesOf 100 (map_to_list (_needs_fetch c)).*1)
                    (set_needs_fetch ∅ c)) as (Hfl' & Hp' & new & Hnew & Hw).
        split; [|by eauto]. split_and!; [done|by rewrite Hfl'|].
        intros rest Hr. by destruct (Hp' rest).
      * split; [by split_and!|]. exists []. by rewrite app_nil_r.
    + split; [exact Hc|]. exists []. by rewrite app_nil_r.
    + unfold _flush.
      destruct (flush_next_calls
                  (batchesOf 100 (map_to_list (_needs_flush c)).*2)
                  (set_needs_flush ∅ c) k) as (Hn & new & Hnew & Hw).
      * destruct Hwf as [Hh [Hf Hq]]. split; [done|]. split; [done|].
        apply map_Forall_empty.
      * apply lookup_empty.
      * rewrite concat_batchesOf. apply Forall_forall.
        intros e [[k' e'] [-> Hke]]%list_elem_of_fmap.
        apply elem_of_map_to_list in Hke. exists k'. split.
        -- intros ->. congruence.
        -- by apply (wf_flush c).
      * split; [done|]. by exists new.
    + split; [exact Hc|]. exists []. by rewrite app_nil_r.
    + unfold io_loop in *. case_decide.
      * unfold _fetch in *.
        destruct (fetch_next_calls
                    (batchesOf 100 (map_to_list (_needs_fetch c)).*1)
                    (set_needs_fetch ∅ c)) as (Hfl' & Hp' & new & Hnew & Hw).
        split; [|by eauto]. split_and!; [done|by rewrite Hfl'|].
        intros rest Hr. by destruct (Hp' rest).
      * split; [by split_and!|]. exists []. by rewrite app_nil_r.
    + split; [exact Hc|]. exists []. by rewrite app_nil_r.
  - simpl in *. destruct (_pending_io c) as [[]|] eqn:Hp;
      try (split; [exact Hc|]; exists []; by rewrite app_nil_r).
    unfold fetch_resolved in *.
    change (foldl _ c entries) with (onSet entries c) in *.
    destruct (fetch_next_calls rest (onSet entries c))
      as (Hfl' & Hp' & new & Hnew & Hw).
    destruct (only_schedules_onSet entries c) as (_ & Hcalls & _).
    split; [|exists new; by rewrite Hnew, Hcalls].
    split_and!; [done|rewrite Hfl'; by apply onSet_flush_None|].
    intros rest' Hr. by destruct (Hp' rest').
  - simpl in *. destruct (_pending_io c) as [[]|] eqn:Hp;
      try (split; [exact Hc|]; exists []; by rewrite app_nil_r).
    apply flush_next_calls; [done..|]. by apply Hrest.
  - simpl in *. destruct (_pending_io c) as [[]|] eqn:Hp;
      (split; [|exists []; by rewrite app_nil_r]); try exact Hc.
    all: split_and!; [by destruct Hwf as [Hh Hq]|done|done].
Qed.

Lemma no_flush_run c evs k :
  no_flush_of k c → forallb (λ ev, negb (local_write k ev)) evs = true →
  ∃ new, kvs_calls (run c evs) = kvs_calls c ++ new ∧
         Forall (λ q, ¬ writes_key k q) new.
Proof.
  unfold run. revert c. induction evs as [|ev evs IH]; intros c Hc; simpl.
  { intros _. exists []. by rewrite app_nil_r. }
  intros [Hev Hevs]%andb_prop.
  destruct (no_flush_step c ev k Hc) as (Hc' & new1 & Hnew1 & Hw1).
  { by destruct (local_write k ev). }
  destruct (IH (step c ev) Hc' Hevs) as (new2 & Hnew2 & Hw2).
  exists (new1 ++ new2). rewrite Hnew2, Hnew1, <-app_assoc.
  split; [done|]. by apply Forall_app.
Qed.

(** C3. Let [maybeInsert k v] be called on a well-formed cache in which
    the entry of [k] is unset (untracked or null). Right afterwards the
    entry shows [v] and [k] is in both queues. If then, after any further
    history [evs], the task is awaiting [kvs.get] and the response it
    receives carries the value [v2] for [k], then once the response has
    been applied the entry of [k] holds [v2] and [k] is no longer in the
    flush queue; and from then on, whatever happens ([evs']), as long as
    there is no new local write to [k], no call to the wrapped store
    writes an entry for [k]. *)
Theorem fetch_overrides_flush c k (v v2 : V) evs rest entries :
  wf c → value_of k c = None →
  _pending_io (run (maybeInsert k v c).2 evs) = Some (IoFetching rest) →
  delivered k entries = Some v2 →
  value_of k (maybeInsert k v c).2 = Some v ∧
  _needs_fetch (maybeInsert k v c).2 !! k = Some (maybeInsert k v c).1 ∧
  _needs_flush (maybeInsert k v c).2 !! k = Some (maybeInsert k v c).1 ∧
  _entries (step (run (maybeInsert k v c).2 evs) (KvsGetResolved entries)) !! k
    = Some (maybeInsert k v c).1 ∧
  value_of k (step (run (maybeInsert k v c).2 evs) (KvsGetResolved entries))
    = Some v2 ∧
  _needs_flush (step (run (maybeInsert k v c).2 evs) (KvsGetResolved entries))
    !! k = None ∧
  (∀ evs', forallb (λ ev, negb (local_write k ev)) evs' = true →
     ∃ new,
       kvs_calls (run (step (run (maybeInsert k v c).2 evs)
                         (KvsGetResolved entries)) evs')
       = kvs_calls (step (run (maybeInsert k v c).2 evs)
                      (KvsGetResolved entries)) ++ new ∧
       Forall (λ q, ¬ writes_key k q) new).
Proof.
  intros Hwf Hunset Hp Hdel. pose proof Hwf as [Hh _].
  destruct (maybeInsert_spec k v c Hh Hunset) as (Hk & Hv & Hf & Hfl & _).
  pose proof (wf_step c (CallMaybeInsert k v) Hwf) as Hwf1. simpl in Hwf1.
  set (ent := (maybeInsert k v c).1) in *.
  set (c1 := (maybeInsert k v c).2) in *.
  pose proof (wf_run c1 evs Hwf1) as Hwf2. pose proof Hwf2 as [Hh2 _].
  pose proof (run_entries_tracked c1 evs k ent Hk) as Hk2.
  set (c2 := run c1 evs) in *.
  destruct (fetch_delivery c2 k ent entries v2 Hh2 Hk2 Hdel)
    as (Hv3 & _ & Hfl3).
  assert (Hk3 : _entries (step c2 (KvsGetResolved entries)) !! k = Some ent)
    by by apply step_entries_tracked.
  pose proof (wf_step c2 (KvsGetResolved entries) Hwf2) as Hwf3.
  assert (Hstep : step c2 (KvsGetResolved entries)
                  = fetch_next rest (onSet entries c2)).
  { simpl. by rewrite Hp. }
  destruct (fetch_next_calls rest (onSet entries c2)) as (Hfl4 & Hp4 & _).
  assert (Hfl5 : _needs_flush (step c2 (KvsGetResolved entries)) !! k = None)
    by by rewrite Hstep, Hfl4.
  split_and!; try done.
  - unfold value_of, deref_value. rewrite Hk. simpl. by rewrite Hv.
  - unfold value_of, deref_value. rewrite Hk3, Hstep.
    destruct rest; simpl; by rewrite Hv3.
  - intros evs' Hevs'. apply no_flush_run; [|done].
    split_and!; [done..|]. intros rest' Hr. rewrite Hstep in Hr.
    by destruct (Hp4 rest').
Qed.

End CacheFacts.

(** * Properties of the retry loop *)

Section ClientFacts.
Context {Msg Resp : Type}.
Implicit Types (port : port_behaviour (Msg:=Msg) (Resp:=Resp)) (msg : Msg).
Implicit Types (e : error) (resp : Resp).

(** An error that is not a transport error leaves the loop at once. *)
Lemma retry_loop_service_error port msg attempt retries e :
  port attempt msg = Rejected e → is_NanoPortError e = false →
  retry_loop port msg attempt retries = ([Request msg], Rejected e).
Proof. intros Hp He. destruct retries; simpl; by rewrite Hp, He. Qed.

Lemma retry_loop_resolved port msg attempt retries resp :
  port attempt msg = Resolved resp →
  retry_loop port msg attempt retries = ([Request msg], Resolved resp).
Proof. intros Hp. destruct retries; simpl; by rewrite Hp. Qed.

(** With no retry left, a transport error leaves the loop too. *)
Lemma retry_loop_exhausted port msg attempt e :
  port attempt msg = Rejected e →
  retry_loop port msg attempt 0 = ([Request msg], Rejected e).
Proof. intros Hp. simpl. rewrite Hp. by destruct (is_NanoPortError e). Qed.

(** [n] transport errors in a row, with at least [n] retries left: each
    is followed by the wait of its attempt number, and the loop goes on.
    In a call of [_request_with_retry] the attempt number and the number
    of retries left always add up to 10. *)
Lemma retry_loop_transport_failures port msg n attempt retries :
  attempt + retries = 10 → n ≤ retries →
  (∀ i, attempt ≤ i < attempt + n → is_transport_failure (port i msg) = true) →
  retry_loop port msg attempt retries =
  (flat_map (λ i, [Request msg; Sleep (Z.of_nat i * 100)]) (seq attempt n)
     ++ (retry_loop port msg (attempt + n) (retries - n)).1,
   (retry_loop port msg (attempt + n) (retries - n)).2).
Proof.
  revert attempt retries.
  induction n as [|n IH]; intros attempt retries Hsum Hle Hfail.
  { simpl. rewrite Nat.add_0_r, Nat.sub_0_r. by destruct (retry_loop _ _ _ _). }
  destruct retries as [|retries]; [lia|].
  pose proof (Hfail attempt ltac:(lia)) as H0.
  cbn [retry_loop]. destruct (port attempt msg) as [|e]; [done|].
  simpl in H0. rewrite H0. cbn [negb].
  rewrite (IH (S attempt) retries) by (try lia; intros i Hi; apply Hfail; lia).
  replace (S attempt + n) with (attempt + S n) by lia.
  replace (S retries - S n) with (retries - n) by lia.
  cbn [seq flat_map app]. do 3 f_equal. f_equal. lia.
Qed.

Lemma requests_cons_request msg (effects : list (effect (Msg:=Msg))) :
  requests (Request msg :: effects) = S (requests effects).
Proof. unfold requests. by rewrite filter_cons_True. Qed.

Lemma requests_cons_sleep ms (effects : list (effect (Msg:=Msg))) :
  requests (Sleep ms :: effects) = requests effects.
Proof. unfold requests. by rewrite filter_cons_False by (by intros ?). Qed.

(** The loop never makes more requests than it has retries, plus one. *)
Lemma retry_loop_requests_bound port msg attempt retries :
  requests (retry_loop port msg attempt retries).1 ≤ S retries.
Proof.
  assert (Hone : requests [Request msg] = 1) by apply requests_cons_request.
  revert attempt. induction retries as [|retries IH]; intros attempt.
  - simpl. destruct (port attempt msg) as [|e]; cbn [fst]; [lia|].
    destruct (is_NanoPortError e); cbn [negb fst]; lia.
  - cbn [retry_loop]. destruct (port attempt msg) as [|e]; cbn [fst]; [lia|].
    destruct (is_NanoPortError e); cbn [negb fst]; [|lia].
    specialize (IH (S attempt)).
    destruct (retry_loop port msg (S attempt) retries) as [effects result].
    cbn [fst] in *. rewrite requests_cons_request, requests_cons_sleep. lia.
Qed.

Lemma requests_failed_attempts msg n (effects : list (effect (Msg:=Msg))) :
  requests (failed_attempts msg n ++ effects) = n + requests effects.
Proof.
  unfold failed_attempts. generalize 0.
  induction n as [|n IH]; intros first; [done|].
  cbn [seq flat_map app]. rewrite <-?app_assoc. cbn [app].
  by rewrite requests_cons_request, requests_cons_sleep, IH.
Qed.

Lemma total_sleep_failed_attempts msg n first (effects : list (effect (Msg:=Msg))) :
  total_sleep
    (flat_map (λ i, [Request msg; Sleep (Z.of_nat i * 100)]) (seq first n)
       ++ effects)
  = (100 * (Z.of_nat n * Z.of_nat first + Z.of_nat n * (Z.of_nat n - 1) / 2)
     + total_sleep effects)%Z.
Proof.
  revert first. induction n as [|n IH]; intros first; [done|].
  cbn [seq flat_map app]. rewrite <-?app_assoc. cbn [app total_sleep foldr].
  fold (total_sleep (flat_map (λ i, [Request msg; Sleep (Z.of_nat i * 100)])
                       (seq (S first) n) ++ effects)).
  rewrite IH.
  replace (Z.of_nat (S n) * (Z.of_nat (S n) - 1))%Z
    with (Z.of_nat n * (Z.of_nat n - 1) + Z.of_nat n * 2)%Z by lia.
  rewrite Z.div_add by lia. lia.
Qed.

(** C7. When a request made by [_request_with_retry] is rejected with an
    error that is not a transport error (here after [n <= 10] attempts
    that failed in transport, [n = 0] being the case of a first request
    that fails in the service), that error is what the caller gets, and
    the rejected request is the last effect of the call: no wait and no
    further request follows it. For [n = 0] the call makes exactly one
    request and waits for nothing. *)
Theorem service_error_not_retried port msg n e :
  n ≤ 10 →
  (∀ i, i < n → is_transport_failure (port i msg) = true) →
  port n msg = Rejected e → is_NanoPortError e = false →
  _request_with_retry port msg
  = (failed_attempts msg n ++ [Request msg], Rejected e) ∧
  (n = 0 → _request_with_retry port msg = ([Request msg], Rejected e)).
Proof.
  intros Hn Hfail Hp He.
  assert (Hmain : _request_with_retry port msg
                  = (failed_attempts msg n ++ [Request msg], Rejected e)).
  { unfold _request_with_retry.
    rewrite (retry_loop_transport_failures port msg n 0 10)
      by (try lia; intros i Hi; apply Hfail; lia).
    simpl. by rewrite (retry_loop_service_error port msg n (10 - n) e). }
  split; [done|]. intros ->. by rewrite Hmain.
Qed.

(** C2 (amended). When the first request and all 10 retries of a call of
    [_request_with_retry] fail with a transport error, the call makes 11
    requests, waits [i * 100] ms after the failed attempt number [i] for
    [i] from 0 to 9 (4500 ms in all), and rejects with the error of the
    11th request. No call makes more than 11 requests. *)
Theorem transport_errors_retried_ten_times port msg e :
  (∀ i, i < 10 → is_transport_failure (port i msg) = true) →
  port 10 msg = Rejected e → is_NanoPortError e = true →
  _request_with_retry port msg
  = (failed_attempts msg 10 ++ [Request msg], Rejected e) ∧
  requests (_request_with_retry port msg).1 = 11 ∧
  total_sleep (_request_with_retry port msg).1 = 4500%Z ∧
  (∀ port' msg', requests (_request_with_retry port' msg').1 ≤ 11).
Proof.
  intros Hfail Hp He.
  assert (Hmain : _request_with_retry port msg
                  = (failed_attempts msg 10 ++ [Request msg], Rejected e)).
  { unfold _request_with_retry.
    rewrite (retry_loop_transport_failures port msg 10 0 10)
      by (try lia; intros i Hi; apply Hfail; lia).
    change (10 - 10) with 0. change (0 + 10) with 10.
    by rewrite (retry_loop_exhausted port msg 10 e). }
  rewrite Hmain. split_and!; [done|..].
  - cbn [fst]. by rewrite requests_failed_attempts, requests_cons_request.
  - cbn [fst]. unfold failed_attempts.
    by rewrite total_sleep_failed_attempts.
  - intros port' msg'. apply retry_loop_requests_bound.
Qed.

(** A request that succeeds after [n <= 10] transport errors resolves. *)
Lemma transport_errors_then_success port msg n resp :
  n ≤ 10 →
  (∀ i, i < n → is_transport_failure (port i msg) = true) →
  port n msg = Resolved resp →
  _request_with_retry port msg
  = (failed_attempts msg n ++ [Request msg], Resolved resp).
Proof.
  intros Hn Hfail Hp. unfold _request_with_retry.
  rewrite (retry_loop_transport_failures port msg n 0 10)
    by (try lia; intros i Hi; apply Hfail; lia).
  simpl. by rewrite (retry_loop_resolved port msg n (10 - n) resp).
Qed.

End ClientFacts.

(** * Properties of the page-by-page listing *)

Section ListingFacts.
Context {K V : Type}.
Implicit Types (store pre suf res : list (Entry K V)) (bound : option K).

(** More fuel does not change what a completed listing has yielded. *)
Lemma genericList_fuel_mono fuel fuel' getChunk bound (yielded : list (Entry K V)) :
  fuel ≤ fuel' →
  genericList fuel getChunk bound = (yielded, true) →
  genericList fuel' getChunk bound = (yielded, true).
Proof.
  revert fuel' bound yielded.
  induction fuel as [|fuel IH]; intros fuel' bound yielded Hle; [done|].
  destruct fuel' as [|fuel']; [lia|]. simpl. case_decide; [done|].
  destruct (genericList fuel getChunk (key <$> last (getChunk bound 100)))
    as [more completed] eqn:Hrec.
  intros [= <- ->]. by rewrite (IH fuel' _ more) by (done || lia).
Qed.

(** ** Paging with the bound excluded

    [sel bound] selects the entries a page may hold, [lt_e] is the order
    in which the table [l] is kept; a page is the first [limit] selected
    entries of the table. *)
Section Paging.
Context (lt_e : relation (Entry K V)) `{!StrictOrder lt_e}.
Context (sel : option K → Entry K V → Prop) `{!∀ b x, Decision (sel b x)}.
Hypothesis sel_unset : ∀ x, sel None x.
Hypothesis sel_after : ∀ x y, sel (Some (key x)) y ↔ lt_e x y.

Lemma filter_all (P : Entry K V → Prop) `{!∀ x, Decision (P x)} l :
  Forall P l → filter P l = l.
Proof.
  induction 1 as [|x l Hx _ IH]; [done|]. by rewrite filter_cons_True, IH.
Qed.

Lemma filter_none (P : Entry K V → Prop) `{!∀ x, Decision (P x)} l :
  Forall (λ x, ¬ P x) l → filter P l = [].
Proof.
  induction 1 as [|x l Hx _ IH]; [done|]. by rewrite filter_cons_False, IH.
Qed.

(** The loop of [genericList], entered with a [bound] that splits the
    table into the entries already yielded ([pre]) and those still to
    come ([suf]): it yields [suf] and completes. *)
Lemma paging_from_bound l fuel pre suf bound :
  l = pre ++ suf → StronglySorted lt_e l →
  Forall (λ x, ¬ sel bound x) pre → Forall (sel bound) suf →
  length suf < fuel →
  genericList fuel (λ b limit, take limit (filter (sel b) l)) bound
  = (suf, true).
Proof.
  revert pre suf bound.
  induction fuel as [|fuel IH]; intros pre suf bound Hl Hs Hpre Hsuf Hlen;
    [lia|].
  assert (Hpage : filter (sel bound) l = suf).
  { rewrite Hl, filter_app, (filter_none _ pre), (filter_all _ suf); done. }
  cbn [genericList]. rewrite Hpage.
  destruct (last (take 100 suf)) as [x|] eqn:Hlast.
  - apply last_Some in Hlast as [res' Hres].
    rewrite decide_False by (rewrite Hres, length_app; simpl; lia).
    cbn [fmap option_fmap option_map].
    assert (Hsplit : suf = res' ++ x :: drop 100 suf).
    { rewrite <-(take_drop 100 suf) at 1. by rewrite Hres, <-app_assoc. }
    assert (Hshort : length (drop 100 suf) < fuel).
    { rewrite length_drop. assert (0 < length suf); [|lia].
      rewrite Hsplit, length_app. simpl. lia. }
    remember (drop 100 suf) as rest eqn:Hrest. clear Hrest.
    assert (Hl1 : l = (pre ++ res') ++ x :: rest)
      by by rewrite Hl, Hsplit, <-app_assoc.
    assert (Hl2 : l = (pre ++ res' ++ [x]) ++ rest)
      by by rewrite Hl1, <-!app_assoc.
    rewrite (IH (pre ++ res' ++ [x]) rest); try done.
    + rewrite Hres, <-app_assoc. simpl. by rewrite <-Hsplit.
    + rewrite app_assoc. apply Forall_app. split.
      * apply Forall_forall. intros y Hy. rewrite sel_after. intros Hxy.
        assert (lt_e y x) as Hyx.
        { apply (StronglySorted_app_1_elem_of lt_e (pre ++ res') (x :: rest));
            [by rewrite <-Hl1|done|apply list_elem_of_here]. }
        apply (irreflexivity lt_e x). by trans y.
      * apply Forall_singleton. rewrite sel_after.
        apply (irreflexivity lt_e).
    + apply Forall_forall. intros y Hy. rewrite sel_after.
      apply (StronglySorted_app_1_elem_of lt_e (pre ++ res' ++ [x]) rest);
        [by rewrite <-Hl2| |done].
      rewrite app_assoc. apply elem_of_app. right. apply list_elem_of_here.
  - apply last_None in Hlast. rewrite Hlast. simpl.
    destruct suf; [done|discriminate].
Qed.

(** The whole listing: every entry of the table, in the table's order. *)
Lemma paging_from_start l fuel :
  StronglySorted lt_e l → length l < fuel →
  genericList fuel (λ b limit, take limit (filter (sel b) l)) None
  = (l, true).
Proof.
  intros Hs Hlen. apply (paging_from_bound l fuel [] l); try done.
  by apply Forall_forall.
Qed.

End Paging.

Context (key_lt : relation K) `{!StrictOrder key_lt} `{!RelDecision key_lt}.

Global Instance entry_lt_strict : StrictOrder (entry_lt (V:=V) key_lt).
Proof.
  split.
  - intros x Hx. by apply (irreflexivity key_lt (key x)).
  - intros x y z Hxy Hyz. unfold entry_lt in *. by trans (key y).
Qed.

Lemma StronglySorted_reverse (R : relation (Entry K V)) l :
  StronglySorted R l → StronglySorted (flip R) (reverse l).
Proof.
  induction 1 as [|x l Hl IH Hx]; [constructor|].
  rewrite reverse_cons. apply StronglySorted_app_2; [|done|repeat constructor].
  intros y x' Hy ->%list_elem_of_singleton. rewrite elem_of_reverse in Hy.
  rewrite Forall_forall in Hx. by apply Hx.
Qed.

(** C1 (amended). For every finite backing store, kept as its entries in
    strictly ascending key order, whose range operations return the first
    [limit] entries with key strictly after the bound (for [list]) or
    strictly before it (for [listReverse]), [list()] completes, given
    more iterations than there are entries, having yielded exactly the
    entries of the store in ascending key order, and [listReverse()] the
    same entries in descending key order. *)
Theorem list_yields_store_in_order store fuel :
  store_ok key_lt store → length store < fuel →
  list_entries (getStartingAfter key_lt store) fuel = (store, true) ∧
  listReverse (getEndingBefore key_lt store) fuel = (reverse store, true).
Proof.
  intros Hs Hlen. unfold list_entries, listReverse. split.
  - apply (paging_from_start (entry_lt key_lt) (after key_lt)); try done.
  - apply (paging_from_start (flip (entry_lt key_lt)) (before key_lt));
      try done.
    + by apply StronglySorted_reverse.
    + by rewrite length_reverse.
Qed.

End ListingFacts.

(** * Further properties of the cache *)

Section CacheMore.
Context {K V : Type} `{Countable K}.
Implicit Types (c r : KVSCache (K:=K) (V:=V)) (k : K).
Implicit Types (e : ref) (m : gmap K ref).
Implicit Types (ev : event (K:=K) (V:=V)) (evs : list (event (K:=K) (V:=V))).

(** X1. [get] always returns the same entry object for a key: a second
    [get] returns the object of the first and changes nothing, and so
    does a [get] after any history of calls, notifications and task
    segments. *)
Theorem get_same_object c k evs :
  get k (get k c).2 = ((get k c).1, (get k c).2) ∧
  (get k (run (get k c).2 evs)).1 = (get k c).1 ∧
  (get k (run (get k c).2 evs)).2 = run (get k c).2 evs.
Proof.
  pose proof (get_returns_tracked k c) as Hk.
  pose proof (run_entries_tracked _ evs _ _ Hk) as Hk'.
  split; [by apply get_tracked|]. by rewrite (get_tracked _ _ _ Hk').
Qed.

(** A call on [k] makes [k] tracked. *)
Lemma touched_tracked c ev k :
  touches k ev = true → is_Some (_entries (step c ev) !! k).
Proof.
  destruct ev; try done; simpl; intros ->%bool_decide_eq_true.
  - rewrite get_returns_tracked. eauto.
  - rewrite set_entries_get, get_returns_tracked. eauto.
  - rewrite maybeInsert_entries_get, get_returns_tracked. eauto.
Qed.

Lemma run_snoc c evs ev : run c (evs ++ [ev]) = step (run c evs) ev.
Proof. unfold run. by rewrite foldl_app. Qed.

(** X2. [getIfExists] returns nothing exactly for the keys on which
    [get], [set] and [maybeInsert] have never been called; for the
    others it returns the object that [get] returns. *)
Theorem getIfExists_iff_touched evs k :
  (getIfExists k (run new_cache evs) = None ↔
   forallb (λ ev, negb (touches k ev)) evs = true) ∧
  (∀ e, getIfExists k (run new_cache evs) = Some e →
        get k (run new_cache evs) = (e, run new_cache evs)).
Proof.
  unfold getIfExists. split; [|intros e He; by apply get_tracked].
  split; [|intros Hevs; rewrite run_entries_untouched by done;
           apply lookup_empty].
  induction evs as [|ev evs IH] using rev_ind; [done|].
  rewrite run_snoc, forallb_app. simpl. intros Hnone.
  destruct (touches k ev) eqn:Ht.
  - destruct (touched_tracked (run new_cache evs) ev k Ht) as [e He].
    congruence.
  - rewrite step_entries_untouched in Hnone by done.
    by rewrite (IH Hnone).
Qed.

(** X3. [maybeInsert] on a key whose entry holds a value does nothing at
    all: it returns the entry and the cache is as it was, with nothing
    queued and no cycle armed. *)
Theorem maybeInsert_keeps_existing_value c k e (v0 v : V) :
  _entries c !! k = Some e → value_of k c = Some v0 →
  maybeInsert k v c = (e, c).
Proof.
  intros Hk Hv. unfold maybeInsert. rewrite (get_tracked _ _ _ Hk).
  unfold value_of in Hv. rewrite Hk in Hv. simpl in Hv. by rewrite Hv.
Qed.

(** Every call and every listener goes through [only_schedules]. *)
Lemma only_schedules_step c ev :
  task_event ev = false → only_schedules c (step c ev).
Proof.
  destruct ev; try done; intros _; simpl.
  - apply only_schedules_get.
  - apply only_schedules_set.
  - apply only_schedules_maybeInsert.
  - apply only_schedules_onSet.
  - apply only_schedules_onDelete.
  - apply only_schedules_onSyncLost.
Qed.

(** X4. No public method and no listener does I/O itself: whatever the
    state, a call of [get], [set] or [maybeInsert] and an [onSet],
    [onDelete] or [onSyncLost] notification make no call to the wrapped
    store and count no crash; a cycle that is pending is left exactly
    where it is, and when none is pending the most they do is arm one. *)
Theorem calls_and_listeners_do_no_io c ev :
  task_event ev = false →
  kvs_calls (step c ev) = kvs_calls c ∧
  _crash_count (step c ev) = _crash_count c ∧
  (∀ s, _pending_io c = Some s → _pending_io (step c ev) = Some s) ∧
  (_pending_io c = None →
   _pending_io (step c ev) = None ∨ _pending_io (step c ev) = Some IoScheduled).
Proof.
  intros Hev. destruct (only_schedules_step c ev Hev) as (Hcc & Hcalls & Hp).
  split_and!; try done.
  - intros s Hs. destruct Hp as [->|(Hnone & _)]; congruence.
  - intros Hnone. destruct Hp as [->|(_ & _ & ->)]; auto.
Qed.

(** *** Notifications and the queues *)

Lemma onSyncLost_tracked_null c k e :
  wf c → _entries c !! k = Some e →
  _entries (onSyncLost c) = _entries c ∧
  _needs_flush (onSyncLost c) = _needs_flush c ∧
  heap (onSyncLost c) !! e = Some (mkEntry k None).
Proof.
  intros [Hh _] Hk. unfold onSyncLost.
  destruct (sync_lost_fold c (_entries c))
    as (He & Hfl & _ & _ & _ & _ & Hkey & Hin & _).
  destruct (io_fields (map_fold sync_lost_entry c (_entries c)))
    as (-> & -> & -> & _).
  split_and!; try done.
  specialize (Hin k e Hk). specialize (Hkey e).
  specialize (Hh k e Hk). simpl in Hh.
  destruct (heap c !! e) as [ent|]; [|done].
  destruct (heap (map_fold sync_lost_entry c (_entries c)) !! e)
    as [[k' v']|]; by simplify_eq/=.
Qed.

(** X5. [onSyncLost] does not cancel pending writes: the flush queue is
    left as it is, while the entries it holds are nulled like all the
    others. What the cache shows for a key that was waiting to be
    flushed is then unset, and the key is queued both for fetch and for
    flush. *)
Theorem onSyncLost_keeps_flush_queue c :
  wf c →
  _needs_flush (onSyncLost c) = _needs_flush c ∧
  map_Forall (λ k e, value_of k (onSyncLost c) = None ∧
                     _needs_fetch (onSyncLost c) !! k = Some e ∧
                     _needs_flush (onSyncLost c) !! k = Some e)
             (_needs_flush c).
Proof.
  intros Hwf. split.
  - unfold onSyncLost.
    destruct (io_fields (map_fold sync_lost_entry c (_entries c)))
      as (_ & _ & -> & _).
    by destruct (sync_lost_fold c (_entries c)) as (_ & -> & _).
  - intros k e Hfl. simpl.
    pose proof (wf_flush c k e Hwf Hfl) as Hk.
    destruct (onSyncLost_tracked_null c k e Hwf Hk) as (He & Hfl' & Hv).
    split_and!.
    + unfold value_of, deref_value. rewrite He, Hk. simpl. by rewrite Hv.
    + unfold onSyncLost.
      destruct (io_fields (map_fold sync_lost_entry c (_entries c)))
        as (_ & _ & _ & -> & _).
      destruct (sync_lost_fold c (_entries c))
        as (_ & _ & _ & _ & _ & -> & _).
      by rewrite Hk.
    + by rewrite Hfl'.
Qed.

(** [_update] of other keys does not change what the cache shows for
    [k], nor the places of [k] in the queues. *)
Lemma update_frame k' (v : option V) c k :
  heap_ok c → k' ≠ k →
  value_of k (_update k' v c) = value_of k c ∧
  _needs_fetch (_update k' v c) !! k = _needs_fetch c !! k ∧
  _needs_flush (_update k' v c) !! k = _needs_flush c !! k.
Proof.
  intros Hh Hne. destruct (_entries c !! k) as [e|] eqn:Hk.
  - destruct (update_other k' v c k e Hh Hne Hk) as (Hheap & Hf & Hfl).
    split_and!; try done. unfold value_of, deref_value.
    destruct (update_fields k' v c) as (-> & _). by rewrite Hk; simpl; rewrite Hheap.
  - split_and!.
    + unfold value_of. destruct (update_fields k' v c) as (-> & _).
      by rewrite Hk.
    + unfold _update. destruct (_entries c !! k'); [|done]. simpl.
      by rewrite lookup_delete_ne.
    + unfold _update. destruct (_entries c !! k'); [|done]. simpl.
      by rewrite lookup_delete_ne.
Qed.

(** X6. Notifications only affect the keys they name: an [onSet] or
    [onDelete] notification that does not mention [k] leaves what the
    cache shows for [k] and the places of [k] in both queues as they
    were; and no notification changes which keys are tracked. *)
Theorem notifications_touch_named_keys_only c k entries keys :
  heap_ok c →
  Forall (λ ent, key ent ≠ k) entries → Forall (λ k', k' ≠ k) keys →
  (value_of k (onSet entries c) = value_of k c ∧
   _needs_fetch (onSet entries c) !! k = _needs_fetch c !! k ∧
   _needs_flush (onSet entries c) !! k = _needs_flush c !! k ∧
   _entries (onSet entries c) = _entries c) ∧
  (value_of k (onDelete keys c) = value_of k c ∧
   _needs_fetch (onDelete keys c) !! k = _needs_fetch c !! k ∧
   _needs_flush (onDelete keys c) !! k = _needs_flush c !! k ∧
   _entries (onDelete keys c) = _entries c).
Proof.
  intros Hh Hes Hks. split.
  - rewrite onSet_entries. unfold onSet. revert c Hh.
    induction Hes as [|x xs Hx _ IH]; intros c Hh; [done|]. simpl.
    destruct (IH (_update (key x) (Some (value x)) c)) as (-> & -> & -> & _);
      [by apply heap_ok_update|].
    by destruct (update_frame (key x) (Some (value x)) c k Hh Hx)
      as (-> & -> & ->).
  - rewrite onDelete_entries. unfold onDelete. revert c Hh.
    induction Hks as [|x xs Hx _ IH]; intros c Hh; [done|]. simpl.
    destruct (IH (_update x None c)) as (-> & -> & -> & _);
      [by apply heap_ok_update|].
    by destruct (update_frame x None c k Hh Hx) as (-> & -> & ->).
Qed.

(** *** What the cache sends to the wrapped store *)

Local Ltac no_new_call :=
  exists []; rewrite app_nil_r; split_and!; [done|simpl; lia|constructor].

Lemma batches_tracked_keys c0 c (batches : list (list K)) :
  _entries c0 = _entries c →
  Forall (λ k, is_Some (_entries c !! k)) (concat batches) →
  inflight_ok (fetch_next batches c0) ∧
  ∃ new, kvs_calls (fetch_next batches c0) = kvs_calls c0 ++ new ∧
         length new ≤ 1 ∧ Forall (call_ok c) new.
Proof.
  intros He Hb. destruct batches as [|b rest]; simpl.
  - split; [done|]. no_new_call.
  - simpl in Hb. apply Forall_app in Hb as [Hb Hrest]. split.
    + unfold inflight_ok. simpl. by rewrite He.
    + exists [KvsGet b]. split_and!; [done|simpl; lia|]. by repeat constructor.
Qed.

Lemma dirty_current_values c0 c (batch : list ref) :
  wf c → heap c0 = heap c →
  Forall (λ e, ∃ k, _entries c !! k = Some e) batch →
  call_ok c (KvsSet (omap (λ e, heap c0 !! e) batch)).
Proof.
  intros Hwf Hheap Hb. simpl. apply Forall_forall. intros ent Hent.
  apply list_elem_of_omap in Hent as (e & He & Hlook).
  rewrite Forall_forall in Hb. destruct (Hb e He) as (k & Hk).
  destruct (wf_entries c k e Hwf Hk) as [v Hv].
  rewrite Hheap, Hv in Hlook. simplify_eq/=. split; [by eauto|].
  unfold value_of, deref_value. rewrite Hk. simpl. by rewrite Hv.
Qed.

Lemma batches_tracked_objects c0 c (batches : list (list ref)) :
  wf c → heap c0 = heap c → _entries c0 = _entries c →
  Forall (λ e, ∃ k, _entries c !! k = Some e) (concat batches) →
  inflight_ok (flush_next batches c0) ∧
  ∃ new, kvs_calls (flush_next batches c0) = kvs_calls c0 ++ new ∧
         length new ≤ 1 ∧ Forall (call_ok c) new.
Proof.
  intros Hwf Hheap He Hb. destruct batches as [|b rest]; simpl.
  - split; [done|]. no_new_call.
  - simpl in Hb. apply Forall_app in Hb as [Hb Hrest]. split.
    + unfold inflight_ok. simpl. by rewrite He.
    + eexists [_]. split_and!; [done|simpl; lia|].
      repeat constructor. by apply dirty_current_values.
Qed.

Lemma io_loop_calls c :
  wf c →
  inflight_ok (io_loop c) ∧
  ∃ new, kvs_calls (io_loop c) = kvs_calls c ++ new ∧
         length new ≤ 1 ∧ Forall (call_ok c) new.
Proof.
  intros Hwf. unfold io_loop. case_decide.
  - unfold _fetch. apply (batches_tracked_keys (set_needs_fetch ∅ c) c); [done|].
    rewrite concat_batchesOf. apply Forall_forall.
    intros k [[k' e] [-> Hke]]%list_elem_of_fmap.
    apply elem_of_map_to_list in Hke. simpl.
    rewrite (wf_fetch c k' e Hwf Hke). eauto.
  - split; [done|]. no_new_call.
Qed.

(** One step, from a well-formed state whose suspended task holds
    tracked keys and objects only. *)
Lemma step_calls c ev :
  wf c → inflight_ok c →
  inflight_ok (step c ev) ∧
  ∃ new, kvs_calls (step c ev) = kvs_calls c ++ new ∧
         length new ≤ 1 ∧ Forall (call_ok c) new.
Proof.
  intros Hwf Hin. destruct (task_event ev) eqn:Hev.
  - destruct ev; try done; simpl; unfold inflight_ok in Hin.
    + destruct (_pending_io c) as [[]|] eqn:Hp;
        try (split; [by unfold inflight_ok; rewrite Hp|];
             no_new_call).
      * by apply io_loop_calls.
      * unfold _flush.
        apply (batches_tracked_objects (set_needs_flush ∅ c) c); try done.
        rewrite concat_batchesOf. apply Forall_forall.
        intros e [[k' e'] [-> Hke]]%list_elem_of_fmap.
        apply elem_of_map_to_list in Hke. exists k'.
        by apply (wf_flush c).
      * by apply io_loop_calls.
    + destruct (_pending_io c) as [[]|] eqn:Hp;
        try (split; [by unfold inflight_ok; rewrite Hp|];
             no_new_call).
      unfold fetch_resolved. change (foldl _ c entries) with (onSet entries c).
      destruct (batches_tracked_keys (onSet entries c) c rest)
        as (Hin' & new & Hnew & Hlen & Hok);
        [apply onSet_entries|done|].
      split; [done|]. exists new.
      by destruct (only_schedules_onSet entries c) as (_ & <- & _).
    + destruct (_pending_io c) as [[]|] eqn:Hp;
        try (split; [by unfold inflight_ok; rewrite Hp|];
             no_new_call).
      by apply batches_tracked_objects.
    + destruct (_pending_io c) as [[]|] eqn:Hp;
        (split; [by unfold inflight_ok; simpl; rewrite ?Hp|no_new_call]).
  - assert (Hev' : task_event ev = false) by done.
    destruct (only_schedules_step c ev Hev') as (_ & Hcalls & Hp).
    split; [|no_new_call].
    unfold inflight_ok in *. destruct Hp as [->|(_ & _ & ->)]; [|done].
    destruct (_pending_io c) as [[]|]; try done.
    + eapply Forall_impl; [done|]. intros k [e He]. simpl.
      rewrite (step_entries_tracked c ev k e He). eauto.
    + eapply Forall_impl; [done|]. intros e [k He]. simpl.
      exists k. by apply step_entries_tracked.
Qed.

Lemma inflight_ok_reachable evs : inflight_ok (run (new_cache (K:=K) (V:=V)) evs).
Proof.
  induction evs as [|ev evs IH] using rev_ind; [done|].
  rewrite run_snoc. by apply step_calls; [apply wf_reachable|].
Qed.

(** X7. Whatever a cache does, a step makes at most one call to the
    wrapped store, and that call is either a [get] of keys that are
    tracked or a [set] of entries each of which carries a tracked key
    and the value the cache shows for that key at that moment (never
    an older value of a key written twice, and nothing for keys nobody
    asked for). *)
Theorem cache_sends_tracked_current evs ev :
  ∃ new,
    kvs_calls (step (run new_cache evs) ev) = kvs_calls (run new_cache evs) ++ new ∧
    length new ≤ 1 ∧
    Forall (call_ok (run new_cache evs)) new.
Proof.
  apply step_calls; [apply wf_reachable|apply inflight_ok_reachable].
Qed.

(** *** Crashes lose what was taken *)

Lemma batchesOf_nonempty {A} size (items : list A) :
  items ≠ [] → batchesOf size items ≠ [].
Proof.
  intros Hne Hb. apply Hne. rewrite <-(concat_batchesOf size items).
  by rewrite Hb.
Qed.

(** X8. Dirty entries are dropped when the flush fails: if the task is
    about to flush a non-empty queue and the [kvs.set] it issues is
    rejected, then the crash is counted, no cycle is pending, and the
    flush queue is empty although nothing was written; the cache still
    shows the values, and a later [get] of such a key finds the entry
    without queuing anything. *)
Theorem rejected_flush_drops_dirty_entries c :
  _pending_io c = Some IoFetchDone → _needs_flush c ≠ ∅ →
  _pending_io (run c [IoResume; KvsRejected]) = None ∧
  _crash_count (run c [IoResume; KvsRejected]) = S (_crash_count c) ∧
  _needs_flush (run c [IoResume; KvsRejected]) = ∅ ∧
  _needs_fetch (run c [IoResume; KvsRejected]) = _needs_fetch c ∧
  heap (run c [IoResume; KvsRejected]) = heap c ∧
  _entries (run c [IoResume; KvsRejected]) = _entries c ∧
  (∃ dirty, kvs_calls (run c [IoResume; KvsRejected])
            = kvs_calls c ++ [KvsSet dirty]) ∧
  (∀ k e, _entries c !! k = Some e →
          get k (run c [IoResume; KvsRejected])
          = (e, run c [IoResume; KvsRejected])).
Proof.
  intros Hp Hne. unfold run. simpl. rewrite Hp. unfold _flush.
  destruct (batchesOf 100 (map_to_list (_needs_flush c)).*2)
    as [|b rest] eqn:Hb.
  { exfalso. eapply (batchesOf_nonempty 100); [|exact Hb].
    intros Hnil. apply fmap_nil_inv in Hnil.
    by apply map_to_list_empty_iff in Hnil. }
  simpl. split_and!; try done; [by eauto|].
  intros k e Hk. by apply get_tracked.
Qed.

(** X9. Stale entries stay stale when the fetch fails: if a cycle is
    armed with a non-empty fetch queue and the first [kvs.get] it
    issues is rejected, then the crash is counted, no cycle is pending,
    and the fetch queue is empty although no entry was updated; the
    flush queue is still as it was. A later [get] of a key that was
    waiting returns its entry as it is and queues no new fetch. *)
Theorem rejected_fetch_is_not_retried c :
  _pending_io c = Some IoScheduled → _needs_fetch c ≠ ∅ →
  _pending_io (run c [IoResume; KvsRejected]) = None ∧
  _crash_count (run c [IoResume; KvsRejected]) = S (_crash_count c) ∧
  _needs_fetch (run c [IoResume; KvsRejected]) = ∅ ∧
  _needs_flush (run c [IoResume; KvsRejected]) = _needs_flush c ∧
  heap (run c [IoResume; KvsRejected]) = heap c ∧
  _entries (run c [IoResume; KvsRejected]) = _entries c ∧
  (∃ batch, kvs_calls (run c [IoResume; KvsRejected])
            = kvs_calls c ++ [KvsGet batch]) ∧
  (∀ k e, _entries c !! k = Some e →
          get k (run c [IoResume; KvsRejected])
          = (e, run c [IoResume; KvsRejected])).
Proof.
  intros Hp Hne. unfold run. simpl. rewrite Hp. unfold io_loop.
  rewrite decide_True.
  2:{ left. apply map_size_non_empty_iff in Hne. lia. }
  unfold _fetch.
  destruct (batchesOf 100 (map_to_list (_needs_fetch c)).*1)
    as [|b rest] eqn:Hb.
  { exfalso. eapply (batchesOf_nonempty 100); [|exact Hb].
    intros Hnil. apply fmap_nil_inv in Hnil.
    by apply map_to_list_empty_iff in Hnil. }
  simpl. split_and!; try done; [by eauto|].
  intros k e Hk. by apply get_tracked.
Qed.

(** *** A cycle left to itself *)

Lemma drain_idle fuel answer c :
  _pending_io c = None → drain fuel answer c = c.
Proof. intros Hp. destruct fuel; [done|]. simpl. unfold next_task_event. by rewrite Hp. Qed.

Lemma drain_add n n' answer c :
  drain (n + n') answer c = drain n' answer (drain n answer c).
Proof.
  revert c. induction n as [|n IH]; intros c; [done|]. simpl.
  destruct (next_task_event answer c) as [ev|] eqn:Hev; [apply IH|].
  symmetry. apply drain_idle. unfold next_task_event in Hev.
  by destruct (_pending_io c) as [[]|].
Qed.

Lemma only_drains_refl c : only_drains c c.
Proof. by unfold only_drains. Qed.

Lemma only_drains_trans c1 c2 c3 :
  only_drains c1 c2 → only_drains c2 c3 → only_drains c1 c3.
Proof.
  unfold only_drains. intros (Hf1 & Hfl1 & Hc1 & He1) (Hf2 & Hfl2 & Hc2 & He2).
  split_and!; [by trans (_needs_fetch c2)|by trans (_needs_flush c2)|
               congruence..].
Qed.

Lemma only_drains_update k (v : option V) c : only_drains c (_update k v c).
Proof.
  unfold only_drains, _update. destruct (_entries c !! k); [|done]. simpl.
  split_and!; try done; apply delete_subseteq.
Qed.

Lemma only_drains_onSet entries c : only_drains c (onSet entries c).
Proof.
  unfold onSet. revert c.
  induction entries as [|x xs IH]; intros c; [apply only_drains_refl|].
  simpl. eapply only_drains_trans; [apply only_drains_update|apply IH].
Qed.

Lemma drain_S_fetching n answer (rest : list (list K)) c :
  _pending_io c = Some (IoFetching rest) →
  drain (S n) answer c
  = drain n answer (fetch_next rest (onSet (answer (requested c)) c)).
Proof.
  intros Hp. simpl. unfold next_task_event. rewrite Hp. simpl. by rewrite Hp.
Qed.

Lemma drain_S_flushing n answer (rest : list (list ref)) c :
  _pending_io c = Some (IoFlushing rest) →
  drain (S n) answer c = drain n answer (flush_next rest c).
Proof.
  intros Hp. simpl. unfold next_task_event. rewrite Hp. simpl. by rewrite Hp.
Qed.

(** The rest of a fetch pass: one resumption for each batch. *)
Lemma drain_fetching answer (rest : list (list K)) c :
  _pending_io c = Some (IoFetching rest) →
  _pending_io (drain (S (length rest)) answer c) = Some IoFetchDone ∧
  only_drains c (drain (S (length rest)) answer c).
Proof.
  revert c. induction rest as [|b rest IH]; intros c Hp;
    rewrite (drain_S_fetching _ _ _ _ Hp).
  - simpl. split; [done|]. apply only_drains_onSet.
  - cbn [fetch_next length].
    match goal with |- context [drain _ _ ?c1] => set (c' := c1) end.
    destruct (IH c') as [Hdone Hdr]; [done|]. split; [done|].
    eapply only_drains_trans; [|exact Hdr].
    apply (only_drains_onSet (answer (requested c)) c).
Qed.

Lemma drain_fetch_next answer (batches : list (list K)) c :
  _pending_io (drain (length batches) answer (fetch_next batches c))
  = Some IoFetchDone ∧
  only_drains c (drain (length batches) answer (fetch_next batches c)).
Proof.
  destruct batches as [|b rest]; [by split|].
  cbn [fetch_next length].
  match goal with |- context [drain _ _ ?c1] => set (c' := c1) end.
  destruct (drain_fetching answer rest c') as [Hdone Hdr]; [done|].
  split; [done|]. by eapply only_drains_trans; [|exact Hdr].
Qed.

(** The rest of a flush pass, likewise. *)
Lemma drain_flushing answer (rest : list (list ref)) c :
  _pending_io c = Some (IoFlushing rest) →
  _pending_io (drain (S (length rest)) answer c) = Some IoFlushDone ∧
  only_drains c (drain (S (length rest)) answer c).
Proof.
  revert c. induction rest as [|b rest IH]; intros c Hp;
    rewrite (drain_S_flushing _ _ _ _ Hp).
  - by split.
  - cbn [flush_next length].
    match goal with |- context [drain _ _ ?c1] => set (c' := c1) end.
    destruct (IH c') as [Hdone Hdr]; [done|]. split; [done|].
    by eapply only_drains_trans; [|exact Hdr].
Qed.

Lemma drain_flush_next answer (batches : list (list ref)) c :
  _pending_io (drain (length batches) answer (flush_next batches c))
  = Some IoFlushDone ∧
  only_drains c (drain (length batches) answer (flush_next batches c)).
Proof.
  destruct batches as [|b rest]; [by split|].
  cbn [flush_next length].
  match goal with |- context [drain _ _ ?c1] => set (c' := c1) end.
  destruct (drain_flushing answer rest c') as [Hdone Hdr]; [done|].
  split; [done|]. by eapply only_drains_trans; [|exact Hdr].
Qed.

Lemma length_batches_fill {A} size (cur items : list A) :
  length (batches_fill size cur items)
  ≤ length items + match cur with [] => 0 | _ => 1 end.
Proof.
  revert cur. induction items as [|x items IH]; intros cur; simpl.
  - destruct cur; simpl; lia.
  - case_decide; simpl.
    + specialize (IH []). simpl in IH. lia.
    + specialize (IH (x :: cur)). simpl in IH. lia.
Qed.

Lemma length_batchesOf {A} size (items : list A) :
  length (batchesOf size items) ≤ length items.
Proof.
  unfold batchesOf. pose proof (length_batches_fill size [] items). simpl in *.
  lia.
Qed.

Lemma onSet_frame_heap entries c k e :
  heap_ok c → _entries c !! k = Some e →
  Forall (λ ent, key ent ≠ k) entries →
  heap (onSet entries c) !! e = heap c !! e.
Proof.
  intros Hh Hk Hes. unfold onSet. revert c Hh Hk.
  induction Hes as [|x xs Hx _ IH]; intros c Hh Hk; [done|]. simpl.
  rewrite IH.
  - by destruct (update_other (key x) (Some (value x)) c k e Hh Hx Hk)
      as (-> & _).
  - by apply heap_ok_update.
  - by destruct (update_fields (key x) (Some (value x)) c) as (-> & _).
Qed.

(** Applying the answer to one batch. *)
Lemma resolve_batch c k e (batch : list K) stored answer :
  heap_ok c → _entries c !! k = Some e →
  delivered k (answer batch) = (if decide (k ∈ batch) then stored else None) →
  heap (onSet (answer batch) c) !! e
  = if decide (k ∈ batch) then fetched k stored (heap c !! e)
    else heap c !! e.
Proof.
  intros Hh Hk Hans.
  assert (Hnone : delivered k (answer batch) = None →
                  heap (onSet (answer batch) c) !! e = heap c !! e).
  { intros Hd. apply (onSet_frame_heap _ c k e); [done..|].
    unfold delivered in Hd. apply fmap_None, last_None in Hd.
    apply Forall_forall. intros x Hx Hkx.
    assert (x ∈ filter (λ y, key y = k) (answer batch)) as Hin
      by by apply list_elem_of_filter.
    rewrite Hd in Hin. by apply not_elem_of_nil in Hin. }
  case_decide; [|by apply Hnone].
  destruct stored as [v|]; [|by apply Hnone].
  by destruct (fetch_delivery c k e (answer batch) v Hh Hk Hans) as (-> & _).
Qed.

Lemma fetched_idemp k (stored : option V) h :
  fetched k stored (fetched k stored h) = fetched k stored h.
Proof. by destruct stored. Qed.

(** The fetch pass, for one key. *)
Lemma drain_fetching_value answer (rest : list (list K)) c batch k e stored :
  heap_ok c → _entries c !! k = Some e →
  _pending_io c = Some (IoFetching rest) → requested c = batch →
  (∀ keys, delivered k (answer keys) = if decide (k ∈ keys) then stored else None) →
  heap (drain (S (length rest)) answer c) !! e
  = if decide (k ∈ concat (batch :: rest))
    then fetched k stored (heap c !! e) else heap c !! e.
Proof.
  intros Hh Hk Hp Hreq Hans. revert c batch Hh Hk Hp Hreq.
  induction rest as [|b rest IH]; intros c batch Hh Hk Hp Hreq;
    rewrite (drain_S_fetching _ _ _ _ Hp), Hreq.
  - simpl. rewrite app_nil_r. by apply resolve_batch.
  - cbn [fetch_next length].
    match goal with |- context [drain _ _ ?c1] => set (c' := c1) end.
    rewrite (IH c' b).
    + change (heap c' !! e) with (heap (onSet (answer batch) c) !! e).
      rewrite (resolve_batch c k e batch stored answer Hh Hk (Hans batch)).
      cbn [concat].
      destruct (decide (k ∈ batch)) as [Hin|Hout].
      * rewrite fetched_idemp.
        rewrite (decide_True (P:=k ∈ batch ++ b ++ concat rest))
          by (apply elem_of_app; by left).
        by case_decide.
      * destruct (decide (k ∈ b ++ concat rest)) as [Hin'|Hout'].
        -- rewrite (decide_True (P:=k ∈ batch ++ b ++ concat rest));
             [done|]. apply elem_of_app. by right.
        -- rewrite (decide_False (P:=k ∈ batch ++ b ++ concat rest));
             [done|]. by intros [?|?]%elem_of_app.
    + by apply (heap_ok_onSet (answer batch) c).
    + subst c'. simpl. by rewrite onSet_entries.
    + done.
    + subst c'. unfold requested. simpl. by rewrite last_snoc.
Qed.

Lemma drain_fetch_next_value answer (batches : list (list K)) c k e stored :
  heap_ok c → _entries c !! k = Some e →
  (∀ keys, delivered k (answer keys) = if decide (k ∈ keys) then stored else None) →
  heap (drain (length batches) answer (fetch_next batches c)) !! e
  = if decide (k ∈ concat batches)
    then fetched k stored (heap c !! e) else heap c !! e.
Proof.
  intros Hh Hk Hans. destruct batches as [|b rest].
  { cbn [fetch_next length drain concat].
    destruct (decide (k ∈ [])) as [Hin|]; [by apply not_elem_of_nil in Hin|done]. }
  cbn [fetch_next length].
  match goal with |- context [drain _ _ ?c1] => set (c' := c1) end.
  rewrite (drain_fetching_value answer rest c' b k e stored); try done.
  subst c'. unfold requested. simpl. by rewrite last_snoc.
Qed.

Lemma flush_next_heap (batches : list (list ref)) c :
  heap (flush_next batches c) = heap c.
Proof. by destruct batches. Qed.

Lemma drain_flush_next_heap answer (batches : list (list ref)) c :
  heap (drain (length batches) answer (flush_next batches c)) = heap c.
Proof.
  revert c. induction batches as [|b rest IH]; intros c; [done|].
  cbn [flush_next length].
  rewrite (drain_S_flushing _ answer rest) by done.
  by rewrite (IH _).
Qed.

(** One whole cycle, from the moment it is armed. *)
Lemma drain_cycle answer c :
  _pending_io c = Some IoScheduled →
  ∃ n, n ≤ size (_needs_fetch c) + size (_needs_flush c) + 3 ∧
       _pending_io (drain n answer c) = None ∧
       _needs_fetch (drain n answer c) = ∅ ∧
       _needs_flush (drain n answer c) = ∅ ∧
       _crash_count (drain n answer c) = _crash_count c ∧
       _entries (drain n answer c) = _entries c ∧
       (∀ k e stored,
          heap_ok c → _entries c !! k = Some e →
          (∀ keys, delivered k (answer keys)
                   = if decide (k ∈ keys) then stored else None) →
          heap (drain n answer c) !! e
          = if decide (is_Some (_needs_fetch c !! k))
            then fetched k stored (heap c !! e) else heap c !! e).
Proof.
  intros Hp.
  assert (Hfirst : ∀ n, drain (S n) answer c = drain n answer (io_loop c)).
  { intros n. simpl. unfold next_task_event. rewrite Hp. simpl.
    by rewrite Hp. }
  unfold io_loop in Hfirst. case_decide as Hwork.
  2:{ exists 1. rewrite Hfirst. simpl.
      assert (size (_needs_fetch c) = 0 ∧ size (_needs_flush c) = 0)
        as [Hf Hfl] by lia.
      apply map_size_empty_inv in Hf, Hfl. split_and!; try done; [lia|].
      intros k e stored _ _ _. rewrite Hf, lookup_empty.
      by rewrite decide_False by (by intros [? ?]). }
  unfold _fetch in Hfirst.
  set (fb := batchesOf 100 (map_to_list (_needs_fetch c)).*1) in *.
  set (c0 := fetch_next fb (set_needs_fetch ∅ c)) in *.
  destruct (drain_fetch_next answer fb (set_needs_fetch ∅ c))
    as [Hp1 (Hf1 & Hfl1 & Hc1 & He1)].
  fold c0 in Hp1, Hf1, Hfl1, Hc1, He1.
  set (c1 := drain (length fb) answer c0) in *. simpl in Hf1, Hfl1, Hc1, He1.
  assert (Hf1' : _needs_fetch c1 = ∅).
  { apply map_empty. intros k.
    destruct (_needs_fetch c1 !! k) eqn:Hk; [|done].
    eapply lookup_weaken in Hk; [|exact Hf1]. by rewrite lookup_empty in Hk. }
  assert (Hsecond : ∀ n, drain (S n) answer c1 = drain n answer (_flush c1)).
  { intros n. simpl. unfold next_task_event. rewrite Hp1. simpl.
    by rewrite Hp1. }
  unfold _flush in Hsecond.
  set (lb := batchesOf 100 (map_to_list (_needs_flush c1)).*2) in *.
  destruct (drain_flush_next answer lb (set_needs_flush ∅ c1))
    as [Hp2 (Hf2 & Hfl2 & Hc2 & He2)].
  pose proof (drain_flush_next_heap answer lb (set_needs_flush ∅ c1)) as Hh2.
  set (c2 := drain (length lb) answer (flush_next lb (set_needs_flush ∅ c1))) in *.
  simpl in Hf2, Hfl2, Hc2, He2, Hh2.
  assert (Hfl2' : _needs_flush c2 = ∅).
  { apply map_empty. intros k.
    destruct (_needs_flush c2 !! k) eqn:Hk; [|done].
    eapply lookup_weaken in Hk; [|exact Hfl2]. by rewrite lookup_empty in Hk. }
  assert (Hf2' : _needs_fetch c2 = ∅).
  { apply map_empty. intros k.
    destruct (_needs_fetch c2 !! k) eqn:Hk; [|done].
    eapply lookup_weaken in Hk; [|exact Hf2].
    by rewrite Hf1', lookup_empty in Hk. }
  assert (Hthird : drain 1 answer c2 = set_pending_io None c2).
  { simpl. unfold next_task_event. rewrite Hp2. simpl. rewrite Hp2.
    unfold io_loop. rewrite decide_False; [done|].
    rewrite Hf2', Hfl2', map_size_empty. lia. }
  exists (S (length fb) + (S (length lb) + 1)).
  assert (Hrun : drain (S (length fb) + (S (length lb) + 1)) answer c
                 = set_pending_io None c2).
  { change (S (length fb) + (S (length lb) + 1))
      with (S (length fb + (S (length lb) + 1))).
    rewrite Hfirst, drain_add. fold c1.
    change (S (length lb) + 1) with (S (length lb + 1)).
    rewrite Hsecond, drain_add. fold c2. exact Hthird. }
  rewrite Hrun. simpl. split_and!; try done; try congruence.
  - pose proof (length_batchesOf 100 (map_to_list (_needs_fetch c)).*1) as Hlf.
    pose proof (length_batchesOf 100 (map_to_list (_needs_flush c1)).*2) as Hll.
    rewrite length_fmap, length_map_to_list in Hlf.
    rewrite length_fmap, length_map_to_list in Hll.
    pose proof (map_subseteq_size _ _ Hfl1) as Hsz.
    fold fb in Hlf. fold lb in Hll. lia.
  - intros k e stored Hh Hk Hans. rewrite Hh2. subst c1 c0.
    rewrite (drain_fetch_next_value answer fb (set_needs_fetch ∅ c) k e stored)
      by done.
    simpl. subst fb. rewrite concat_batchesOf.
    assert (k ∈ (map_to_list (_needs_fetch c)).*1 ↔
            is_Some (_needs_fetch c !! k)) as Hiff.
    { rewrite list_elem_of_fmap. split.
      - intros [[k' e'] [-> Hin]]. apply elem_of_map_to_list in Hin. eauto.
      - intros [e' He']. exists (k, e'). split; [done|].
        by apply elem_of_map_to_list. }
    repeat case_decide; try done; by exfalso; tauto.
Qed.

(** X10. A cycle left to itself ends after one pass. Let a cycle be
    armed, and let the wrapped store answer every call (whatever its
    [get] answers) while nothing else happens. Then within
    [size fetch queue + size flush queue + 3] resumptions the cycle is
    over: no cycle is pending (so [sync()] has nothing to wait for), both
    queues are empty, no crash has been counted and the same keys are
    tracked; and more resumptions change nothing. *)
Theorem cycle_runs_to_quiescence answer c fuel :
  _pending_io c = Some IoScheduled →
  size (_needs_fetch c) + size (_needs_flush c) + 3 ≤ fuel →
  sync (drain fuel answer c) = None ∧
  _needs_fetch (drain fuel answer c) = ∅ ∧
  _needs_flush (drain fuel answer c) = ∅ ∧
  _crash_count (drain fuel answer c) = _crash_count c ∧
  _entries (drain fuel answer c) = _entries c.
Proof.
  intros Hp Hfuel.
  destruct (drain_cycle answer c Hp)
    as (n & Hn & Hp' & Hf & Hfl & Hcc & He & _).
  replace fuel with (n + (fuel - n)) by lia.
  rewrite drain_add, (drain_idle _ _ _ Hp'). by unfold sync.
Qed.

(** X11. Read-through. Let a cycle be armed on a well-formed cache, let
    the wrapped store answer every call, its [get] carrying for [k] the
    value [stored] when [k] is among the keys asked for and the store
    has one, and nothing for [k] otherwise, and let nothing else happen.
    Once the cycle is over, a key [k] that was in the fetch queue shows
    the store's value when the store has one, and what it showed before
    when the store has none (unset for a key that was only read, the
    inserted value after [maybeInsert]); a tracked key that was not in
    the fetch queue shows what it showed before. *)
Theorem fetch_shows_store_value answer c k e stored fuel :
  wf c → _pending_io c = Some IoScheduled → _entries c !! k = Some e →
  (∀ keys, delivered k (answer keys) = if decide (k ∈ keys) then stored else None) →
  size (_needs_fetch c) + size (_needs_flush c) + 3 ≤ fuel →
  value_of k (drain fuel answer c)
  = if decide (is_Some (_needs_fetch c !! k))
    then match stored with Some v => Some v | None => value_of k c end
    else value_of k c.
Proof.
  intros [Hh _] Hp Hk Hans Hfuel.
  destruct (drain_cycle answer c Hp)
    as (n & Hn & Hp' & _ & _ & _ & He & Hheap).
  replace fuel with (n + (fuel - n)) by lia.
  rewrite drain_add, (drain_idle _ _ _ Hp').
  unfold value_of, deref_value. rewrite He, Hk. simpl.
  rewrite (Hheap k e stored Hh Hk Hans).
  case_decide; [|done]. by destruct stored.
Qed.

(** *** Write-back *)

Lemma onSet_frame_flush entries c k :
  heap_ok c → Forall (λ ent, key ent ≠ k) entries →
  _needs_flush (onSet entries c) !! k = _needs_flush c !! k.
Proof.
  intros Hh Hes. unfold onSet. revert c Hh.
  induction Hes as [|x xs Hx _ IH]; intros c Hh; [done|]. simpl.
  rewrite IH by by apply heap_ok_update.
  by destruct (update_frame (key x) (Some (value x)) c k Hh Hx) as (_ & _ & ->).
Qed.

Lemma delivered_None k (entries : list (Entry K V)) :
  delivered k entries = None → Forall (λ ent, key ent ≠ k) entries.
Proof.
  unfold delivered. intros Hd%fmap_None%last_None.
  apply Forall_forall. intros x Hx Hkx.
  assert (x ∈ filter (λ y, key y = k) entries) as Hin
    by by apply list_elem_of_filter.
  rewrite Hd in Hin. by apply not_elem_of_nil in Hin.
Qed.

Lemma elem_of_concat {A} (x : A) (ls : list (list A)) :
  x ∈ concat ls → ∃ l, x ∈ l ∧ l ∈ ls.
Proof.
  induction ls as [|l ls IH]; simpl; [by intros ?%not_elem_of_nil|].
  intros [Hx|Hx]%elem_of_app.
  - exists l. split; [done|]. apply list_elem_of_here.
  - destruct (IH Hx) as (l' & Hl' & Hin). exists l'. split; [done|].
    by apply list_elem_of_further.
Qed.

(** The fetch pass leaves a key that no answer mentions in the flush
    queue. *)
Lemma drain_fetching_flush answer (rest : list (list K)) c k :
  heap_ok c → _pending_io c = Some (IoFetching rest) →
  (∀ keys, delivered k (answer keys) = None) →
  _needs_flush (drain (S (length rest)) answer c) !! k = _needs_flush c !! k.
Proof.
  intros Hh Hp Hans. revert c Hh Hp.
  induction rest as [|b rest IH]; intros c Hh Hp;
    rewrite (drain_S_fetching _ _ _ _ Hp).
  - simpl. apply onSet_frame_flush; [done|]. apply delivered_None, Hans.
  - cbn [fetch_next length].
    match goal with |- context [drain _ _ ?c1] => set (c' := c1) end.
    rewrite (IH c').
    + subst c'. simpl. apply onSet_frame_flush; [done|].
      apply delivered_None, Hans.
    + by apply (heap_ok_onSet (answer (requested c)) c).
    + done.
Qed.

Lemma drain_fetch_next_flush answer (batches : list (list K)) c k :
  heap_ok c → (∀ keys, delivered k (answer keys) = None) →
  _needs_flush (drain (length batches) answer (fetch_next batches c)) !! k
  = _needs_flush c !! k.
Proof.
  intros Hh Hans. destruct batches as [|b rest]; [done|].
  cbn [fetch_next length].
  match goal with |- context [drain _ _ ?c1] => set (c' := c1) end.
  by rewrite (drain_fetching_flush answer rest c' k).
Qed.

(** The flush pass sends its batches in order, each as the objects read
    when it is sent. *)
Lemma drain_flushing_calls answer (rest : list (list ref)) c :
  _pending_io c = Some (IoFlushing rest) →
  kvs_calls (drain (S (length rest)) answer c)
  = kvs_calls c ++ ((λ b, KvsSet (omap (λ e, heap c !! e) b)) <$> rest).
Proof.
  revert c. induction rest as [|b rest IH]; intros c Hp;
    rewrite (drain_S_flushing _ _ _ _ Hp).
  - simpl. by rewrite app_nil_r.
  - cbn [flush_next length].
    match goal with |- context [drain _ _ ?c1] => set (c' := c1) end.
    rewrite (IH c') by done. subst c'. simpl. by rewrite <-app_assoc.
Qed.

Lemma drain_flush_next_calls answer (batches : list (list ref)) c :
  kvs_calls (drain (length batches) answer (flush_next batches c))
  = kvs_calls c ++ ((λ b, KvsSet (omap (λ e, heap c !! e) b)) <$> batches).
Proof.
  destruct batches as [|b rest]; [simpl; by rewrite app_nil_r|].
  cbn [flush_next length].
  match goal with |- context [drain _ _ ?c1] => set (c' := c1) end.
  rewrite (drain_flushing_calls answer rest c') by done.
  subst c'. simpl. by rewrite <-app_assoc.
Qed.

Lemma drain_fetch_next_prefix answer (batches : list (list K)) c :
  ∃ new, kvs_calls (drain (length batches) answer (fetch_next batches c))
         = kvs_calls c ++ new.
Proof.
  revert c. induction batches as [|b rest IH]; intros c.
  - exists []. simpl. by rewrite app_nil_r.
  - cbn [fetch_next length].
    match goal with |- context [drain _ _ ?c1] => set (c' := c1) end.
    rewrite (drain_S_fetching _ answer rest c') by done.
    destruct (IH (onSet (answer (requested c')) c')) as [new Hnew].
    rewrite Hnew. exists (KvsGet b :: new).
    assert (Hcalls : ∀ entries r, kvs_calls (onSet entries r) = kvs_calls r).
    { intros entries. unfold onSet.
      induction entries as [|x xs IHx]; intros r; [done|]. simpl.
      rewrite IHx. by destruct (update_fields (key x) (Some (value x)) r)
        as (_ & _ & _ & ->). }
    rewrite Hcalls. subst c'. simpl. by rewrite <-app_assoc.
Qed.

(** X12. Write-back. Let a cycle be armed on a well-formed cache with
    [k] in the flush queue (as [set(k, v)] leaves it), let the wrapped
    store answer every call, its [get] answers carrying no entry for
    [k], and let nothing else happen. Then by the end of the cycle the
    cache has called [kvs.set] with a batch that holds the entry of [k]
    with the value the cache showed for it when the cycle was armed. *)
Theorem queued_write_reaches_store answer c k e fuel :
  wf c → _pending_io c = Some IoScheduled → _needs_flush c !! k = Some e →
  (∀ keys, delivered k (answer keys) = None) →
  size (_needs_fetch c) + size (_needs_flush c) + 3 ≤ fuel →
  ∃ earlier entries later,
    kvs_calls (drain fuel answer c)
    = kvs_calls c ++ earlier ++ [KvsSet entries] ++ later ∧
    mkEntry k (value_of k c) ∈ entries.
Proof.
  intros Hwf Hp Hk Hans Hfuel.
  pose proof (wf_flush c k e Hwf Hk) as Hek.
  destruct (wf_entries c k e Hwf Hek) as [v Hv].
  destruct Hwf as [Hh _].
  assert (Hfirst : ∀ n, drain (S n) answer c = drain n answer (io_loop c)).
  { intros n. simpl. unfold next_task_event. rewrite Hp. simpl.
    by rewrite Hp. }
  unfold io_loop in Hfirst. rewrite decide_True in Hfirst.
  2:{ right. apply Nat.neq_0_lt_0. intros Hz%map_size_empty_inv.
      by rewrite Hz, lookup_empty in Hk. }
  unfold _fetch in Hfirst.
  set (fb := batchesOf 100 (map_to_list (_needs_fetch c)).*1) in *.
  set (c0 := fetch_next fb (set_needs_fetch ∅ c)) in *.
  destruct (drain_fetch_next answer fb (set_needs_fetch ∅ c))
    as [Hp1 (Hf1 & Hfl1 & _ & He1)].
  destruct (drain_fetch_next_prefix answer fb (set_needs_fetch ∅ c))
    as [gets Hgets].
  pose proof (drain_fetch_next_flush answer fb (set_needs_fetch ∅ c) k Hh Hans)
    as Hk1.
  pose proof (drain_fetch_next_value answer fb (set_needs_fetch ∅ c) k e None
                Hh Hek) as Hv1.
  fold c0 in Hp1, Hf1, Hfl1, He1, Hgets, Hk1, Hv1.
  set (c1 := drain (length fb) answer c0) in *.
  simpl in Hf1, Hfl1, He1, Hgets, Hk1, Hv1.
  rewrite Hk in Hk1.
  assert (Hf1' : _needs_fetch c1 = ∅).
  { apply map_empty. intros k'.
    destruct (_needs_fetch c1 !! k') eqn:Hk'; [|done].
    eapply lookup_weaken in Hk'; [|exact Hf1]. by rewrite lookup_empty in Hk'. }
  assert (Hheap1 : heap c1 !! e = Some (mkEntry k v)).
  { rewrite Hv1.
    - by destruct (decide (k ∈ concat fb)).
    - intros keys. rewrite Hans. by destruct (decide (k ∈ keys)). }
  assert (Hsecond : ∀ n, drain (S n) answer c1 = drain n answer (_flush c1)).
  { intros n. simpl. unfold next_task_event. rewrite Hp1. simpl.
    by rewrite Hp1. }
  unfold _flush in Hsecond.
  set (lb := batchesOf 100 (map_to_list (_needs_flush c1)).*2) in *.
  destruct (drain_flush_next answer lb (set_needs_flush ∅ c1))
    as [Hp2 (Hf2 & Hfl2 & _ & _)].
  pose proof (drain_flush_next_calls answer lb (set_needs_flush ∅ c1)) as Hsets.
  set (c2 := drain (length lb) answer (flush_next lb (set_needs_flush ∅ c1))) in *.
  simpl in Hsets, Hf2, Hfl2.
  assert (Hfl2' : _needs_flush c2 = ∅).
  { apply map_empty. intros k'.
    destruct (_needs_flush c2 !! k') eqn:Hk'; [|done].
    eapply lookup_weaken in Hk'; [|exact Hfl2].
    by rewrite lookup_empty in Hk'. }
  assert (Hf2' : _needs_fetch c2 = ∅).
  { apply map_empty. intros k'.
    destruct (_needs_fetch c2 !! k') eqn:Hk'; [|done].
    eapply lookup_weaken in Hk'; [|exact Hf2].
    by rewrite Hf1', lookup_empty in Hk'. }
  pose proof (length_batchesOf 100 (map_to_list (_needs_fetch c)).*1) as Hlf.
  pose proof (length_batchesOf 100 (map_to_list (_needs_flush c1)).*2) as Hll.
  rewrite length_fmap, length_map_to_list in Hlf.
  rewrite length_fmap, length_map_to_list in Hll.
  pose proof (map_subseteq_size _ _ Hfl1) as Hsz.
  fold fb in Hlf. fold lb in Hll.
  assert (Hin : e ∈ concat lb).
  { subst lb. rewrite concat_batchesOf. apply list_elem_of_fmap.
    exists (k, e). split; [done|]. by apply elem_of_map_to_list. }
  apply elem_of_concat in Hin as (b & Heb & Hb).
  apply list_elem_of_split in Hb as (lb1 & lb2 & Hlb).
  assert (Hrun : ∃ rest, kvs_calls (drain fuel answer c)
                         = kvs_calls c2 ++ rest).
  { exists [].
    replace fuel
      with (S (length fb)
            + (S (length lb) + S (fuel - S (length fb) - S (length lb) - 1)))
      by lia.
    change (S (length fb) + ?x) with (S (length fb + x)).
    rewrite Hfirst, drain_add. fold c0 c1.
    change (S (length lb) + ?x) with (S (length lb + x)).
    rewrite Hsecond, drain_add. fold c2.
    generalize (fuel - S (length fb) - S (length lb) - 1). intros n.
    simpl. unfold next_task_event. rewrite Hp2. simpl. rewrite Hp2.
    unfold io_loop. rewrite decide_False.
    - rewrite drain_idle by done. simpl. by rewrite app_nil_r.
    - rewrite Hf2', Hfl2', map_size_empty. lia. }
  destruct Hrun as [rest Hrest].
  exists (gets ++ ((λ b, KvsSet (omap (λ e, heap c1 !! e) b)) <$> lb1)),
    (omap (λ e, heap c1 !! e) b), (((λ b, KvsSet (omap (λ e, heap c1 !! e) b)) <$> lb2) ++ rest).
  split.
  - rewrite Hrest, Hsets, Hgets, Hlb, fmap_app, fmap_cons.
    simpl. by rewrite <-!app_assoc.
  - apply list_elem_of_omap. exists e. split; [done|].
    rewrite Hheap1. unfold value_of, deref_value. rewrite Hek. simpl.
    by rewrite Hv.
Qed.

End CacheMore.

(** * Further properties of the client *)

Section ClientMore.
Context {Msg Resp : Type}.
Implicit Types (port : port_behaviour (Msg:=Msg) (Resp:=Resp)) (msg : Msg).

(** The loop from any of its iterations: it stops at the first attempt
    that does not fail in transport, or at the last one it has. *)
Lemma retry_loop_shape port msg attempt retries :
  attempt + retries = 10 →
  ∃ n, n ≤ retries ∧
    (∀ i, attempt ≤ i < attempt + n → is_transport_failure (port i msg) = true) ∧
    (n = retries ∨ is_transport_failure (port (attempt + n) msg) = false) ∧
    retry_loop port msg attempt retries
    = (flat_map (λ i, [Request msg; Sleep (Z.of_nat i * 100)]) (seq attempt n)
         ++ [Request msg],
       port (attempt + n) msg).
Proof.
  revert attempt. induction retries as [|retries IH]; intros attempt Hsum.
  - exists 0. rewrite Nat.add_0_r. split_and!; [done|intros i; lia|by left|].
    simpl. destruct (port attempt msg) as [|e]; [done|].
    by destruct (is_NanoPortError e).
  - destruct (is_transport_failure (port attempt msg)) eqn:Hfail.
    + destruct (IH (S attempt)) as (n & Hn & Hfails & Hlast & Hrun); [lia|].
      exists (S n). replace (attempt + S n) with (S attempt + n) by lia.
      split_and!; [lia| |destruct Hlast; [left; lia|by right]|].
      * intros i Hi. destruct (decide (i = attempt)) as [->|]; [done|].
        apply Hfails. lia.
      * cbn [retry_loop]. destruct (port attempt msg) as [|e]; [done|].
        simpl in Hfail. rewrite Hfail, Hrun. cbn [negb seq flat_map app].
        do 3 f_equal. f_equal. lia.
    + exists 0. rewrite Nat.add_0_r.
      split_and!; [lia|intros i; lia|by right|].
      cbn [retry_loop]. destruct (port attempt msg) as [|e]; [done|].
      simpl in Hfail. by rewrite Hfail.
Qed.

(** X13. Every call of [_request_with_retry], on any port: it makes the
    same request [n + 1] times for some [n <= 10], namely the number of
    leading attempts that fail in transport (at most 10), waiting
    [i * 100] ms after the failed attempt number [i]; it settles as its
    last request does (response or error); and it never waits more than
    4500 ms in all. *)
Theorem request_with_retry_shape port msg :
  ∃ n, n ≤ 10 ∧
    (∀ i, i < n → is_transport_failure (port i msg) = true) ∧
    (n = 10 ∨ is_transport_failure (port n msg) = false) ∧
    _request_with_retry port msg
    = (failed_attempts msg n ++ [Request msg], port n msg) ∧
    requests (_request_with_retry port msg).1 = S n ∧
    (0 ≤ total_sleep (_request_with_retry port msg).1 ≤ 4500)%Z.
Proof.
  destruct (retry_loop_shape port msg 0 10 eq_refl)
    as (n & Hn & Hfails & Hlast & Hrun).
  exists n. change (0 + n) with n in Hlast, Hrun.
  unfold _request_with_retry, failed_attempts.
  rewrite Hrun. split_and!; try done.
  - intros i Hi. apply Hfails. lia.
  - cbn [fst]. fold (failed_attempts msg n).
    rewrite requests_failed_attempts, requests_cons_request. cbn. lia.
  - cbn [fst]. rewrite total_sleep_failed_attempts. cbn [total_sleep foldr].
    assert (0 ≤ Z.of_nat n * (Z.of_nat n - 1) / 2)%Z
      by (apply Z.div_pos; nia).
    lia.
  - cbn [fst]. rewrite total_sleep_failed_attempts. cbn [total_sleep foldr].
    assert (Z.of_nat n * (Z.of_nat n - 1) / 2 ≤ 45)%Z; [|lia].
    apply Z.div_le_upper_bound; nia.
Qed.

End ClientMore.

Section ClientApiFacts.
Context {K V : Type}.
Implicit Types (port : ClientApi.port_of (K:=K) (V:=V)).
Implicit Types (msg : ClientApi.ClientMsg (K:=K) (V:=V)).
Implicit Types (st : ClientApi.Conn (K:=K) (V:=V)).

Lemma read_with_retry_after_failures port msg n resp :
  n ≤ 10 →
  (∀ i, i < n → is_transport_failure (port i msg) = true) →
  port n msg = Resolved resp →
  ClientApi.read_with_retry port msg
  = (failed_attempts msg n ++ [Request msg],
     Resolved (ClientApi.entries_of resp)).
Proof.
  intros Hn Hfail Hp. unfold ClientApi.read_with_retry.
  by rewrite (transport_errors_then_success port msg n resp Hn Hfail Hp).
Qed.

Lemma write_with_retry_after_failures port msg n resp :
  n ≤ 10 →
  (∀ i, i < n → is_transport_failure (port i msg) = true) →
  port n msg = Resolved resp →
  ClientApi.write_with_retry port msg
  = (failed_attempts msg n ++ [Request msg], Resolved tt).
Proof.
  intros Hn Hfail Hp. unfold ClientApi.write_with_retry.
  by rewrite (transport_errors_then_success port msg n resp Hn Hfail Hp).
Qed.

(** X14. The reading methods of the client ride out up to 10 transport
    failures and never fail on the shape of a response. If the attempts
    number 0 to [n - 1] of [get keys] fail in transport ([n <= 10]) and
    the attempt number [n] gets a response, [get] has sent the request
    [{get, keys}] [n + 1] times, with the waits of the retry loop, and
    resolves with the entries of the response when it is a [set] and with
    no entries when it is anything else; likewise [getStartingFrom] and
    [getEndingAt] with their requests. *)
Theorem reads_survive_transport_failures port n keys bound limit :
  n ≤ 10 →
  (∀ msg i, i < n → is_transport_failure (port i msg) = true) →
  (∀ msg, ∃ resp, port n msg = Resolved resp) →
  (∃ resp, port n (ClientApi.MsgGet keys) = Resolved resp ∧
     ClientApi.get port keys
     = (failed_attempts (ClientApi.MsgGet keys) n
          ++ [Request (ClientApi.MsgGet keys)],
        Resolved (match resp with ClientApi.SvcSet entries => entries | _ => [] end))) ∧
  (∃ resp, port n (ClientApi.MsgGetStartingFrom bound limit) = Resolved resp ∧
     ClientApi.getStartingFrom port bound limit
     = (failed_attempts (ClientApi.MsgGetStartingFrom bound limit) n
          ++ [Request (ClientApi.MsgGetStartingFrom bound limit)],
        Resolved (match resp with ClientApi.SvcSet entries => entries | _ => [] end))) ∧
  (∃ resp, port n (ClientApi.MsgGetEndingAt bound limit) = Resolved resp ∧
     ClientApi.getEndingAt port bound limit
     = (failed_attempts (ClientApi.MsgGetEndingAt bound limit) n
          ++ [Request (ClientApi.MsgGetEndingAt bound limit)],
        Resolved (match resp with ClientApi.SvcSet entries => entries | _ => [] end))).
Proof.
  intros Hn Hfail Hresp. split_and!.
  - destruct (Hresp (ClientApi.MsgGet keys)) as [resp Hr]. exists resp.
    split; [done|].
    by apply read_with_retry_after_failures; [|intros; apply Hfail|].
  - destruct (Hresp (ClientApi.MsgGetStartingFrom bound limit)) as [resp Hr].
    exists resp. split; [done|].
    by apply read_with_retry_after_failures; [|intros; apply Hfail|].
  - destruct (Hresp (ClientApi.MsgGetEndingAt bound limit)) as [resp Hr].
    exists resp. split; [done|].
    by apply read_with_retry_after_failures; [|intros; apply Hfail|].
Qed.

(** X15. The writing methods resolve whatever the response is, and
    surface an error that is not a transport error at once. If the
    attempts number 0 to [n - 1] fail in transport ([n <= 10]) and the
    attempt number [n] gets any response, [set], [delete] and [deleteAll]
    resolve after [n + 1] requests; if the attempt number [n] is rejected
    with an error that is not a transport error, they reject with that
    error after [n + 1] requests, the last effect being the rejected
    request. *)
Theorem writes_settle_as_last_attempt port n msg :
  n ≤ 10 →
  (∀ i, i < n → is_transport_failure (port i msg) = true) →
  is_transport_failure (port n msg) = false →
  ClientApi.write_with_retry port msg
  = (failed_attempts msg n ++ [Request msg],
     match port n msg with
     | Resolved _ => Resolved tt
     | Rejected e => Rejected e
     end) ∧
  (∀ entries, msg = ClientApi.MsgSet entries →
     ClientApi.set port entries = ClientApi.write_with_retry port msg) ∧
  (∀ keys, msg = ClientApi.MsgDelete keys →
     ClientApi.delete port keys = ClientApi.write_with_retry port msg) ∧
  (msg = ClientApi.MsgDeleteAll →
     ClientApi.deleteAll port = ClientApi.write_with_retry port msg).
Proof.
  intros Hn Hfail Hlast. split_and!; [|by intros ? ->..|by intros ->].
  destruct (port n msg) as [resp|e] eqn:Hp.
  - by apply (write_with_retry_after_failures port msg n resp).
  - simpl in Hlast. unfold ClientApi.write_with_retry, _request_with_retry.
    rewrite (retry_loop_transport_failures port msg n 0 10)
      by (try lia; intros i Hi; apply Hfail; lia).
    simpl. by rewrite (retry_loop_service_error port msg n (10 - n) e).
Qed.

Lemma port_run_snoc st evs ev :
  ClientApi.port_run st (evs ++ [ev])
  = ClientApi.port_step (ClientApi.port_run st evs) ev.
Proof. unfold ClientApi.port_run. by rewrite foldl_app. Qed.


End ClientApiFacts.

(** * Further properties of listing *)

Section ListingMore.
Context {K V : Type}.
Implicit Types (getChunk : option K → nat → list (Entry K V)) (bound : option K).

(** X17. [genericList] stops at the first empty page and at nothing else.
    Driven for [fuel] iterations from [bound], either it has completed,
    and then the page it asked for last, from the key of the last entry
    it yielded (from [bound] itself when it yielded nothing), was empty;
    or it has not, and then it has yielded at least [fuel] entries, one
    non-empty page for each iteration: over a [getChunk] that never
    returns an empty page it never completes. *)
Theorem genericList_stops_at_empty_page fuel getChunk bound :
  let '(yielded, completed) := genericList fuel getChunk bound in
  if completed
  then getChunk (match last yielded with
                 | Some e => Some (key e)
                 | None => bound
                 end) 100 = []
  else fuel ≤ length yielded.
Proof.
  revert bound. induction fuel as [|fuel IH]; intros bound; simpl; [lia|].
  case_decide as Hlen; [by apply nil_length_inv|].
  specialize (IH (key <$> last (getChunk bound 100))).
  destruct (genericList fuel getChunk (key <$> last (getChunk bound 100)))
    as [more completed].
  destruct completed.
  - rewrite last_app. destruct (last more) as [e|]; [done|].
    destruct (last (getChunk bound 100)) as [e|] eqn:Hlast; [done|].
    apply last_None in Hlast. by rewrite Hlast in Hlen.
  - rewrite length_app. destruct (getChunk bound 100); simpl in *; [done|lia].
Qed.

End ListingMore.

(** * Properties of the containers model *)

Import Containers.

Section ContainerFacts.
Implicit Types (m : Model) (c o : Container) (k : string) (r : ref).
Implicit Types (ev : browser_event) (attempts retries rest : list attempt).

(** After its six assignments the object reads as the container of the
    event, whatever it read before. *)
Lemma assign_fields_all c o : assign_fields c o = c.
Proof. by destruct c. Qed.

Lemma keyed_lookup m k r :
  keyed m → containers m !! k = Some r →
  ∃ o, objects m !! r = Some o ∧ cookieStoreId o = k.
Proof.
  intros Hm Hk. specialize (Hm k r Hk). simpl in Hm.
  destruct (objects m !! r) as [o|]; [|done]. exists o. by simplify_eq/=.
Qed.

Lemma keyed_inj m k k' r :
  keyed m → containers m !! k = Some r → containers m !! k' = Some r → k = k'.
Proof.
  intros Hm Hk Hk'.
  destruct (keyed_lookup m k r Hm Hk) as (o & Ho & <-).
  destruct (keyed_lookup m k' r Hm Hk') as (o' & Ho' & <-). congruence.
Qed.

Lemma whenChanged_tracked c m r :
  keyed m → containers m !! cookieStoreId c = Some r →
  whenChanged c m = set_objects (<[r := c]> (objects m)) m.
Proof.
  intros Hm Hk. unfold whenChanged. rewrite Hk. f_equal.
  destruct (keyed_lookup m _ r Hm Hk) as (o & Ho & _).
  apply list_eq. intros i. rewrite list_lookup_alter, list_lookup_insert.
  destruct (decide (i = r)) as [->|].
  - rewrite Ho. simpl. rewrite assign_fields_all.
    rewrite (decide_True (P:=r = r)) by done.
    rewrite decide_True; [done|]. split; [done|]. by eapply lookup_lt_Some.
  - rewrite decide_False by done. by rewrite decide_False by (by intros [? ?]).
Qed.

Lemma whenChanged_untracked c m :
  containers m !! cookieStoreId c = None →
  whenChanged c m
  = mkModel (objects m ++ [c])
      (<[cookieStoreId c := length (objects m)]> (containers m))
      (enabled m) (_event_since_load m) (listening m).
Proof. intros Hk. unfold whenChanged. rewrite Hk. by destruct c. Qed.

Lemma keyed_whenChanged c m : keyed m → keyed (whenChanged c m).
Proof.
  intros Hm. destruct (containers m !! cookieStoreId c) as [r|] eqn:Hk.
  - rewrite (whenChanged_tracked c m r Hm Hk). intros k r' Hk'. simpl in *.
    rewrite list_lookup_insert. case_decide as Hr.
    + destruct Hr as [-> _]. simpl. f_equal. by eapply keyed_inj.
    + by apply Hm.
  - rewrite (whenChanged_untracked c m Hk). intros k r'. simpl.
    rewrite lookup_insert. case_decide as Hkk.
    + intros [= <-]. subst k. by rewrite lookup_app_r, Nat.sub_diag.
    + intros Hk'. destruct (keyed_lookup m k r' Hm Hk') as (o & Ho & <-).
      by rewrite (lookup_app_l_Some _ _ _ _ Ho).
Qed.

Lemma keyed_whenRemoved c m : keyed m → keyed (whenRemoved c m).
Proof.
  intros Hm k r. unfold whenRemoved. simpl. intros Hk.
  apply lookup_delete_Some in Hk as [_ Hk]. by apply Hm.
Qed.

Lemma keyed_set_event_since_load b m : keyed m → keyed (set_event_since_load b m).
Proof. done. Qed.

Lemma keyed_fire ev m : keyed m → keyed (fire ev m).
Proof.
  intros Hm. unfold fire. destruct (listening m); [|done].
  destruct ev; simpl;
    by (apply keyed_whenChanged || apply keyed_whenRemoved).
Qed.

Lemma keyed_fire_all (during : list browser_event) m :
  keyed m → keyed (foldl (λ m ev, fire ev m) m during).
Proof.
  revert m. induction during as [|ev during IH]; intros m Hm; [done|].
  simpl. by apply IH, keyed_fire.
Qed.

(** What the handlers leave alone. *)
Lemma handler_fields ev m :
  enabled (handler ev m) = enabled m ∧
  listening (handler ev m) = listening m ∧
  _event_since_load (handler ev m) = _event_since_load m.
Proof.
  destruct ev as [c|c|c]; simpl; unfold whenChanged, whenRemoved;
    by destruct (containers m !! cookieStoreId c).
Qed.

Lemma fire_fields ev m :
  enabled (fire ev m) = enabled m ∧
  listening (fire ev m) = listening m ∧
  _event_since_load (fire ev m) = (listening m || _event_since_load m).
Proof.
  unfold fire. destruct (listening m) eqn:Hl; [|done].
  by destruct (handler_fields ev (set_event_since_load true m))
    as (-> & -> & ->).
Qed.

Lemma fire_all_fields (during : list browser_event) m :
  enabled (foldl (λ m ev, fire ev m) m during) = enabled m ∧
  listening (foldl (λ m ev, fire ev m) m during) = listening m ∧
  _event_since_load (foldl (λ m ev, fire ev m) m during)
  = (match during with [] => false | _ => listening m end
     || _event_since_load m).
Proof.
  revert m. induction during as [|ev during IH]; intros m; [done|].
  simpl. destruct (IH (fire ev m)) as (-> & -> & ->).
  destruct (fire_fields ev m) as (-> & -> & ->).
  split_and!; [done..|]. by destruct during, (listening m), (_event_since_load m).
Qed.

(** The loop of [reload] keeps the invariant, and can only disable. *)
Lemma reload_loop_keyed attempts loaded m :
  keyed m → keyed (reload_loop attempts loaded m).2.
Proof.
  revert loaded m. induction attempts as [|[during outcome] rest IH];
    intros loaded m Hm; simpl.
  - by destruct (_event_since_load m).
  - destruct (_event_since_load m); [|done].
    pose proof (keyed_fire_all during (set_event_since_load false m) Hm) as Hm'.
    destruct outcome as [loaded'|]; [by apply IH|done].
Qed.

Lemma reload_loop_fields attempts loaded m :
  listening (reload_loop attempts loaded m).2 = listening m ∧
  (enabled (reload_loop attempts loaded m).2 = true → enabled m = true).
Proof.
  revert loaded m. induction attempts as [|[during outcome] rest IH];
    intros loaded m; simpl.
  - by destruct (_event_since_load m).
  - destruct (_event_since_load m); [|done].
    destruct (fire_all_fields during (set_event_since_load false m))
      as (He & Hl & _).
    destruct outcome as [loaded'|]; [|by simpl].
    destruct (IH loaded' (foldl (λ m ev, fire ev m)
                            (set_event_since_load false m) during))
      as (-> & Hen).
    split; [done|]. intros Hen'%Hen. by rewrite He in Hen'.
Qed.

(** Building the new map. *)
Lemma reactive_pairs_snoc (cs : list Container) c m :
  reactive_pairs (cs ++ [c]) m
  = ((reactive_pairs cs m).1
       ++ [(cookieStoreId c, length (objects (reactive_pairs cs m).2))],
     set_objects (objects (reactive_pairs cs m).2 ++ [c])
       (reactive_pairs cs m).2).
Proof. unfold reactive_pairs. rewrite foldl_app. simpl. by destruct c. Qed.

Lemma new_Map_snoc (pairs : list (string * ref)) k r :
  new_Map (pairs ++ [(k, r)]) = <[k := r]> (new_Map pairs).
Proof. unfold new_Map. by rewrite foldl_app. Qed.

Lemma reactive_pairs_spec (cs : list Container) m :
  objects (reactive_pairs cs m).2 = objects m ++ cs ∧
  containers (reactive_pairs cs m).2 = containers m ∧
  enabled (reactive_pairs cs m).2 = enabled m ∧
  listening (reactive_pairs cs m).2 = listening m ∧
  _event_since_load (reactive_pairs cs m).2 = _event_since_load m ∧
  (∀ k r, new_Map (reactive_pairs cs m).1 !! k = Some r →
          cookieStoreId <$> (objects m ++ cs) !! r = Some k) ∧
  (∀ k, new_Map (reactive_pairs cs m).1 !! k ≫= (λ r, (objects m ++ cs) !! r)
        = last (filter (λ c, cookieStoreId c = k) cs)).
Proof.
  induction cs as [|c cs IH] using rev_ind.
  { simpl. rewrite app_nil_r. split_and!; try done. }
  destruct IH as (Ho & Hc & He & Hl & Hf & Hkeyed & Hlast).
  rewrite reactive_pairs_snoc. cbn [fst snd]. rewrite new_Map_snoc, Ho.
  split_and!; try done.
  - simpl. by rewrite app_assoc.
  - intros k r. rewrite lookup_insert. case_decide as Hk.
    + intros [= <-]. subst k.
      by rewrite app_assoc, lookup_app_r, Nat.sub_diag.
    + intros Hr. specialize (Hkeyed k r Hr).
      destruct ((objects m ++ cs) !! r) as [o|] eqn:Hor; [|done].
      by rewrite app_assoc, (lookup_app_l_Some _ _ _ _ Hor).
  - intros k. rewrite lookup_insert, filter_app. case_decide as Hk.
    + subst k. simpl.
      rewrite app_assoc, lookup_app_r, Nat.sub_diag by done. simpl.
      rewrite filter_cons_True by done. by rewrite filter_nil, last_snoc.
    + rewrite filter_cons_False by done. rewrite filter_nil, app_nil_r, <-Hlast.
      destruct (new_Map (reactive_pairs cs m).1 !! k) as [r|] eqn:Hr; [|done].
      simpl. specialize (Hkeyed k r Hr).
      destruct ((objects m ++ cs) !! r) as [o|] eqn:Hor; [|done].
      by rewrite app_assoc, (lookup_app_l_Some _ _ _ _ Hor).
Qed.

Lemma keyed_reload attempts m : keyed m → keyed (reload attempts m).1.
Proof.
  intros Hm. unfold reload. destruct (enabled m); [|done].
  pose proof (reload_loop_keyed attempts [] (set_event_since_load true m) Hm)
    as Hm'.
  destruct (reload_loop attempts [] (set_event_since_load true m))
    as [[loaded|] m']; [|done].
  destruct (reactive_pairs_spec (omap has_cookieStoreId loaded) m')
    as (Ho & _ & _ & _ & _ & Hkeyed & _).
  destruct (reactive_pairs (omap has_cookieStoreId loaded) m')
    as [pairs m''] eqn:Hpairs. simpl in *.
  intros k r Hk. simpl in *. rewrite Ho. by apply Hkeyed.
Qed.

Lemma reload_fields attempts m :
  listening (reload attempts m).1 = listening m ∧
  (enabled (reload attempts m).1 = true → enabled m = true).
Proof.
  unfold reload. destruct (enabled m) eqn:He; [|simpl; split; congruence].
  split; [|done].
  destruct (reload_loop_fields attempts [] (set_event_since_load true m))
    as [Hl _].
  destruct (reload_loop attempts [] (set_event_since_load true m))
    as [[loaded|] m']; [|done].
  destruct (reactive_pairs_spec (omap has_cookieStoreId loaded) m')
    as (_ & _ & _ & Hl' & _).
  destruct (reactive_pairs (omap has_cookieStoreId loaded) m')
    as [pairs m''] eqn:Hpairs. simpl in *. congruence.
Qed.

Lemma run_model_snoc m (ops : list op) (x : op) :
  run_model m (ops ++ [x]) = op_step (run_model m ops) x.
Proof. unfold run_model. by rewrite foldl_app. Qed.

(** X18. Every container is filed under its own [cookieStoreId]. In a
    model as constructed and after any sequence of browser events and
    runs of [reload] (whatever the queries answer, completed or not),
    every key of the map leads to an object, and the [cookieStoreId] of
    that object is the key; no two keys share an object; and the model
    is never enabled without listening to the browser. *)
Theorem containers_filed_under_their_id supports_containers (ops : list op) :
  let m := run_model (new_model supports_containers) ops in
  (∀ k r, container k m = Some r →
          ∃ o, container_now k m = Some o ∧ objects m !! r = Some o ∧
               cookieStoreId o = k) ∧
  (∀ k k' r, container k m = Some r → container k' m = Some r → k = k') ∧
  (enabled m = true → listening m = true).
Proof.
  simpl.
  assert (keyed (run_model (new_model supports_containers) ops) ∧
          (enabled (run_model (new_model supports_containers) ops) = true →
           listening (run_model (new_model supports_containers) ops) = true))
    as [Hm Hen].
  { induction ops as [|x ops [IHk IHe]] using rev_ind.
    - split; [by destruct supports_containers|by destruct supports_containers].
    - rewrite run_model_snoc. destruct x as [ev|attempts]; simpl.
      + split; [by apply keyed_fire|].
        by destruct (fire_fields ev (run_model (new_model supports_containers) ops))
          as (-> & -> & _).
      + split; [by apply keyed_reload|].
        destruct (reload_fields attempts
                    (run_model (new_model supports_containers) ops))
          as (-> & Hen).
        intros Hen'%Hen. by apply IHe. }
  split_and!; [|by intros k k' r; apply keyed_inj|done].
  intros k r Hk. destruct (keyed_lookup _ k r Hm Hk) as (o & Ho & Hid).
  exists o. split_and!; [|done..]. unfold container_now. rewrite Hk. by simpl.
Qed.

(** X19. An update is seen through the object already handed out. After
    [whenChanged] for a container [c], on a model that files its
    containers under their ids: [container(c.cookieStoreId)] reads as
    [c] in all six fields; if the id was on file before, it is the same
    object as before (so whoever holds it sees the new fields), and if
    not, a new object; every other id leads to the object it led to
    before, reading as before. *)
Theorem whenChanged_updates_in_place c m :
  keyed m →
  container_now (cookieStoreId c) (whenChanged c m) = Some c ∧
  container (cookieStoreId c) (whenChanged c m)
  = Some (default (length (objects m)) (container (cookieStoreId c) m)) ∧
  (∀ k, k ≠ cookieStoreId c →
        container k (whenChanged c m) = container k m ∧
        container_now k (whenChanged c m) = container_now k m).
Proof.
  intros Hm. unfold container_now, container.
  destruct (containers m !! cookieStoreId c) as [r|] eqn:Hk.
  - rewrite (whenChanged_tracked c m r Hm Hk). simpl. rewrite Hk. simpl.
    destruct (keyed_lookup m _ r Hm Hk) as (o & Ho & _).
    split_and!; [|done|].
    + rewrite list_lookup_insert, decide_True; [done|].
      split; [done|]. by eapply lookup_lt_Some.
    + intros k Hne. split; [done|].
      destruct (containers m !! k) as [r'|] eqn:Hk'; [|done]. simpl.
      rewrite list_lookup_insert, decide_False; [done|].
      intros [-> _]. apply Hne. by eapply keyed_inj.
  - rewrite (whenChanged_untracked c m Hk). simpl.
    rewrite lookup_insert, decide_True by done. simpl.
    split_and!; [by rewrite lookup_app_r, Nat.sub_diag|done|].
    intros k Hne. rewrite lookup_insert, decide_False by done.
    split; [done|]. destruct (containers m !! k) as [r'|] eqn:Hk'; [|done].
    simpl. destruct (keyed_lookup m k r' Hm Hk') as (o & Ho & _).
    by rewrite (lookup_app_l_Some _ _ _ _ Ho).
Qed.

(** X20. A removed container that comes back is a new object. Let
    [container(k)] be the object [r]; after [whenRemoved] for [k] the id
    is off the file while every other id is as before, and after a
    following [whenChanged] for a container [c'] with the same id,
    [container(k)] reads as [c'] but is not [r]: the object [r] that was
    handed out before the removal still reads as it did, and is no
    longer updated. *)
Theorem removed_then_created_is_new_object c c' m r :
  keyed m → container (cookieStoreId c) m = Some r →
  cookieStoreId c' = cookieStoreId c →
  container (cookieStoreId c) (whenRemoved c m) = None ∧
  (∀ k, k ≠ cookieStoreId c →
        container k (whenRemoved c m) = container k m ∧
        container_now k (whenRemoved c m) = container_now k m) ∧
  container_now (cookieStoreId c) (whenChanged c' (whenRemoved c m)) = Some c' ∧
  container (cookieStoreId c) (whenChanged c' (whenRemoved c m)) ≠ Some r ∧
  objects (whenChanged c' (whenRemoved c m)) !! r = objects m !! r.
Proof.
  intros Hm Hk Hid. unfold container in *.
  assert (Hgone : containers (whenRemoved c m) !! cookieStoreId c' = None)
    by (rewrite Hid; apply lookup_delete_eq).
  destruct (keyed_lookup m _ r Hm Hk) as (o & Ho & _).
  split_and!.
  - apply lookup_delete_eq.
  - intros k Hne. unfold container_now, container, whenRemoved. simpl.
    by rewrite lookup_delete_ne.
  - unfold container_now, container.
    rewrite (whenChanged_untracked c' _ Hgone). simpl.
    rewrite <-Hid, lookup_insert, decide_True by done. simpl.
    by rewrite lookup_app_r, Nat.sub_diag.
  - rewrite (whenChanged_untracked c' _ Hgone). simpl.
    rewrite <-Hid, lookup_insert, decide_True by done.
    intros [= <-]. apply lookup_lt_Some in Ho. lia.
  - rewrite (whenChanged_untracked c' _ Hgone). simpl.
    by rewrite (lookup_app_l_Some _ _ _ _ Ho).
Qed.

(** The loop goes round once for each query that an event came with. *)
Lemma reload_loop_retries retries rest loaded m :
  listening m = true → _event_since_load m = true →
  Forall (λ a : attempt, a.1 ≠ [] ∧ a.2 ≠ QueryFailed) retries →
  ∃ loaded' m',
    reload_loop (retries ++ rest) loaded m = reload_loop rest loaded' m' ∧
    listening m' = true ∧ _event_since_load m' = true ∧
    enabled m' = enabled m ∧ (keyed m → keyed m').
Proof.
  intros Hl Hf Hretries. revert loaded m Hl Hf.
  induction Hretries as [|[during outcome] retries [Hd Ho] _ IH];
    intros loaded m Hl Hf.
  { by exists loaded, m. }
  simpl in *. rewrite Hf.
  destruct outcome as [loaded1|]; [|done].
  destruct (fire_all_fields during (set_event_since_load false m))
    as (He1 & Hl1 & Hf1).
  simpl in He1, Hl1, Hf1. rewrite Hl in Hl1, Hf1.
  destruct (IH loaded1 (foldl (λ m ev, fire ev m)
                          (set_event_since_load false m) during))
    as (loaded' & m' & -> & Hl' & Hf' & He' & Hk'); [done| |].
  { rewrite Hf1. by destruct during. }
  exists loaded', m'. split_and!; try done; [congruence|].
  intros Hm. by apply Hk', keyed_fire_all.
Qed.

Lemma last_kept k (loaded : list (option Container)) :
  last (filter (λ c, cookieStoreId c = k) (omap has_cookieStoreId loaded))
  = if decide (k = EmptyString) then None
    else last (filter (λ c, cookieStoreId c = k) (omap id loaded)).
Proof.
  induction loaded as [|x loaded IH] using rev_ind.
  { simpl. by case_decide. }
  rewrite !omap_app, !filter_app, !last_app, IH.
  destruct x as [c|]; [|simpl; by case_decide].
  cbn [omap list_omap has_cookieStoreId id].
  destruct (decide (cookieStoreId c = EmptyString)) as [Hc|Hc].
  - rewrite filter_nil. cbn [last]. case_decide as Hk; [done|].
    rewrite filter_cons_False by congruence. by rewrite filter_nil.
  - rewrite !filter_cons, !filter_nil. case_decide as Hck; cbn [last].
    + by rewrite decide_False by congruence.
    + by case_decide.
Qed.

(** X21. [reload] takes the first query that no event came with. Let
    the model be enabled and listening, let each of the first queries
    succeed but with at least one browser event arriving while it is
    awaited, and let the next query succeed with no event arriving. Then
    the run completes, the model stays enabled, and the map holds
    exactly the containers of that last answer that are objects with a
    non-empty [cookieStoreId], each as a new object under its id and
    reading as the answer has it; when the answer holds an id twice, the
    later container is the one on file. No earlier answer, and nothing
    that was on file before, remains. *)
Theorem reload_takes_first_quiet_query retries rest loaded m :
  enabled m = true → listening m = true →
  Forall (λ a : attempt, a.1 ≠ [] ∧ a.2 ≠ QueryFailed) retries →
  (reload (retries ++ ([], QueryOk loaded) :: rest) m).2 = true ∧
  enabled (reload (retries ++ ([], QueryOk loaded) :: rest) m).1 = true ∧
  ∀ k, container_now k (reload (retries ++ ([], QueryOk loaded) :: rest) m).1
       = if decide (k = EmptyString) then None
         else last (filter (λ c, cookieStoreId c = k) (omap id loaded)).
Proof.
  intros He Hl Hretries. unfold reload. rewrite He.
  destruct (reload_loop_retries retries (([], QueryOk loaded) :: rest) []
              (set_event_since_load true m) Hl eq_refl Hretries)
    as (loaded' & m' & -> & Hl' & Hf' & He' & _).
  simpl. rewrite Hf'. simpl.
  assert (reload_loop rest loaded (set_event_since_load false m')
          = (Some loaded, set_event_since_load false m')) as ->
    by by destruct rest as [|[] ?].
  destruct (reactive_pairs_spec (omap has_cookieStoreId loaded)
              (set_event_since_load false m'))
    as (Ho & _ & Hen & _ & _ & _ & Hlast).
  destruct (reactive_pairs (omap has_cookieStoreId loaded)
              (set_event_since_load false m')) as [pairs m''] eqn:Hpairs.
  simpl in *. split_and!; [done|congruence|].
  intros k. unfold container_now, container. simpl. rewrite Ho, Hlast.
  apply last_kept.
Qed.

(** X22. A failing query disables the model for good. Let the model be
    enabled and listening, and let the first query that fails come
    before any query that no event came with. Then the run of [reload]
    completes with the model disabled and no container on file,
    whatever was on file before; and from a disabled model, no sequence
    of events and runs of [reload] enables it again, a run of [reload]
    changing nothing at all. *)
Theorem failed_query_disables_model retries during rest m :
  enabled m = true → listening m = true →
  Forall (λ a : attempt, a.1 ≠ [] ∧ a.2 ≠ QueryFailed) retries →
  (reload (retries ++ (during, QueryFailed) :: rest) m).2 = true ∧
  enabled (reload (retries ++ (during, QueryFailed) :: rest) m).1 = false ∧
  containers (reload (retries ++ (during, QueryFailed) :: rest) m).1 = ∅ ∧
  (∀ m0 (ops : list op) attempts,
     enabled m0 = false →
     enabled (run_model m0 ops) = false ∧ reload attempts m0 = (m0, true)).
Proof.
  intros He Hl Hretries. unfold reload at 1 2 3. rewrite He.
  destruct (reload_loop_retries retries ((during, QueryFailed) :: rest) []
              (set_event_since_load true m) Hl eq_refl Hretries)
    as (loaded' & m' & -> & Hl' & Hf' & He' & _).
  simpl. rewrite Hf'. simpl. split_and!; [done..|].
  intros m0 ops attempts Hm0. split; [|by unfold reload; rewrite Hm0].
  induction ops as [|x ops IH] using rev_ind; [done|].
  rewrite run_model_snoc. destruct x as [ev|attempts']; simpl.
  - by destruct (fire_fields ev (run_model m0 ops)) as (-> & _).
  - unfold reload. by rewrite IH.
Qed.

End ContainerFacts.

(** * Concrete runs *)

Section Examples.
Open Scope string_scope.

(** ** The cache *)

Example three_crashes_state :
  crashes new_cache three_crashes = 3 ∧
  _crash_count (run new_cache three_crashes) = 3 ∧
  _pending_io (run new_cache three_crashes) = None ∧
  kvs_calls (run new_cache three_crashes)
  = [KvsGet [1]; KvsGet [2]; KvsGet [3]].
Proof. by vm_compute. Qed.

(** One full cycle: [maybeInsert] of a key the store has, the fetch
    brings the store's value, and the flush that follows writes nothing. *)
Example maybeInsert_then_fetch_cycle :
  let c := run new_cache
             [CallMaybeInsert 1 "mine"; IoResume;
              KvsGetResolved [mkEntry 1 "theirs"]; IoResume; IoResume] in
  value_of 1 c = Some "theirs" ∧ _pending_io c = None ∧
  kvs_calls c = [KvsGet [1]].
Proof. by vm_compute. Qed.

(** The same when the store does not have the key: the flush writes the
    inserted value. *)
Example maybeInsert_absent_key_cycle :
  let c := run new_cache
             [CallMaybeInsert 1 "mine"; IoResume; KvsGetResolved [];
              IoResume; KvsSetResolved; IoResume] in
  value_of 1 c = Some "mine" ∧ _pending_io c = None ∧
  kvs_calls c = [KvsGet [1]; KvsSet [mkEntry 1 (Some "mine")]].
Proof. by vm_compute. Qed.

(** ** The retry loop *)

Example dead_port_run :
  _request_with_retry dead_port "get"
  = ([Request "get"; Sleep 0; Request "get"; Sleep 100; Request "get";
      Sleep 200; Request "get"; Sleep 300; Request "get"; Sleep 400;
      Request "get"; Sleep 500; Request "get"; Sleep 600; Request "get";
      Sleep 700; Request "get"; Sleep 800; Request "get"; Sleep 900;
      Request "get"],
     Rejected (NanoPortError "later")).
Proof. by vm_compute. Qed.

(** ** Listing *)

(** Three pages of 100, 100 and 50 entries and a fourth, empty one. *)
Example list_store250_pages :
  list_entries (getStartingAfter Z.lt store250) 4 = (store250, true) ∧
  (list_entries (getStartingAfter Z.lt store250) 3).2 = false ∧
  listReverse (getEndingBefore Z.lt store250) 4 = (reverse store250, true).
Proof. by vm_compute. Qed.

End Examples.

(** * The claims at concrete inputs *)

Lemma list_yields_store_in_order_witness :
  store_ok Z.lt store250 ∧ length store250 < 251 ∧
  list_entries (getStartingAfter Z.lt store250) 251 = (store250, true) ∧
  listReverse (getEndingBefore Z.lt store250) 251 = (reverse store250, true).
Proof.
  assert (Hok : store_ok Z.lt store250)
    by (apply (bool_decide_unpack _); vm_compute; exact I).
  assert (Hlen : length store250 < 251) by (vm_compute; lia).
  split; [exact Hok|]. split; [exact Hlen|].
  exact (list_yields_store_in_order Z.lt store250 251 Hok Hlen).
Defined.

(** With pages that include the bound, as the specification words
    [getStartingFrom], the loop of [genericList] asks again and again for
    the page that starts at the last key it has seen, which is never
    empty. *)
Lemma inclusive_page_repeats fuel bound :
  bound = None ∨ bound = Some 1%Z →
  (genericList fuel (getStartingFrom Z.lt store1) bound).2 = false.
Proof.
  revert bound. induction fuel as [|fuel IH]; intros bound Hb; [done|].
  cbn [genericList].
  assert (Hpage : getStartingFrom Z.lt store1 bound 100 = store1)
    by (destruct Hb as [-> | ->]; reflexivity).
  rewrite Hpage. cbn. specialize (IH (Some 1%Z) (or_intror eq_refl)).
  by destruct (genericList fuel (getStartingFrom Z.lt store1) (Some 1%Z)).
Qed.

(** C1 as stated fails: over a store with the single key 1 and pages of
    the entries with key >= bound, [list()] never completes having yielded
    the store; and over the keys 1 to 250 its first five pages hold 254
    entries, the keys 100, 199 and 250 (twice) being yielded again. *)
Lemma list_with_inclusive_pages_repeats :
  ¬ (∃ fuel, list_entries (getStartingFrom Z.lt store1) fuel = (store1, true)) ∧
  (list_entries (getStartingFrom Z.lt store1) 3).1
  = [mkEntry 1%Z 1%Z; mkEntry 1%Z 1%Z; mkEntry 1%Z 1%Z] ∧
  length (list_entries (getStartingFrom Z.lt store250) 5).1 = 254 ∧
  (list_entries (getStartingFrom Z.lt store250) 5).2 = false ∧
  key <$> take 4 (drop 98 (list_entries (getStartingFrom Z.lt store250) 5).1)
  = [99%Z; 100%Z; 100%Z; 101%Z].
Proof.
  split; [|by vm_compute].
  intros [fuel Hfuel].
  pose proof (inclusive_page_repeats fuel None (or_introl eq_refl)) as Hrun.
  change (genericList fuel (getStartingFrom Z.lt store1) None = (store1, true))
    in Hfuel.
  by rewrite Hfuel in Hrun.
Qed.

Lemma transport_errors_retried_ten_times_witness :
  (∀ i, i < 10 → is_transport_failure (dead_port i "get"%string) = true) ∧
  _request_with_retry dead_port "get"%string
  = (failed_attempts "get"%string 10 ++ [Request "get"%string],
     Rejected (NanoPortError "later")) ∧
  requests (_request_with_retry dead_port "get"%string).1 = 11 ∧
  total_sleep (_request_with_retry dead_port "get"%string).1 = 4500%Z.
Proof.
  assert (Hfail : ∀ i, i < 10 →
            is_transport_failure (dead_port i "get"%string) = true)
    by (intros i _; reflexivity).
  split; [exact Hfail|].
  destruct (transport_errors_retried_ten_times dead_port "get"%string
              (NanoPortError "later") Hfail eq_refl eq_refl)
    as (Hrun & Hreq & Hsleep & _).
  exact (conj Hrun (conj Hreq Hsleep)).
Defined.

(** C2 as stated fails. After ten failed attempts the client does not
    give up: it waits 900 ms and makes an eleventh request, and when that
    one succeeds the caller gets its response, no error. When all eleven
    fail, the waits before giving up add up to 4500 ms, not to 900 ms at
    most, and the error surfaced is that of the last attempt, not that
    of the original request. *)
Lemma retry_gives_up_after_eleven_attempts :
  ¬ ((∀ i, i < 10 → is_transport_failure (flaky_port i "get"%string) = true) →
     ∃ e, (_request_with_retry flaky_port "get"%string).2 = Rejected e) ∧
  ¬ ((∀ i, is_transport_failure (dead_port i "get"%string) = true) →
     (total_sleep (_request_with_retry dead_port "get"%string).1 ≤ 900)%Z) ∧
  ¬ ((∀ i, is_transport_failure (dead_port i "get"%string) = true) →
     (_request_with_retry dead_port "get"%string).2 = dead_port 0 "get"%string).
Proof.
  split_and!.
  - intros Hclaim. destruct Hclaim as [e He]; [|by vm_compute in He].
    intros i Hi. unfold flaky_port. by rewrite decide_True.
  - intros Hclaim. assert (Hle := Hclaim (λ i, eq_refl)).
    vm_compute in Hle. by apply Hle.
  - intros Hclaim. assert (Heq := Hclaim (λ i, eq_refl)).
    by vm_compute in Heq.
Qed.

Lemma service_error_not_retried_witness :
  0 ≤ 10 ∧ refusing_port 0 "set"%string = Rejected (ServiceError "refused") ∧
  _request_with_retry refusing_port "set"%string
  = ([Request "set"%string], Rejected (ServiceError "refused")).
Proof.
  split; [lia|]. split; [reflexivity|].
  refine (proj2 (service_error_not_retried refusing_port "set"%string 0
                   (ServiceError "refused") _ _ eq_refl eq_refl) eq_refl).
  - lia.
  - intros i Hi. lia.
Defined.

Lemma fetch_overrides_flush_witness :
  wf (new_cache (K:=nat) (V:=string)) ∧
  value_of 1 (new_cache (K:=nat) (V:=string)) = None ∧
  value_of 1 (maybeInsert 1 "mine"%string new_cache).2 = Some "mine"%string ∧
  value_of 1 (run new_cache [CallMaybeInsert 1 "mine"%string; IoResume;
                             KvsGetResolved [mkEntry 1 "theirs"%string]])
  = Some "theirs"%string ∧
  _needs_flush (run new_cache [CallMaybeInsert 1 "mine"%string; IoResume;
                               KvsGetResolved [mkEntry 1 "theirs"%string]])
    !! 1 = None ∧
  ∃ new,
    kvs_calls (run new_cache [CallMaybeInsert 1 "mine"%string; IoResume;
                              KvsGetResolved [mkEntry 1 "theirs"%string];
                              IoResume; CallSet 2 "other"%string; IoResume;
                              IoResume])
    = [KvsGet [1]] ++ new ∧
    Forall (λ q, ¬ writes_key 1 q) new.
Proof.
  assert (Hwf : wf (new_cache (K:=nat) (V:=string)))
    by (split; compute_done).
  split; [exact Hwf|]. split; [reflexivity|].
  destruct (fetch_overrides_flush new_cache 1 "mine"%string "theirs"%string
              [IoResume] [] [mkEntry 1 "theirs"%string]
              Hwf eq_refl eq_refl eq_refl)
    as (Hv & _ & _ & _ & Hv2 & Hfl & Hnever).
  exact (conj Hv (conj Hv2 (conj Hfl
    (Hnever [IoResume; CallSet 2 "other"%string; IoResume; IoResume] eq_refl)))).
Defined.

Lemma io_disabled_after_three_crashes_witness :
  3 ≤ crashes new_cache three_crashes ∧
  kvs_calls (run new_cache (three_crashes ++ after_three_crashes))
  = kvs_calls (run new_cache three_crashes) ∧
  _pending_io (run new_cache (three_crashes ++ after_three_crashes)) = None ∧
  heap (set 6 "f"%string
          (run new_cache (three_crashes ++ after_three_crashes))).2
    !! (set 6 "f"%string
          (run new_cache (three_crashes ++ after_three_crashes))).1
  = Some (mkEntry 6 (Some "f"%string)).
Proof.
  assert (Hc : 3 ≤ crashes new_cache three_crashes) by (vm_compute; lia).
  split; [exact Hc|].
  destruct (io_disabled_after_three_crashes three_crashes after_three_crashes
              6 "f"%string Hc) as (Hcalls & Hp & _ & _ & Hset & _).
  exact (conj Hcalls (conj Hp Hset)).
Defined.

Lemma onDelete_clears_tracked_witness :
  wf (run new_cache [CallSet 1 "a"%string] : KVSCache (K:=nat) (V:=string)) ∧
  _entries (run new_cache [CallSet 1 "a"%string]) !! 1 = Some 0 ∧
  heap (onDelete [1] (run new_cache [CallSet 1 "a"%string])) !! 0
  = Some (mkEntry 1 None) ∧
  _needs_fetch (onDelete [1] (run new_cache [CallSet 1 "a"%string])) !! 1 = None ∧
  _needs_flush (onDelete [1] (run new_cache [CallSet 1 "a"%string])) !! 1 = None.
Proof.
  assert (Hwf : wf (run new_cache [CallSet 1 "a"%string]
                    : KVSCache (K:=nat) (V:=string)))
    by (split; compute_done).
  split; [exact Hwf|]. split; [reflexivity|].
  destruct (onDelete_clears_tracked (run new_cache [CallSet 1 "a"%string])
              1 0 Hwf eq_refl) as (_ & Hv & _ & Hf & Hfl).
  exact (conj Hv (conj Hf Hfl)).
Defined.

Lemma onSyncLost_refetches_tracked_witness :
  wf (run new_cache [CallSet 1 "a"%string; CallGet 2]
      : KVSCache (K:=nat) (V:=string)) ∧
  _entries (onSyncLost (run new_cache [CallSet 1 "a"%string; CallGet 2]))
  = _entries (run new_cache [CallSet 1 "a"%string; CallGet 2]) ∧
  map_Forall
    (λ k e,
       heap (onSyncLost (run new_cache [CallSet 1 "a"%string; CallGet 2])) !! e
       = Some (mkEntry k None) ∧
       _needs_fetch (onSyncLost (run new_cache [CallSet 1 "a"%string; CallGet 2]))
         !! k = Some e)
    (_entries (run new_cache [CallSet 1 "a"%string; CallGet 2])).
Proof.
  assert (Hwf : wf (run new_cache [CallSet 1 "a"%string; CallGet 2]
                    : KVSCache (K:=nat) (V:=string)))
    by (split; compute_done).
  split; [exact Hwf|].
  exact (onSyncLost_refetches_tracked _ Hwf).
Defined.

Lemma set_visible_immediately_witness :
  wf (run new_cache [CallGet 1; IoResume] : KVSCache (K:=nat) (V:=string)) ∧
  value_of 2 (set 2 "b"%string (run new_cache [CallGet 1; IoResume])).2
  = Some "b"%string ∧
  value_of 1 (set 1 "a"%string (run new_cache [CallGet 1; IoResume])).2
  = Some "a"%string ∧
  _needs_fetch (set 1 "a"%string (run new_cache [CallGet 1; IoResume])).2 !! 1
  = None.
Proof.
  assert (Hwf : wf (run new_cache [CallGet 1; IoResume]
                    : KVSCache (K:=nat) (V:=string)))
    by (split; compute_done).
  split; [exact Hwf|].
  destruct (set_visible_immediately _ 2 "b"%string Hwf)
    as (_ & _ & Hv2 & _).
  destruct (set_visible_immediately _ 1 "a"%string Hwf)
    as (_ & _ & Hv1 & _ & Hf1 & _).
  exact (conj Hv2 (conj Hv1 Hf1)).
Defined.

Lemma queues_tracked_preserved_witness :
  queues_tracked (run new_cache [CallSet 1 "a"%string; CallMaybeInsert 2 "b"%string]
                  : KVSCache (K:=nat) (V:=string)) ∧
  queues_tracked
    (onSyncLost (run new_cache [CallSet 1 "a"%string; CallMaybeInsert 2 "b"%string])) ∧
  queues_tracked
    (set 3 "c"%string
       (run new_cache [CallSet 1 "a"%string; CallMaybeInsert 2 "b"%string])).2.
Proof.
  assert (Hq : queues_tracked
                 (run new_cache [CallSet 1 "a"%string; CallMaybeInsert 2 "b"%string]
                  : KVSCache (K:=nat) (V:=string)))
    by compute_done.
  split; [exact Hq|].
  destruct (queues_tracked_preserved _ Hq) as (_ & Hset & _ & _ & _ & Hlost & _).
  exact (conj Hlost (Hset 3 "c"%string)).
Defined.

Lemma notification_for_untracked_key_witness :
  forallb (λ ev, negb (touches 2 ev))
    [CallSet 1 "a"%string; IoResume; KvsSetResolved] = true ∧
  onDelete [2] (run new_cache [CallSet 1 "a"%string; IoResume; KvsSetResolved])
  = run new_cache [CallSet 1 "a"%string; IoResume; KvsSetResolved] ∧
  onSet [mkEntry 2 "b"%string]
    (run new_cache [CallSet 1 "a"%string; IoResume; KvsSetResolved])
  = run new_cache [CallSet 1 "a"%string; IoResume; KvsSetResolved].
Proof.
  split; [reflexivity|].
  exact (proj2 (notification_for_untracked_key
                  [CallSet 1 "a"%string; IoResume; KvsSetResolved]
                  2 "b"%string eq_refl)).
Defined.

(** * The further properties at concrete inputs *)

Lemma maybeInsert_keeps_existing_value_witness :
  value_of 1 (run new_cache [CallSet 1 "a"%string]) = Some "a"%string ∧
  maybeInsert 1 "b"%string (run new_cache [CallSet 1 "a"%string])
  = (0, run new_cache [CallSet 1 "a"%string]).
Proof.
  split; [reflexivity|].
  exact (maybeInsert_keeps_existing_value
           (run new_cache [CallSet 1 "a"%string]) 1 0 "a"%string "b"%string
           eq_refl eq_refl).
Defined.

Lemma calls_and_listeners_do_no_io_witness :
  kvs_calls (step new_cache (CallSet 1 "a"%string : cache_event)) = [] ∧
  _pending_io (step new_cache (CallSet 1 "a"%string : cache_event))
  = Some IoScheduled.
Proof.
  destruct (calls_and_listeners_do_no_io new_cache
              (CallSet 1 "a"%string : cache_event) eq_refl)
    as (Hcalls & _).
  split; [exact Hcalls|reflexivity].
Defined.

Lemma onSyncLost_keeps_flush_queue_witness :
  wf (run new_cache [CallSet 1 "a"%string; CallGet 2]
      : KVSCache (K:=nat) (V:=string)) ∧
  _needs_flush (onSyncLost (run new_cache [CallSet 1 "a"%string; CallGet 2]))
  = _needs_flush (run new_cache [CallSet 1 "a"%string; CallGet 2]) ∧
  value_of 1 (onSyncLost (run new_cache [CallSet 1 "a"%string; CallGet 2]))
  = None.
Proof.
  assert (Hwf : wf (run new_cache [CallSet 1 "a"%string; CallGet 2]
                    : KVSCache (K:=nat) (V:=string)))
    by (split; compute_done).
  split; [exact Hwf|].
  destruct (onSyncLost_keeps_flush_queue _ Hwf) as [Hfl _].
  split; [exact Hfl|reflexivity].
Defined.

Lemma notifications_touch_named_keys_only_witness :
  value_of 1 (onSet [mkEntry 2 "b"%string]
                (run new_cache [CallSet 1 "a"%string; CallGet 2]))
  = Some "a"%string ∧
  _needs_flush (onDelete [2; 3]
                  (run new_cache [CallSet 1 "a"%string; CallGet 2])) !! 1
  = Some 0.
Proof.
  assert (Hh : heap_ok (run new_cache [CallSet 1 "a"%string; CallGet 2]
                        : KVSCache (K:=nat) (V:=string)))
    by compute_done.
  destruct (notifications_touch_named_keys_only _ 1
              [mkEntry 2 "b"%string] [2; 3] Hh)
    as [(Hv & _) (_ & _ & Hfl & _)].
  - repeat constructor; simpl; lia.
  - repeat constructor; lia.
  - split; [rewrite Hv|rewrite Hfl]; reflexivity.
Defined.

Lemma rejected_flush_drops_dirty_entries_witness :
  _needs_flush (run new_cache [CallSet 1 "a"%string; IoResume]) !! 1 = Some 0 ∧
  _needs_flush (run (run new_cache [CallSet 1 "a"%string; IoResume])
                  [IoResume; KvsRejected]) = ∅ ∧
  _crash_count (run (run new_cache [CallSet 1 "a"%string; IoResume])
                  [IoResume; KvsRejected]) = 1.
Proof.
  split; [reflexivity|].
  assert (Hp : _pending_io (run new_cache [CallSet 1 "a"%string; IoResume]
                            : KVSCache (K:=nat) (V:=string))
               = Some IoFetchDone) by (vm_compute; reflexivity).
  destruct (rejected_flush_drops_dirty_entries _ Hp)
    as (_ & Hcc & Hfl & _).
  - intros Hempty. apply (f_equal (λ m, m !! 1)) in Hempty. discriminate Hempty.
  - exact (conj Hfl Hcc).
Defined.

Lemma rejected_fetch_is_not_retried_witness :
  _needs_fetch (run new_cache [CallGet 1] : KVSCache (K:=nat) (V:=string)) !! 1
  = Some 0 ∧
  _needs_fetch (run (run new_cache [CallGet 1] : KVSCache (K:=nat) (V:=string))
                  [IoResume; KvsRejected]) = ∅ ∧
  _crash_count (run (run new_cache [CallGet 1] : KVSCache (K:=nat) (V:=string))
                  [IoResume; KvsRejected]) = 1.
Proof.
  split; [reflexivity|].
  destruct (rejected_fetch_is_not_retried
              (run new_cache [CallGet 1] : KVSCache (K:=nat) (V:=string))
              eq_refl)
    as (_ & Hcc & Hf & _).
  - intros Hempty. apply (f_equal (λ m, m !! 1)) in Hempty. discriminate Hempty.
  - exact (conj Hf Hcc).
Defined.

Lemma cycle_runs_to_quiescence_witness :
  _pending_io (run new_cache [CallMaybeInsert 1 "mine"%string])
  = Some IoScheduled ∧
  sync (drain 5 store_with_1 (run new_cache [CallMaybeInsert 1 "mine"%string]))
  = None ∧
  _needs_fetch (drain 5 store_with_1
                  (run new_cache [CallMaybeInsert 1 "mine"%string])) = ∅ ∧
  _needs_flush (drain 5 store_with_1
                  (run new_cache [CallMaybeInsert 1 "mine"%string])) = ∅.
Proof.
  split; [reflexivity|].
  destruct (cycle_runs_to_quiescence store_with_1
              (run new_cache [CallMaybeInsert 1 "mine"%string]) 5 eq_refl)
    as (Hs & Hf & Hfl & _).
  - vm_compute. lia.
  - exact (conj Hs (conj Hf Hfl)).
Defined.

Lemma fetch_shows_store_value_witness :
  value_of 1 (run new_cache [CallMaybeInsert 1 "mine"%string])
  = Some "mine"%string ∧
  value_of 1 (drain 5 store_with_1
                (run new_cache [CallMaybeInsert 1 "mine"%string]))
  = Some "theirs"%string.
Proof.
  split; [reflexivity|].
  assert (Hwf : wf (run new_cache [CallMaybeInsert 1 "mine"%string]
                    : KVSCache (K:=nat) (V:=string)))
    by (split; compute_done).
  rewrite (fetch_shows_store_value store_with_1
             (run new_cache [CallMaybeInsert 1 "mine"%string]) 1 0
             (Some "theirs"%string) 5 Hwf eq_refl eq_refl).
  - reflexivity.
  - intros keys. unfold store_with_1.
    destruct (decide (1 ∈ keys)); reflexivity.
  - vm_compute. lia.
Defined.

Lemma queued_write_reaches_store_witness :
  _needs_flush (run new_cache [CallSet 1 "a"%string]) !! 1 = Some 0 ∧
  ∃ earlier entries later,
    kvs_calls (drain 4 empty_store (run new_cache [CallSet 1 "a"%string]))
    = earlier ++ [KvsSet entries] ++ later ∧
    mkEntry 1 (Some "a"%string) ∈ entries.
Proof.
  split; [reflexivity|].
  assert (Hwf : wf (run new_cache [CallSet 1 "a"%string]
                    : KVSCache (K:=nat) (V:=string)))
    by (split; compute_done).
  exact (queued_write_reaches_store empty_store
           (run new_cache [CallSet 1 "a"%string]) 1 0 4 Hwf eq_refl eq_refl
           (λ _, eq_refl) (le_n 4)).
Defined.

Lemma reads_survive_transport_failures_witness :
  ClientApi.get slow_port [1]
  = (failed_attempts (ClientApi.MsgGet [1]) 2
       ++ [Request (ClientApi.MsgGet [1])],
     Resolved [mkEntry 1 "a"%string]).
Proof.
  destruct (reads_survive_transport_failures slow_port 2 [1] None 100)
    as [(resp & Hresp & Hget) _].
  - lia.
  - intros msg i Hi. unfold slow_port.
    destruct (decide (i < 2)); [reflexivity|lia].
  - intros msg. eexists. reflexivity.
  - rewrite Hget. injection Hresp as <-. reflexivity.
Defined.

Lemma writes_settle_as_last_attempt_witness :
  ClientApi.set slow_refusing_port [mkEntry 1 "a"%string]
  = (failed_attempts (ClientApi.MsgSet [mkEntry 1 "a"%string]) 2
       ++ [Request (ClientApi.MsgSet [mkEntry 1 "a"%string])],
     Rejected (ServiceError "refused")).
Proof.
  destruct (writes_settle_as_last_attempt slow_refusing_port 2
              (ClientApi.MsgSet [mkEntry 1 "a"%string]))
    as (Hwrite & Hset & _).
  - lia.
  - intros i Hi. unfold slow_refusing_port.
    destruct (decide (i < 2)); [reflexivity|lia].
  - reflexivity.
  - rewrite (Hset _ eq_refl). exact Hwrite.
Defined.

Lemma whenChanged_updates_in_place_witness :
  container "firefox-container-1" (whenChanged personal (new_model true))
  = Some 0 ∧
  container "firefox-container-1"
    (whenChanged personal_renamed (whenChanged personal (new_model true)))
  = Some 0 ∧
  container_now "firefox-container-1"
    (whenChanged personal_renamed (whenChanged personal (new_model true)))
  = Some personal_renamed.
Proof.
  split; [reflexivity|].
  assert (Hm : keyed (whenChanged personal (new_model true))) by compute_done.
  destruct (whenChanged_updates_in_place personal_renamed
              (whenChanged personal (new_model true)) Hm)
    as (Hnow & Hsame & _).
  exact (conj Hsame Hnow).
Defined.

Lemma removed_then_created_is_new_object_witness :
  container "firefox-container-1" (whenChanged personal (new_model true))
  = Some 0 ∧
  container "firefox-container-1"
    (whenChanged personal_renamed
       (whenRemoved personal (whenChanged personal (new_model true))))
  ≠ Some 0 ∧
  objects (whenChanged personal_renamed
             (whenRemoved personal (whenChanged personal (new_model true))))
    !! 0 = Some personal.
Proof.
  split; [reflexivity|].
  assert (Hm : keyed (whenChanged personal (new_model true))) by compute_done.
  destruct (removed_then_created_is_new_object personal personal_renamed
              (whenChanged personal (new_model true)) 0 Hm eq_refl eq_refl)
    as (_ & _ & _ & Hnew & Hold).
  exact (conj Hnew Hold).
Defined.

Lemma reload_takes_first_quiet_query_witness :
  container_now "firefox-container-1"
    (reload [([OnCreated work], QueryOk [Some work]);
             ([], QueryOk [Some personal; None; Some unfiled; Some work;
                           Some personal_renamed])]
       (new_model true)).1
  = Some personal_renamed ∧
  container_now ""
    (reload [([OnCreated work], QueryOk [Some work]);
             ([], QueryOk [Some personal; None; Some unfiled; Some work;
                           Some personal_renamed])]
       (new_model true)).1
  = None.
Proof.
  destruct (reload_takes_first_quiet_query
              [([OnCreated work], QueryOk [Some work])] []
              [Some personal; None; Some unfiled; Some work;
               Some personal_renamed]
              (new_model true) eq_refl eq_refl)
    as (_ & _ & Hnow).
  - repeat constructor; discriminate.
  - split; [exact (Hnow "firefox-container-1"%string)|exact (Hnow ""%string)].
Defined.

Lemma failed_query_disables_model_witness :
  enabled (reload [([OnCreated work], QueryOk [Some work]);
                   ([], QueryFailed)]
             (whenChanged personal (new_model true))).1 = false ∧
  containers (reload [([OnCreated work], QueryOk [Some work]);
                      ([], QueryFailed)]
                (whenChanged personal (new_model true))).1 = ∅.
Proof.
  destruct (failed_query_disables_model
              [([OnCreated work], QueryOk [Some work])] [] []
              (whenChanged personal (new_model true)) eq_refl eq_refl)
    as (_ & Hen & Hcs & _).
  - repeat constructor; discriminate.
  - exact (conj Hen Hcs).
Defined.
